(** * Perevodik: the translation-memory-backed segment pipeline

    A shallow embedding of the Python sources under [tools/]:
    [chapter_splitter.py], [character_detector.py], [context_manager.py],
    [deepl_cache.py], [chapter_translator.py], [chapter_validator.py] and
    [async_deepl_translator.py], followed by the properties of the
    specification that concern them.

    Python [str] values are sequences of Unicode code points and are
    modelled as [list N]; literals are written as UTF-8 Rocq strings and
    decoded by [Py.u]. *)

From Stdlib Require Import ZArith NArith QArith Qround Floats Ascii String Sorted.
From stdpp Require Import base list gmap sets.

Set Warnings "-inexact-float,-clear-no-such-hyp".

(** * Python string primitives *)

Module Py.

(** A code point and a Python [str]. *)
Abbreviation char := N (only parsing).
Abbreviation str := (list N) (only parsing).

(** ** UTF-8 literals *)

Definition byte_val (a : ascii) : N := N_of_ascii a.

Fixpoint bytes_of_string (s : string) : list N :=
  match s with
  | EmptyString => []
  | String a r => byte_val a :: bytes_of_string r
  end.

(** Decoding of well-formed UTF-8; a stray byte is kept as it is. *)
Fixpoint utf8_decode (bs : list N) : str :=
  match bs with
  | [] => []
  | b0 :: r0 =>
    if (b0 <? 192)%N then b0 :: utf8_decode r0
    else match r0 with
    | [] => [b0]
    | b1 :: r1 =>
      if (b0 <? 224)%N
      then ((b0 - 192) * 64 + (b1 - 128))%N :: utf8_decode r1
      else match r1 with
      | [] => [b0; b1]
      | b2 :: r2 =>
        if (b0 <? 240)%N
        then ((b0 - 224) * 4096 + (b1 - 128) * 64 + (b2 - 128))%N
               :: utf8_decode r2
        else match r2 with
        | [] => [b0; b1; b2]
        | b3 :: r3 =>
          ((b0 - 240) * 262144 + (b1 - 128) * 4096
             + (b2 - 128) * 64 + (b3 - 128))%N :: utf8_decode r3
        end
      end
    end
  end.

Definition u (s : string) : str := utf8_decode (bytes_of_string s).

Definition LF : char := 10%N.
Definition CR : char := 13%N.
Definition QUOTE : char := 34%N.

Definition str_eqb (a b : str) : bool := bool_decide (a = b).

(** ** Whitespace: [str.isspace] on one code point *)

Definition isspace (c : char) : bool :=
  ((9 <=? c) && (c <=? 13) || (28 <=? c) && (c <=? 32)
   || (c =? 133) || (c =? 160) || (c =? 5760)
   || (8192 <=? c) && (c <=? 8202)
   || (c =? 8232) || (c =? 8233) || (c =? 8239) || (c =? 8287)
   || (c =? 12288))%N.

(** [s.lstrip()], [s.rstrip()], [s.strip()], [s.rstrip(chars)] *)

Fixpoint lstrip_by (p : char -> bool) (s : str) : str :=
  match s with
  | [] => []
  | c :: r => if p c then lstrip_by p r else s
  end.

Fixpoint rstrip_by (p : char -> bool) (s : str) : str :=
  match s with
  | [] => []
  | c :: r =>
    match rstrip_by p r with
    | [] => if p c then [] else [c]
    | r' => c :: r'
    end
  end.

Definition strip (s : str) : str := rstrip_by isspace (lstrip_by isspace s).

Definition rstrip_chars (chars : str) (s : str) : str :=
  rstrip_by (fun c => bool_decide (c ∈ chars)) s.

(** Truth value of a string: [bool(s)]. *)
Definition truthy (s : str) : bool :=
  match s with [] => false | _ => true end.

(** ** [s.split(c)] for a one-character separator, and [sep.join(l)] *)

Fixpoint split_char (c : char) (s : str) : list str :=
  match s with
  | [] => [[]]
  | x :: r =>
    if (x =? c)%N then [] :: split_char c r
    else match split_char c r with
         | h :: t => (x :: h) :: t
         | [] => [[x]]
         end
  end.

Fixpoint join (sep : str) (l : list str) : str :=
  match l with
  | [] => []
  | x :: r =>
    match r with
    | [] => x
    | _ => x ++ sep ++ join sep r
    end
  end.

(** ** [s.split()]: maximal runs of non-whitespace *)

Fixpoint split_ws_go (cur : option str) (s : str) : list str :=
  match s with
  | [] => match cur with Some w => [w] | None => [] end
  | c :: r =>
    if isspace c
    then match cur with
         | Some w => w :: split_ws_go None r
         | None => split_ws_go None r
         end
    else match cur with
         | Some w => split_ws_go (Some (w ++ [c])) r
         | None => split_ws_go (Some [c]) r
         end
  end.

Definition split_ws (s : str) : list str := split_ws_go None s.

(** ** Substring tests: [s.startswith(p)] and [p in s] *)

Fixpoint startswith_by (eqc : char -> char -> bool) (p s : str) : bool :=
  match p, s with
  | [], _ => true
  | _ :: _, [] => false
  | a :: p', b :: s' => eqc a b && startswith_by eqc p' s'
  end.

Definition startswith (p s : str) : bool := startswith_by N.eqb p s.

Fixpoint contains_by (eqc : char -> char -> bool) (p s : str) : bool :=
  startswith_by eqc p s
  || match s with
     | [] => false
     | _ :: r => contains_by eqc p r
     end.

(** [p in s] *)
Definition contains (p s : str) : bool := contains_by N.eqb p s.

(** ** [s.split(sep)] for a separator of any positive length: the text
    is cut at the non-overlapping occurrences of [sep], found from the
    left. *)

Fixpoint split_str_go (sep : str) (skip : nat) (cur : str) (s : str)
  : list str :=
  match s with
  | [] => [cur]
  | c :: r =>
    match skip with
    | S k => split_str_go sep k cur r
    | O =>
      if startswith sep s
      then cur :: split_str_go sep (Nat.pred (length sep)) [] r
      else split_str_go sep 0 (cur ++ [c]) r
    end
  end.

Definition split_str (sep s : str) : list str := split_str_go sep 0 [] s.

(** ** Non-overlapping occurrences, scanned from the left

    [re.finditer(re.escape(p), s)] and [s.count(p)]: the start index of
    every match. After a match of a non-empty pattern the scan resumes
    behind it; the empty pattern matches at every position, the end
    included. *)

Fixpoint occurrences_go (eqc : char -> char -> bool) (p : str)
    (skip i : nat) (s : str) : list nat :=
  match s with
  | [] =>
    match p with
    | [] => [i]
    | _ => []
    end
  | _ :: r =>
    match skip with
    | S k => occurrences_go eqc p k (S i) r
    | O =>
      if startswith_by eqc p s
      then i :: occurrences_go eqc p (Nat.pred (length p)) (S i) r
      else occurrences_go eqc p 0 (S i) r
    end
  end.

Definition occurrences_by (eqc : char -> char -> bool) (p s : str)
  : list nat := occurrences_go eqc p 0 0 s.

(** [s.count(p)] *)
Definition count (p s : str) : nat := length (occurrences_by N.eqb p s).

(** ** [s.replace(old, new)] *)

Fixpoint replace_go (old new : str) (skip : nat) (s : str) : str :=
  match s with
  | [] =>
    match old with
    | [] => new
    | _ => []
    end
  | c :: r =>
    match skip with
    | S k => replace_go old new k r
    | O =>
      if startswith old s
      then match old with
           | [] => new ++ c :: replace_go old new 0 r
           | _ => new ++ replace_go old new (Nat.pred (length old)) r
           end
      else c :: replace_go old new 0 r
    end
  end.

Definition replace (old new s : str) : str := replace_go old new 0 s.

(** ** Slices [s[a:b]] with non-negative bounds *)

Definition slice (a b : nat) (s : str) : str := take (b - a) (drop a s).

(** ** [re.split(r'[.!?]+', s)]: pieces between runs of the class *)

Fixpoint re_split_class_go (cls : char -> bool) (cur : str)
    (in_run : bool) (s : str) : list str :=
  match s with
  | [] => [cur]
  | c :: r =>
    if cls c
    then if in_run
         then re_split_class_go cls cur true r
         else cur :: re_split_class_go cls [] true r
    else re_split_class_go cls (cur ++ [c]) false r
  end.

Definition re_split_class (cls : char -> bool) (s : str) : list str :=
  re_split_class_go cls [] false s.

(** ** Decimal rendering of a number: [str(n)] *)

Fixpoint str_of_N_go (fuel : nat) (n : N) (acc : str) : str :=
  match fuel with
  | O => acc
  | S f =>
    let acc' := (48 + n mod 10)%N :: acc in
    if (n / 10 =? 0)%N then acc' else str_of_N_go f (n / 10)%N acc'
  end.

(** A number has no more decimal digits than binary ones. *)
Definition str_of_N (n : N) : str := str_of_N_go (S (N.size_nat n)) n [].

Definition str_of_nat (n : nat) : str := str_of_N (N.of_nat n).

(** ** Case mapping

    [str.lower] and the case-insensitive comparison of [re.IGNORECASE]
    depend on the Unicode tables of the interpreter; the development is
    parametric in them. *)

Record Casing := {
  lower : str -> str;
  ci_eqb : char -> char -> bool
}.

(** The tables restricted to Basic Latin and the Russian alphabet
    (identity elsewhere); used to evaluate the model on concrete texts
    written in these alphabets. *)
Definition lower_cp_basic (c : char) : char :=
  if ((65 <=? c) && (c <=? 90))%N then (c + 32)%N
  else if ((1040 <=? c) && (c <=? 1071))%N then (c + 32)%N
  else if (c =? 1025)%N then 1105%N
  else c.

Definition basic_casing : Casing := {|
  lower := map lower_cp_basic;
  ci_eqb := fun a b => (lower_cp_basic a =? lower_cp_basic b)%N
|}.

End Py.

Import Py.

(** * tools/chapter_splitter.py *)

Module Splitter.

(** The regular expressions of the pattern tables have two shapes:
    [o[^c]*c] (a delimited span) and [lit.*] (a literal, then anything on
    the same line). [re.search] finds the first iff an [o] is followed,
    anywhere later, by a [c], and the second iff the literal occurs. *)
Inductive Pattern :=
  | Delimited (o c : char)
  | LiteralThenAny (lit : str).

Fixpoint search_delimited (eqc : char -> char -> bool) (o c : char)
    (s : str) : bool :=
  match s with
  | [] => false
  | x :: r => eqc o x && existsb (eqc c) r || search_delimited eqc o c r
  end.

(** [re.search(pattern, s)], and with [re.IGNORECASE] when [eqc] is the
    case-insensitive comparison. *)
Definition re_search_by (eqc : char -> char -> bool) (p : Pattern)
    (s : str) : bool :=
  match p with
  | Delimited o c => search_delimited eqc o c s
  | LiteralThenAny lit => contains_by eqc lit s
  end.

Definition re_search (p : Pattern) (s : str) : bool :=
  re_search_by N.eqb p s.

Inductive SegmentType :=
  | empty_line | paragraph | dialogue | description | system.

#[global] Instance SegmentType_eq_dec : EqDecision SegmentType.
Proof. solve_decision. Defined.

Record TextSegment := {
  content : str;
  segment_type : SegmentType;
  line_number : nat;
  character : option str;
  is_dialogue : bool;
  is_system : bool
}.

Definition dialogue_patterns : list Pattern :=
  [ Delimited QUOTE QUOTE;
    Delimited 171%N 187%N;
    Delimited 8212%N 8212%N ].

Definition system_patterns : list Pattern :=
  [ LiteralThenAny (u "Динь!");
    LiteralThenAny (u "Система");
    LiteralThenAny (u "Оповещение");
    LiteralThenAny (u "Получено");
    LiteralThenAny (u "Награда") ].

Definition character_indicators : list str :=
  [ u "Цзян Чэнь"; u "Jiang Chen";
    u "Е Цинчэн"; u "Ye Qingcheng";
    u "Ду Гуюнь"; u "Du Guyun";
    u "Старейшина"; u "Elder" ].

Definition _is_dialogue (line : str) : bool :=
  existsb (fun p => re_search p line) dialogue_patterns.

Definition _is_system (line : str) : bool :=
  existsb (fun p => re_search p line) system_patterns.

Definition _detect_segment_type (line : str) : SegmentType :=
  if negb (truthy (strip line)) then empty_line
  else if existsb (fun p => re_search p line) dialogue_patterns then dialogue
  else if existsb (fun p => re_search p line) system_patterns then system
  else description.

Definition _detect_character (line : str) : option str :=
  List.find (fun indicator => contains indicator line) character_indicators.

(** The body of the loop of [split_by_lines] for line number [i]. *)
Definition segment_of_line (i : nat) (original_line : str) : TextSegment :=
  let line := rstrip_chars [CR] original_line in
  if negb (truthy (strip line)) || str_eqb line [LF]
  then {| content := []; segment_type := empty_line; line_number := i;
          character := None; is_dialogue := false; is_system := false |}
  else {| content := line;
          segment_type := _detect_segment_type line;
          line_number := i;
          character := _detect_character line;
          is_dialogue := _is_dialogue line;
          is_system := _is_system line |}.

(** [for i, line in enumerate(lines, start)] *)
Fixpoint enumerate_from {A} (start : nat) (l : list A) : list (nat * A) :=
  match l with
  | [] => []
  | x :: r => (start, x) :: enumerate_from (S start) r
  end.

Definition split_by_lines (text : str) : list TextSegment :=
  map (fun '(i, line) => segment_of_line i line)
      (enumerate_from 1 (split_char LF text)).

(** Reassembly of a segment sequence into text, the way [translate_file]
    joins its per-line results: one line per segment, an [empty_line]
    segment giving a blank line and any other segment its content. *)
Definition emit (seg : TextSegment) : str :=
  match segment_type seg with
  | empty_line => []
  | _ => content seg
  end.

Definition reassemble (segments : list TextSegment) : str :=
  join [LF] (map emit segments).

(** ** The paragraph mode *)

Definition split_by_paragraphs (text : str) : list str :=
  map strip
    (List.filter (fun p => truthy (strip p)) (split_str [LF; LF] text)).

Record TranslationUnit := {
  unit_segments : list TextSegment;
  total_length : nat;
  unit_text : str
}.

(** What [validate_structure] returns; [match_percentage] is kept as the
    exact quotient. *)
Record StructureReport := {
  original_segments : nat;
  translated_segments : nat;
  structure_match : bool;
  missing_segments : Z;
  extra_segments : Z;
  match_percentage : Q
}.

Section WithCasing.

Variable cs : Casing.

Definition _analyze_segment (text : str) (line_number : nat) : TextSegment :=
  let is_dialogue := existsb (fun p => re_search p text) dialogue_patterns in
  let is_system :=
    existsb (fun p => re_search_by (ci_eqb cs) p text) system_patterns in
  let segment_type := if is_dialogue then dialogue else description in
  let segment_type := if is_system then system else segment_type in
  {| content := text;
     segment_type := segment_type;
     line_number := line_number;
     character :=
       List.find (fun indicator => contains indicator text)
         character_indicators;
     is_dialogue := is_dialogue;
     is_system := is_system |}.

(** The segment that closes the paragraph collected so far, if any. *)
Definition flush_paragraph (current_paragraph : list str)
    (paragraph_start_line : nat) : list TextSegment :=
  match current_paragraph with
  | [] => []
  | _ => [_analyze_segment (join [LF] current_paragraph) paragraph_start_line]
  end.

(** The loop of [create_segments] over the numbered lines. *)
Fixpoint create_segments_go (current_paragraph : list str)
    (paragraph_start_line : nat) (lines : list (nat * str))
  : list TextSegment :=
  match lines with
  | [] => flush_paragraph current_paragraph paragraph_start_line
  | (i, line) :: rest =>
    let line := strip line in
    if negb (truthy line)
    then flush_paragraph current_paragraph paragraph_start_line
         ++ create_segments_go [] paragraph_start_line rest
    else
      let paragraph_start_line :=
        match current_paragraph with
        | [] => i
        | _ => paragraph_start_line
        end in
      create_segments_go (current_paragraph ++ [line]) paragraph_start_line
        rest
  end.

Definition create_segments (text : str) : list TextSegment :=
  create_segments_go [] 1 (enumerate_from 1 (split_char LF text)).

Definition make_unit (current_unit : list TextSegment)
    (current_length : nat) : TranslationUnit :=
  {| unit_segments := current_unit;
     total_length := current_length;
     unit_text := join [LF; LF] (map content current_unit) |}.

(** The loop of [split_for_translation] over the segments. *)
Fixpoint split_units_go (max_length : nat) (current_unit : list TextSegment)
    (current_length : nat) (segments : list TextSegment)
  : list TranslationUnit :=
  match segments with
  | [] =>
    match current_unit with
    | [] => []
    | _ => [make_unit current_unit current_length]
    end
  | segment :: rest =>
    let segment_length := length (content segment) in
    if (max_length <? current_length + segment_length)%nat
       && match current_unit with [] => false | _ => true end
    then make_unit current_unit current_length
         :: split_units_go max_length [segment] segment_length rest
    else split_units_go max_length (current_unit ++ [segment])
           (current_length + segment_length) rest
  end.

Definition split_for_translation (text : str) (max_length : nat)
  : list TranslationUnit :=
  split_units_go max_length [] 0 (create_segments text).

Definition get_dialogue_segments (text : str) : list TextSegment :=
  List.filter is_dialogue (create_segments text).

Definition get_system_segments (text : str) : list TextSegment :=
  List.filter is_system (create_segments text).

Definition get_character_segments (text character_name : str)
  : list TextSegment :=
  List.filter (fun s => bool_decide (character s = Some character_name))
    (create_segments text).

Definition validate_structure (original_text translated_text : str)
  : StructureReport :=
  let o := length (create_segments original_text) in
  let t := length (create_segments translated_text) in
  {| original_segments := o;
     translated_segments := t;
     structure_match := (o =? t)%nat;
     missing_segments := (Z.of_nat o - Z.of_nat t)%Z;
     extra_segments := (Z.of_nat t - Z.of_nat o)%Z;
     match_percentage :=
       if (0 <? Nat.max o t)%nat
       then (inject_Z (Z.of_nat (Nat.min o t))
               / inject_Z (Z.of_nat (Nat.max o t)) * 100)%Q
       else 100%Q |}.

End WithCasing.

End Splitter.

(** * tools/character_detector.py *)

Module Detector.

Import Splitter.

Inductive CharacterType :=
  | JIANG_CHEN | YE_QINGCHENG | DU_GUYUN | ELDER | SYSTEM | NARRATOR | UNKNOWN.

#[global] Instance CharacterType_eq_dec : EqDecision CharacterType.
Proof. solve_decision. Defined.

(** [character_type.value] *)
Definition value (c : CharacterType) : str :=
  match c with
  | JIANG_CHEN => u "Jiang_Chen"
  | YE_QINGCHENG => u "Ye_Qingcheng"
  | DU_GUYUN => u "Du_Guyun"
  | ELDER => u "Elder"
  | SYSTEM => u "System"
  | NARRATOR => u "Narrator"
  | UNKNOWN => u "Unknown"
  end.

Record CharacterProfile := {
  name : str;
  character_type : CharacterType;
  speech_patterns : list str;
  thought_patterns : list str;
  keywords : list str;
  style_preferences : list (str * str);
  avoid_words : list str;
  prefer_words : list str
}.

(** [self.character_profiles]: a dict in insertion order. *)
Definition Profiles := list (CharacterType * CharacterProfile).

(** [self.name_patterns], in insertion order. *)
Definition name_patterns : list (str * CharacterType) :=
  [ (u "Цзян Чэнь", JIANG_CHEN); (u "Jiang Chen", JIANG_CHEN);
    (u "цзян чэнь", JIANG_CHEN); (u "jiang chen", JIANG_CHEN);
    (u "Е Цинчэн", YE_QINGCHENG); (u "Ye Qingcheng", YE_QINGCHENG);
    (u "е цинчэн", YE_QINGCHENG); (u "ye qingcheng", YE_QINGCHENG);
    (u "Ду Гуюнь", DU_GUYUN); (u "Du Guyun", DU_GUYUN);
    (u "ду гуюнь", DU_GUYUN); (u "du guyun", DU_GUYUN);
    (u "Старейшина", ELDER); (u "Elder", ELDER);
    (u "старейшина", ELDER); (u "elder", ELDER) ].

Definition system_patterns : list Pattern :=
  [ LiteralThenAny (u "Динь!");
    LiteralThenAny (u "Система");
    LiteralThenAny (u "Оповещение");
    LiteralThenAny (u "Получено");
    LiteralThenAny (u "Награда");
    LiteralThenAny (u "System");
    LiteralThenAny (u "Notification") ].

Definition _create_default_profiles : Profiles :=
  [ (JIANG_CHEN,
     {| name := u "Цзян Чэнь"; character_type := JIANG_CHEN;
        speech_patterns := [u "Дай мне"; u "Можешь"; u "Хочу"];
        thought_patterns := [u "Серьёзно?"; u "Блин"; u "Да ну нафиг"];
        keywords := [u "безделье"; u "система"; u "награда"];
        style_preferences := [(u "style", u "modern_casual")];
        avoid_words := [u "сей"; u "дабы"; u "ибо"; u "весьма"];
        prefer_words := [u "круто"; u "реально"; u "мощный"] |});
    (YE_QINGCHENG,
     {| name := u "Е Цинчэн"; character_type := YE_QINGCHENG;
        speech_patterns := [u "Позвольте"; u "Не могли бы вы"; u "Я хотела бы"];
        thought_patterns := [u "Неужели"; u "Должна ли я"];
        keywords := [u "элегантность"; u "красота"; u "достоинство"];
        style_preferences := [(u "style", u "elegant_modern")];
        avoid_words := [u "сей"; u "дабы"; u "ибо"; u "весьма"];
        prefer_words := [u "действительно"; u "очень"; u "прекрасно"] |});
    (SYSTEM,
     {| name := u "Система"; character_type := SYSTEM;
        speech_patterns := [u "Динь!"; u "Получено"; u "Награда"];
        thought_patterns := [];
        keywords := [u "система"; u "награда"; u "уведомление"];
        style_preferences := [(u "style", u "game_like")];
        avoid_words := [];
        prefer_words := [u "Динь!"; u "Награда получена!"] |}) ].

(** [_load_character_profiles]: [loaded] is the content of the profiles
    file, [None] when reading or parsing it raises. *)
Definition _load_character_profiles (loaded : option Profiles) : Profiles :=
  match loaded with
  | Some profiles => profiles
  | None => _create_default_profiles
  end.

Section WithProfiles.

Variable cs : Casing.
Variable character_profiles : Profiles.

(** The scores and confidences of the detector are binary64 floats, as
    in the interpreter: 0.2 + 0.2 - 0.1 is not 0.3. *)
Open Scope float_scope.

(** [for word in words: if word.lower() in text.lower(): score = step(score)] *)
Definition score_words (step : float -> float) (text : str)
    (words : list str) (score : float) : float :=
  fold_left
    (fun score word =>
       if contains (lower cs word) (lower cs text)
       then step score else score)
    words score.

Definition profile_style_score (text : str) (profile : CharacterProfile)
  : float :=
  let score := 0.0 in
  let score :=
    score_words (fun score => score + 0.2) text (prefer_words profile) score in
  let score :=
    score_words (fun score => score - 0.1) text (avoid_words profile) score in
  let score :=
    score_words (fun score => score + 0.3) text (speech_patterns profile)
      score in
  score.

Definition _analyze_speech_style (text : str)
  : option (CharacterType * float) :=
  let '(best_match, best_score) :=
    fold_left
      (fun '(best_match, best_score) '(char_type, profile) =>
         let score := profile_style_score text profile in
         if PrimFloat.ltb best_score score
         then (Some char_type, score)
         else (best_match, best_score))
      character_profiles (None, 0.0) in
  match best_match with
  | Some m => if PrimFloat.ltb 0.3 best_score then Some (m, best_score)
              else None
  | None => None
  end.

Definition keyword_hits (text_lower : str) (profile : CharacterProfile)
  : nat :=
  fold_left
    (fun score keyword =>
       if contains (lower cs keyword) text_lower then S score else score)
    (keywords profile) 0%nat.

(** [keyword_scores[char_type] = score] on an insertion-ordered dict. *)
Fixpoint dict_set {V} (k : CharacterType) (v : V)
    (d : list (CharacterType * V)) : list (CharacterType * V) :=
  match d with
  | [] => [(k, v)]
  | (k', v') :: r =>
    if decide (k = k') then (k, v) :: r else (k', v') :: dict_set k v r
  end.

(** [max(d, key=d.get)]: the first key with the greatest value. *)
Fixpoint max_key (best : CharacterType * nat)
    (d : list (CharacterType * nat)) : CharacterType * nat :=
  match d with
  | [] => best
  | (k, v) :: r =>
    if (snd best <? v)%nat then max_key (k, v) r else max_key best r
  end.

Definition float_of_nat (n : nat) : float :=
  PrimFloat.of_uint63 (Uint63.of_Z (Z.of_nat n)).

(** [min(a, b)] of Python: [b] when [b < a], else [a]. *)
Definition py_min (a b : float) : float :=
  if PrimFloat.ltb b a then b else a.

Definition _analyze_keywords (text : str) : option (CharacterType * float) :=
  let text_lower := lower cs text in
  let keyword_scores :=
    fold_left
      (fun d '(char_type, profile) =>
         dict_set char_type (keyword_hits text_lower profile) d)
      character_profiles [] in
  match keyword_scores with
  | [] => None
  | first :: rest =>
    let '(best_type, best_score) := max_key first rest in
    if (0 <? best_score)%nat
    then Some (best_type, py_min 0.8 (float_of_nat best_score * 0.2))
    else None
  end.

Definition detect_character_from_text (text : str) : CharacterType * float :=
  match List.find (fun '(name, _) => contains name text) name_patterns with
  | Some (_, char_type) => (char_type, 1.0)
  | None =>
    if existsb (fun p => re_search_by (ci_eqb cs) p text) system_patterns
    then (SYSTEM, 0.9)
    else match _analyze_speech_style text with
    | Some style_analysis => style_analysis
    | None =>
      match _analyze_keywords text with
      | Some keyword_analysis => keyword_analysis
      | None => (UNKNOWN, 0.0)
      end
    end
  end.

(** [re.sub(r'[...]', '', s)]: the characters of the class removed. *)
Definition remove_chars (chars : str) (s : str) : str :=
  List.filter (fun c => negb (bool_decide (c ∈ chars))) s.

Definition dialogue_marks : str := [QUOTE; 171; 187; 8212]%N.

Definition thought_marks : str := u "[]()".

Definition detect_character_from_dialogue (dialogue : str)
  : CharacterType * float :=
  let clean_dialogue := strip (remove_chars dialogue_marks dialogue) in
  detect_character_from_text clean_dialogue.

Definition detect_character_from_thoughts (thoughts : str)
  : CharacterType * float :=
  let clean_thoughts := strip (remove_chars thought_marks thoughts) in
  detect_character_from_text clean_thoughts.

Definition get_character_avoid_words (c : CharacterType) : list str :=
  match List.find (fun '(k, _) => bool_decide (k = c)) character_profiles with
  | Some (_, profile) => avoid_words profile
  | None => []
  end.

Definition get_character_prefer_words (c : CharacterType) : list str :=
  match List.find (fun '(k, _) => bool_decide (k = c)) character_profiles with
  | Some (_, profile) => prefer_words profile
  | None => []
  end.

End WithProfiles.

End Detector.

(** * A state monad for the stateful objects *)

Module StateM.

Definition M (S A : Type) : Type := S -> A * S.

Definition ret {S A} (a : A) : M S A := fun s => (a, s).

Definition bind {S A B} (m : M S A) (k : A -> M S B) : M S B :=
  fun s => let '(a, s') := m s in k a s'.

Definition get {S} : M S S := fun s => (s, s).
Definition put {S} (s : S) : M S unit := fun _ => (tt, s).
Definition modify {S} (f : S -> S) : M S unit := fun s => (tt, f s).

(** Run a computation on a component of the state. *)
Definition zoom {S T A} (proj : S -> T) (upd : T -> S -> S) (m : M T A)
  : M S A :=
  fun s => let '(a, t) := m (proj s) in (a, upd t s).

(** [for x in l: body(x)], collecting the results. *)
Fixpoint for_each {S A B} (l : list A) (body : A -> M S B) : M S (list B) :=
  match l with
  | [] => ret []
  | x :: r =>
    bind (body x) (fun y => bind (for_each r body) (fun ys => ret (y :: ys)))
  end.

End StateM.

Import StateM.

Notation "'do' x <- m ; k" := (bind m (fun x => k))
  (at level 10, x name, m at level 100, k at level 200,
   format "'[v' 'do'  x  <-  m ; '/' k ']'").
Notation "'do_' m ; k" := (bind m (fun _ => k))
  (at level 10, m at level 100, k at level 200,
   format "'[v' 'do_'  m ; '/' k ']'").

(** * The clock

    [datetime.now()] is an input of the run: [clock n] is the time, in
    seconds, returned by the read number [n]; [isoformat] renders it. *)

Module Clock.

Record Time := {
  clock : nat -> Z;
  isoformat : Z -> str;
  fromisoformat : str -> option Z
}.

Definition now (tm : Time) : M nat Z :=
  fun ticks => (clock tm ticks, S ticks).

Definition now_iso (tm : Time) : M nat str :=
  do t <- now tm; ret (isoformat tm t).

End Clock.

Import Clock.

(** * tools/context_manager.py *)

Module Memory.

Record TranslationMemory := {
  source_text : str;
  target_text : str;
  chapter : str;
  character : option str;
  context : option str;
  quality_score : option Q;
  timestamp : option str
}.

(** One entry of the JSON list kept in [self.memory_file]. *)
Record TranslationData := {
  td_id : str;
  td_source_text : str;
  td_target_text : str;
  td_chapter : str;
  td_character : option str;
  td_context : option str;
  td_quality_score : option Q;
  td_timestamp : str
}.

(** One entry of the list returned by [find_similar]. *)
Record Similar := {
  sim_source_text : str;
  sim_target_text : str;
  sim_chapter : str;
  sim_character : option str;
  similarity : Q;
  sim_context : option str
}.

(** The reference base [translation_memory.json]: a JSON object whose
    sections may be absent; objects keep their key order. *)
Record TranslationErrors := {
  forbidden_words : option (list str);
  preferred_alternatives : option (list (str * str))
}.

Record StyleRules := {
  examples : option (list (str * str))
}.

Record ReferenceData := {
  phrase_translations : option (list (str * list (str * str)));
  glossary_terms : option (list (str * list (str * str)));
  translation_errors : option TranslationErrors;
  contextual_style_rules : option (list (str * StyleRules))
}.

(** [d[k]] / [k in d] on a JSON object. *)
Definition dict_get {V} (k : str) (d : list (str * V)) : option V :=
  match List.find (fun '(k', _) => str_eqb k k') d with
  | Some (_, v) => Some v
  | None => None
  end.

(** The state of the manager with the file backend ([self.collection] is
    [None]): the content of [self.memory_file], [None] when the file
    cannot be opened or parsed, and the number of clock reads so far. *)
Record Store := {
  memory_file : option (list TranslationData);
  ticks : nat
}.

Definition set_memory_file (f : option (list TranslationData)) (st : Store)
  : Store := {| memory_file := f; ticks := ticks st |}.

Definition set_ticks (t : nat) (st : Store) : Store :=
  {| memory_file := memory_file st; ticks := t |}.

Section WithEnv.

Variable cs : Casing.
Variable tm : Time.
(** [hashlib.md5(s.encode()).hexdigest()] *)
Variable md5_hexdigest : str -> str.

(** [memory.timestamp or datetime.now().isoformat()] *)
Definition timestamp_or_now (ts : option str) : M Store str :=
  match ts with
  | Some (c :: r) => ret (c :: r)
  | _ => zoom ticks set_ticks (now_iso tm)
  end.

Definition _add_to_file_system (memory : TranslationMemory) : M Store str :=
  do st <- get;
  match memory_file st with
  | None => ret []
  | Some data =>
    let memory_id :=
      md5_hexdigest (source_text memory ++ u "_" ++ chapter memory) in
    do ts <- timestamp_or_now (timestamp memory);
    let translation_data :=
      {| td_id := memory_id;
         td_source_text := source_text memory;
         td_target_text := target_text memory;
         td_chapter := chapter memory;
         td_character := character memory;
         td_context := context memory;
         td_quality_score := quality_score memory;
         td_timestamp := ts |} in
    do_ modify (set_memory_file (Some (data ++ [translation_data])));
    ret memory_id
  end.

Definition add_translation (memory : TranslationMemory) : M Store str :=
  _add_to_file_system memory.

(** [set(text.lower().split())] *)
Definition word_set (text : str) : gset str :=
  list_to_set (split_ws (lower cs text)).

(** [len(a.intersection(b)) / len(a.union(b))], kept as the exact
    quotient; Python rounds it to binary64. *)
Definition jaccard (a b : gset str) : Q :=
  Z.of_nat (size (a ∩ b)) # Pos.of_nat (size (a ∪ b)).

(** [not s] on a set *)
Definition set_nonempty (s : gset str) : bool := negb (size s =? 0)%nat.

(** Stable sort, greatest similarity first:
    [l.sort(key=lambda x: x['similarity'], reverse=True)]. *)
Fixpoint insert_desc (x : Similar) (l : list Similar) : list Similar :=
  match l with
  | [] => [x]
  | y :: r =>
    if Qle_bool (similarity y) (similarity x) then x :: l
    else y :: insert_desc x r
  end.

Definition sort_desc (l : list Similar) : list Similar :=
  fold_right insert_desc [] l.

Definition similar_of (text : str) (threshold : Q) (item : TranslationData)
  : option Similar :=
  let source_words := word_set text in
  let item_words := word_set (td_source_text item) in
  if set_nonempty source_words && set_nonempty item_words
  then
    let sim := jaccard source_words item_words in
    if Qle_bool threshold sim
    then Some {| sim_source_text := td_source_text item;
                 sim_target_text := td_target_text item;
                 sim_chapter := td_chapter item;
                 sim_character := td_character item;
                 similarity := sim;
                 sim_context := td_context item |}
    else None
  else None.

Definition _find_similar_file_system (text : str) (threshold : Q)
    (max_results : nat) (st : Store) : list Similar :=
  match memory_file st with
  | None => []
  | Some data =>
    take max_results (sort_desc (omap (similar_of text threshold) data))
  end.

Definition find_similar (text : str) (threshold : Q) (max_results : nat)
    (st : Store) : list Similar :=
  _find_similar_file_system text threshold max_results st.

(** The file branch of [get_chapter_context]. *)
Definition get_chapter_context (chapter : str) (st : Store)
  : list TranslationData :=
  match memory_file st with
  | None => []
  | Some data =>
    List.filter (fun item => str_eqb (td_chapter item) chapter) data
  end.

(** The file branch of [get_statistics]; [None] is the answer given when
    the file cannot be read, which carries no counts but a zero total. *)
Record Statistics := {
  total_translations : nat;
  chapters : nat;
  characters : nat
}.

Definition truthy_characters (data : list TranslationData) : list str :=
  omap (fun item =>
          match td_character item with
          | Some (c :: r) => Some (c :: r)
          | _ => None
          end) data.

Definition get_statistics (st : Store) : option Statistics :=
  match memory_file st with
  | None => None
  | Some data =>
    Some {| total_translations := length data;
            chapters :=
              size (list_to_set (map td_chapter data) : gset str);
            characters :=
              size (list_to_set (truthy_characters data) : gset str) |}
  end.

Variable reference_data : ReferenceData.

Definition get_phrase_translation (text : str) (chapter : option str)
  : option str :=
  match phrase_translations reference_data with
  | None => None
  | Some phrase_translations =>
    match omap (fun '(_, phrases) => dict_get text phrases)
               phrase_translations with
    | translation :: _ => Some translation
    | [] =>
      match List.find
              (fun '(phrase, _) =>
                 contains (lower cs text) (lower cs phrase)
                 || contains (lower cs phrase) (lower cs text))
              (concat (map snd phrase_translations)) with
      | Some (_, translation) => Some translation
      | None => None
      end
    end
  end.

Definition get_glossary_term (term : str) : option str :=
  match glossary_terms reference_data with
  | None => None
  | Some glossary =>
    match omap (fun '(_, terms) => dict_get term terms) glossary with
    | t :: _ => Some t
    | [] => None
    end
  end.

Definition get_forbidden_words : list str :=
  match translation_errors reference_data with
  | None => []
  | Some errors => default [] (forbidden_words errors)
  end.

(** [style_rules.get(f"{character}_thoughts", {})]; the empty dict is
    rendered by [None]. *)
Definition get_character_style (character : str) : option StyleRules :=
  match contextual_style_rules reference_data with
  | None => None
  | Some style_rules => dict_get (character ++ u "_thoughts") style_rules
  end.

Definition get_system_style : option StyleRules :=
  match contextual_style_rules reference_data with
  | None => None
  | Some style_rules => dict_get (u "system_notifications") style_rules
  end.

End WithEnv.

End Memory.

(** * tools/deepl_cache.py *)

Module DeepL.

Record CacheEntry := {
  original_text : str;
  translation : str;
  source_lang : str;
  target_lang : str;
  timestamp : str;
  text_length : nat
}.

Record Stats := {
  hits : nat;
  misses : nat;
  total_requests : nat;
  cache_size : nat
}.

(** What [_save_cache] writes to [translations.json]. *)
Record CacheFile := {
  saved_cache : gmap str CacheEntry;
  last_updated : str;
  saved_stats : Stats
}.

(** The state of a [CachedDeepLTranslator]: its [DeepLCache], the file
    behind it, the number of requests sent to the service so far and the
    number of clock reads so far. *)
Record CacheState := {
  cache : gmap str CacheEntry;
  stats : Stats;
  cache_file : option CacheFile;
  api_calls : nat;
  ticks : nat
}.

Definition set_cache (c : gmap str CacheEntry) (st : CacheState) :=
  {| cache := c; stats := stats st; cache_file := cache_file st;
     api_calls := api_calls st; ticks := ticks st |}.

Definition set_stats (s : Stats) (st : CacheState) :=
  {| cache := cache st; stats := s; cache_file := cache_file st;
     api_calls := api_calls st; ticks := ticks st |}.

Definition set_cache_file (f : option CacheFile) (st : CacheState) :=
  {| cache := cache st; stats := stats st; cache_file := f;
     api_calls := api_calls st; ticks := ticks st |}.

Definition set_api_calls (n : nat) (st : CacheState) :=
  {| cache := cache st; stats := stats st; cache_file := cache_file st;
     api_calls := n; ticks := ticks st |}.

Definition set_ticks (t : nat) (st : CacheState) :=
  {| cache := cache st; stats := stats st; cache_file := cache_file st;
     api_calls := api_calls st; ticks := t |}.

Section WithEnv.

Variable tm : Time.
Variable md5_hexdigest : str -> str.

(** [DeepLFileTranslator.translate_text(text, source_lang, target_lang)]:
    the answer of the external service to request number [n], [None] when
    the call raises (HTTP error, network error, malformed response). *)
Variable translate_api : nat -> str -> str -> str -> option str.

Variable max_age_hours : Z.

(** [self.translator] is [None] when the import of the translator fails. *)
Variable translator_available : bool.

Definition _generate_key (text source_lang target_lang : str) : str :=
  md5_hexdigest (text ++ u "|" ++ source_lang ++ u "|" ++ target_lang).

Definition _is_expired (timestamp : str) : M CacheState bool :=
  match fromisoformat tm timestamp with
  | None => ret true
  | Some cache_time =>
    let expiry_time := (cache_time + 3600 * max_age_hours)%Z in
    do t <- zoom ticks set_ticks (now tm);
    ret (expiry_time <? t)%Z
  end.

Definition _save_cache : M CacheState unit :=
  do ts <- zoom ticks set_ticks (now_iso tm);
  modify (fun st =>
    set_cache_file
      (Some {| saved_cache := cache st; last_updated := ts;
               saved_stats := stats st |}) st).

Definition bump_total (s : Stats) : Stats :=
  {| hits := hits s; misses := misses s;
     total_requests := S (total_requests s); cache_size := cache_size s |}.

Definition bump_hits (s : Stats) : Stats :=
  {| hits := S (hits s); misses := misses s;
     total_requests := total_requests s; cache_size := cache_size s |}.

Definition bump_misses (s : Stats) : Stats :=
  {| hits := hits s; misses := S (misses s);
     total_requests := total_requests s; cache_size := cache_size s |}.

Definition with_cache_size (n : nat) (s : Stats) : Stats :=
  {| hits := hits s; misses := misses s;
     total_requests := total_requests s; cache_size := n |}.

Definition miss : M CacheState (option str) :=
  do_ modify (fun st => set_stats (bump_misses (stats st)) st);
  ret None.

(** [DeepLCache.get] *)
Definition cache_get (text source_lang target_lang : str)
  : M CacheState (option str) :=
  let key := _generate_key text source_lang target_lang in
  do_ modify (fun st => set_stats (bump_total (stats st)) st);
  do st <- get;
  match cache st !! key with
  | Some cache_entry =>
    do expired <- _is_expired (timestamp cache_entry);
    if negb expired
    then do_ modify (fun st => set_stats (bump_hits (stats st)) st);
         ret (Some (translation cache_entry))
    else do_ modify (fun st => set_cache (delete key (cache st)) st);
         miss
  | None => miss
  end.

(** [DeepLCache.set] *)
Definition cache_set (text translation source_lang target_lang : str)
  : M CacheState unit :=
  let key := _generate_key text source_lang target_lang in
  do ts <- zoom ticks set_ticks (now_iso tm);
  do_ modify (fun st =>
    set_cache
      (<[key := {| original_text := text; translation := translation;
                   source_lang := source_lang; target_lang := target_lang;
                   timestamp := ts; text_length := length text |}]>
         (cache st)) st);
  do_ modify (fun st =>
    set_stats (with_cache_size (size (cache st)) (stats st)) st);
  do st <- get;
  if (size (cache st) mod 10 =? 0)%nat then _save_cache else ret tt.

(** [translate_func(text)]: one request to the service. *)
Definition translate_func (text source_lang target_lang : str)
  : M CacheState (option str) :=
  do st <- get;
  do_ put (set_api_calls (S (api_calls st)) st);
  ret (translate_api (api_calls st) text source_lang target_lang).

Definition get_or_translate (text source_lang target_lang : str)
  : M CacheState str :=
  do cached_translation <- cache_get text source_lang target_lang;
  match cached_translation with
  | Some (c :: r) => ret (c :: r)
  | _ =>
    do answer <- translate_func text source_lang target_lang;
    match answer with
    | Some translation =>
      do_ cache_set text translation source_lang target_lang;
      ret translation
    | None => ret text
    end
  end.

(** [translate_func(texts)] for a list of texts: one request; the
    service answers with a list of translations or the call raises. *)
Variable translate_many_api :
  nat -> list str -> str -> str -> option (list str).

Definition translate_many (texts : list str) (source_lang target_lang : str)
  : M CacheState (option (list str)) :=
  do st <- get;
  do_ put (set_api_calls (S (api_calls st)) st);
  ret (translate_many_api (api_calls st) texts source_lang target_lang).

(** The first loop of [batch_get_or_translate]: the cached translations,
    with [None] as the placeholder of the others. *)
Definition lookup_all (texts : list str) (source_lang target_lang : str)
  : M CacheState (list (option str)) :=
  for_each texts
    (fun text =>
       do cached <- cache_get text source_lang target_lang;
       match cached with
       | Some (c :: r) => ret (Some (c :: r))
       | _ => ret None
       end).

(** [results[i] = v]; the index is always inside the list here. *)
Definition set_at (i : nat) (v : str) (results : list (option str))
  : list (option str) := <[i := Some v]> results.

(** The loop over [enumerate(translations)]: [None] when
    [indices_to_translate[i]] raises [IndexError], with the state
    reached by then. *)
Fixpoint store_translations (source_lang target_lang : str)
    (translations : list str) (pending : list (nat * str))
    (results : list (option str))
  : M CacheState (option (list (option str)) * list (option str)) :=
  match translations with
  | [] => ret (Some results, results)
  | translation :: more =>
    match pending with
    | [] => ret (None, results)
    | (original_index, original_text) :: pending' =>
      let results := set_at original_index translation results in
      do_ cache_set original_text translation source_lang target_lang;
      store_translations source_lang target_lang more pending' results
    end
  end.

(** The fallback loop: the texts that still have no result stand for
    themselves. *)
Definition fill_missing (texts : list str) (indices : list nat)
    (results : list (option str)) : list (option str) :=
  fold_left
    (fun results original_index =>
       match results !! original_index, texts !! original_index with
       | Some None, Some t => <[original_index := Some t]> results
       | _, _ => results
       end)
    indices results.

Definition batch_get_or_translate (texts : list str)
    (source_lang target_lang : str) : M CacheState (list (option str)) :=
  do results <- lookup_all texts source_lang target_lang;
  let pending :=
    omap (fun '(i, (text, r)) =>
            match r with
            | None => Some (i, text)
            | Some _ => None
            end)
      (Splitter.enumerate_from 0 (zip texts results)) in
  match pending with
  | [] => ret results
  | _ =>
    do answer <- translate_many (map snd pending) source_lang target_lang;
    match answer with
    | None => ret (fill_missing texts (map fst pending) results)
    | Some translations =>
      do stored <-
        store_translations source_lang target_lang translations pending
          results;
      match stored with
      | (Some results, _) => ret results
      | (None, results) => ret (fill_missing texts (map fst pending) results)
      end
    end
  end.

Definition clear_all : M CacheState unit :=
  modify (fun st => set_stats (with_cache_size 0 (stats st)) (set_cache ∅ st)).

(** [CachedDeepLTranslator.translate_text], with its default languages. *)
Definition translate_text (text : str) : M CacheState str :=
  if negb translator_available then ret text
  else get_or_translate text (u "EN") (u "RU").

(** [CachedDeepLTranslator.translate_fragments], with its default
    languages. *)
Definition translate_fragments (fragments : list str)
  : M CacheState (list (option str)) :=
  if negb translator_available then ret (map Some fragments)
  else batch_get_or_translate fragments (u "EN") (u "RU").

End WithEnv.

End DeepL.

(** * tools/chapter_translator.py *)

Module Translator.

Import Splitter.

Record TranslationContext := {
  chapter_number : str;
  previous_chapters : list str;
  main_characters : list str;
  current_scene : str;
  emotional_tone : str;
  translation_style : str
}.

(** [confidence] and [quality_score] are floats; the model keeps the
    rational each one denotes. *)
Record TranslationResult := {
  original_text : str;
  translated_text : str;
  translator : str;
  confidence : Q;
  context_used : bool;
  memory_hit : bool;
  quality_score : Q;
  timestamp : str
}.

(** The mutable state reachable from a [ChapterTranslator]:
    [self.translation_cache], the store of [self.memory_manager], the
    cache of [self.cached_translator], and the counters of the requests
    sent and of the clock reads. *)
Record State := {
  translation_cache : gmap str (str * Q);
  memory_file : option (list Memory.TranslationData);
  deepl_cache : gmap str DeepL.CacheEntry;
  deepl_stats : DeepL.Stats;
  deepl_cache_file : option DeepL.CacheFile;
  api_calls : nat;
  ticks : nat
}.

Definition set_translation_cache (c : gmap str (str * Q)) (st : State) :=
  {| translation_cache := c; memory_file := memory_file st;
     deepl_cache := deepl_cache st; deepl_stats := deepl_stats st;
     deepl_cache_file := deepl_cache_file st; api_calls := api_calls st;
     ticks := ticks st |}.

Definition set_ticks (t : nat) (st : State) :=
  {| translation_cache := translation_cache st;
     memory_file := memory_file st;
     deepl_cache := deepl_cache st; deepl_stats := deepl_stats st;
     deepl_cache_file := deepl_cache_file st; api_calls := api_calls st;
     ticks := t |}.

Definition store_of (st : State) : Memory.Store :=
  {| Memory.memory_file := memory_file st; Memory.ticks := ticks st |}.

Definition set_store (m : Memory.Store) (st : State) :=
  {| translation_cache := translation_cache st;
     memory_file := Memory.memory_file m;
     deepl_cache := deepl_cache st; deepl_stats := deepl_stats st;
     deepl_cache_file := deepl_cache_file st; api_calls := api_calls st;
     ticks := Memory.ticks m |}.

Definition deepl_of (st : State) : DeepL.CacheState :=
  {| DeepL.cache := deepl_cache st; DeepL.stats := deepl_stats st;
     DeepL.cache_file := deepl_cache_file st;
     DeepL.api_calls := api_calls st; DeepL.ticks := ticks st |}.

Definition set_deepl (d : DeepL.CacheState) (st : State) :=
  {| translation_cache := translation_cache st;
     memory_file := memory_file st;
     deepl_cache := DeepL.cache d; deepl_stats := DeepL.stats d;
     deepl_cache_file := DeepL.cache_file d;
     api_calls := DeepL.api_calls d; ticks := DeepL.ticks d |}.

(** What a [ChapterTranslator] is built from and runs against. *)
Record Env := {
  cs : Casing;
  tm : Time;
  md5_hexdigest : str -> str;
  translate_api : nat -> str -> str -> str -> option str;
  max_age_hours : Z;
  translator_available : bool;
  reference_data : Memory.ReferenceData;
  character_profiles : Detector.Profiles;
  (** [TRANSLATION_MEMORY["similarity_threshold"]] of [config.py] *)
  similarity_threshold : Q
}.

Section WithEnv.

Variable env : Env.

Definition detect (text : str) : Detector.CharacterType * float :=
  Detector.detect_character_from_text (cs env) (character_profiles env) text.

(** The score is a float that starts at 80.0 and moves by whole steps;
    it is kept as the integer it denotes. *)
Definition _calculate_quality_score (text : str) : Z :=
  let score := 80%Z in
  let score :=
    if (length text <? 10)%nat then (score - 20)%Z
    else if (500 <? length text)%nat then (score - 10)%Z
    else score in
  let archaisms := [u "сей"; u "дабы"; u "ибо"; u "весьма"; u "отнюдь"] in
  let score :=
    fold_left
      (fun score archaism =>
         if contains archaism (lower (cs env) text) then (score - 5)%Z
         else score)
      archaisms score in
  let natural_patterns := [u "Дай мне"; u "Можешь"; u "Хочу"; u "Похоже"] in
  let score :=
    fold_left
      (fun score pattern =>
         if contains pattern text then (score + 2)%Z else score)
      natural_patterns score in
  Z.max 0 (Z.min 100 score).

Definition _find_replacement (word : str) (prefer_words : list str) : str :=
  let replacements :=
    [ (u "сей", u "этот"); (u "дабы", u "чтобы");
      (u "ибо", u "потому что"); (u "весьма", u "очень");
      (u "отнюдь", u "совсем не") ] in
  default word (Memory.dict_get word replacements).

Definition _adapt_for_character (text character : str)
    (context : TranslationContext) : str :=
  let '(char_type, confidence) := detect text in
  if negb (bool_decide (char_type = Detector.UNKNOWN))
     && PrimFloat.ltb 0.5 confidence
  then
    let avoid_words :=
      Detector.get_character_avoid_words (character_profiles env) char_type in
    let prefer_words :=
      Detector.get_character_prefer_words (character_profiles env) char_type in
    fold_left
      (fun text word =>
         if contains word text
         then replace word (_find_replacement word prefer_words) text
         else text)
      avoid_words text
  else text.

(** [for old, new in adaptations.items(): text = text.replace(old, new)] *)
Definition apply_table (table : list (str * str)) (text : str) : str :=
  fold_left (fun text '(old, new) => replace old new text) table text.

Definition _adapt_for_scene (text scene : str) : str :=
  let scene_adaptations :=
    [ (u "боевая",
       [(u "замедленно", u "медленно"); (u "осторожно", u "осторожно")]);
      (u "романтическая",
       [(u "грубо", u "нежно"); (u "резко", u "мягко")]) ] in
  match Memory.dict_get scene scene_adaptations with
  | Some adaptations => apply_table adaptations text
  | None => text
  end.

Definition _adapt_for_tone (text tone : str) : str :=
  let tone_adaptations :=
    [ (u "напряженный",
       [(u "спокойно", u "напряженно"); (u "медленно", u "быстро")]);
      (u "грустный",
       [(u "радостно", u "грустно"); (u "весело", u "печально")]) ] in
  match Memory.dict_get tone tone_adaptations with
  | Some adaptations => apply_table adaptations text
  | None => text
  end.

Definition _adapt_translation (base_translation : str)
    (segment : TextSegment) (context : TranslationContext) : str :=
  let adapted := base_translation in
  let adapted :=
    match character segment with
    | Some (c :: r) => _adapt_for_character adapted (c :: r) context
    | _ => adapted
    end in
  let adapted :=
    if truthy (current_scene context)
    then _adapt_for_scene adapted (current_scene context) else adapted in
  let adapted :=
    if truthy (emotional_tone context)
    then _adapt_for_tone adapted (emotional_tone context) else adapted in
  adapted.

Definition _apply_glossary (text : str) : str :=
  match Memory.glossary_terms (reference_data env) with
  | None => text
  | Some glossary =>
    fold_left (fun text '(_, terms) => apply_table terms text) glossary text
  end.

Definition _check_forbidden_words (text : str) : str :=
  match Memory.get_forbidden_words (reference_data env) with
  | [] => text
  | forbidden_words =>
    let alternatives :=
      match Memory.translation_errors (reference_data env) with
      | Some errors => default [] (Memory.preferred_alternatives errors)
      | None => []
      end in
    fold_left
      (fun text forbidden_word =>
         if contains forbidden_word text
         then match Memory.dict_get forbidden_word alternatives with
              | Some alts =>
                let alternative := strip (hd [] (split_char 44%N alts)) in
                replace forbidden_word alternative text
              | None => text
              end
         else text)
      forbidden_words text
  end.

Definition _apply_character_style (text character : str) : str :=
  match Memory.get_character_style (reference_data env) character with
  | Some {| Memory.examples := Some examples |} =>
    fold_left
      (fun text '(english_word, russian_style) =>
         if contains (lower (cs env) english_word) (lower (cs env) text)
         then replace english_word russian_style text
         else text)
      examples text
  | _ => text
  end.

Definition now_iso : M State str :=
  zoom ticks set_ticks (Clock.now_iso (tm env)).

(** The post-processing chain applied to a base translation. *)
Definition post_process (base_translation : str) (segment : TextSegment)
    (context : TranslationContext) : str :=
  let base_translation := _apply_glossary base_translation in
  let base_translation := _check_forbidden_words base_translation in
  let '(character_type, _) := detect (content segment) in
  let base_translation :=
    if negb (bool_decide (character_type = Detector.UNKNOWN))
    then _apply_character_style base_translation
           (Detector.value character_type)
    else base_translation in
  _adapt_translation base_translation segment context.

Definition is_empty_segment (segment : TextSegment) : bool :=
  bool_decide (segment_type segment = empty_line)
  || negb (truthy (strip (content segment))).

Definition _translate_segment (segment : TextSegment)
    (context : TranslationContext) : M State TranslationResult :=
  if is_empty_segment segment
  then
    do ts <- now_iso;
    ret {| original_text := content segment; translated_text := [];
           translator := u "Empty_Line"; confidence := 1;
           context_used := false; memory_hit := false;
           quality_score := 100; timestamp := ts |}
  else
    let cache_key := content segment ++ u "_" ++ translation_style context in
    do st <- get;
    match translation_cache st !! cache_key with
    | Some (cached_text, cached_score) =>
      do ts <- now_iso;
      ret {| original_text := content segment;
             translated_text := cached_text;
             translator := u "Cache"; confidence := 9 # 10;
             context_used := true; memory_hit := true;
             quality_score := cached_score; timestamp := ts |}
    | None =>
      match Memory.get_phrase_translation (cs env) (reference_data env)
              (content segment) (Some (chapter_number context)) with
      | Some (c :: r) =>
        do ts <- now_iso;
        ret {| original_text := content segment;
               translated_text := c :: r;
               translator := u "Reference_Base"; confidence := 1;
               context_used := true; memory_hit := true;
               quality_score := 98; timestamp := ts |}
      | _ =>
        let similar_translations :=
          Memory.find_similar (cs env) (content segment)
            (similarity_threshold env) 5 (store_of st) in
        do base_translation <-
          match similar_translations with
          | best_match :: _ => ret (Memory.sim_target_text best_match)
          | [] =>
            zoom deepl_of set_deepl
              (DeepL.translate_text (tm env) (md5_hexdigest env)
                 (translate_api env) (max_age_hours env)
                 (translator_available env) (content segment))
          end;
        let adapted_translation :=
          post_process base_translation segment context in
        let '(translator, confidence, memory_hit) :=
          match similar_translations with
          | best_match :: _ =>
            (u "Memory+Adaptation", Memory.similarity best_match, true)
          | [] => (u "DeepL+Adaptation", 8 # 10, false)
          end in
        let quality := inject_Z (_calculate_quality_score adapted_translation) in
        do ts <- now_iso;
        do_ modify (fun st =>
          set_translation_cache
            (<[cache_key := (adapted_translation, quality)]>
               (translation_cache st)) st);
        ret {| original_text := content segment;
               translated_text := adapted_translation;
               translator := translator; confidence := confidence;
               context_used := true; memory_hit := memory_hit;
               quality_score := quality; timestamp := ts |}
      end
    end.

Definition _save_to_memory (segment : TextSegment)
    (result : TranslationResult) (context : TranslationContext)
  : M State unit :=
  let memory :=
    {| Memory.source_text := content segment;
       Memory.target_text := translated_text result;
       Memory.chapter := chapter_number context;
       Memory.character := character segment;
       Memory.context := Some (current_scene context);
       Memory.quality_score := Some (quality_score result);
       Memory.timestamp := None |} in
  do_ zoom store_of set_store
        (Memory.add_translation (tm env) (md5_hexdigest env) memory);
  ret tt.

(** The body shared by both loops: resolve a segment, then save it. *)
Definition translate_and_save (context : TranslationContext)
    (segment : TextSegment) : M State TranslationResult :=
  do result <- _translate_segment segment context;
  do_ _save_to_memory segment result context;
  ret result.

Definition _translate_segments_batch (segments : list TextSegment)
    (context : TranslationContext) : M State (list TranslationResult) :=
  let dialogue_segments := List.filter is_dialogue segments in
  let system_segments := List.filter is_system segments in
  let other_segments :=
    List.filter (fun s => negb (is_dialogue s) && negb (is_system s))
      segments in
  for_each (dialogue_segments ++ system_segments ++ other_segments)
    (translate_and_save context).

(** The profiling decorator of the method re-raises what the method
    raises and returns what it returns; it is left out. *)
Definition translate_with_context (text : str) (context : TranslationContext)
  : M State (list TranslationResult) :=
  let segments := split_by_lines text in
  if (10 <? length segments)%nat
  then _translate_segments_batch segments context
  else for_each segments (translate_and_save context).

(** [str(b)] for a boolean *)
Definition str_of_bool (b : bool) : str :=
  if b then u "True" else u "False".

Record StructureValidation := {
  structure_match : bool;
  original_lines : nat;
  translated_lines : nat;
  empty_lines_match : bool;
  issues : list str
}.

Definition _validate_structure (original_text translated_text : str)
  : StructureValidation :=
  let original_lines := split_char LF original_text in
  let translated_lines := split_char LF translated_text in
  let structure_match :=
    (length original_lines =? length translated_lines)%nat in
  let count_issue :=
    if structure_match then []
    else [u "Количество строк не совпадает: "
            ++ str_of_nat (length original_lines) ++ u " → "
            ++ str_of_nat (length translated_lines)] in
  let mismatches :=
    omap
      (fun '(i, (orig_line, trans_line)) =>
         let orig_empty := negb (truthy (strip orig_line)) in
         let trans_empty := negb (truthy (strip trans_line)) in
         if Bool.eqb orig_empty trans_empty then None
         else Some (u "Строка " ++ str_of_nat (i + 1)
                      ++ u ": пустая в оригинале ("
                      ++ str_of_bool orig_empty
                      ++ u ") != пустая в переводе ("
                      ++ str_of_bool trans_empty ++ u ")"))
      (enumerate_from 0 (zip original_lines translated_lines)) in
  {| structure_match := structure_match;
     original_lines := length original_lines;
     translated_lines := length translated_lines;
     empty_lines_match := match mismatches with [] => true | _ => false end;
     issues := count_issue ++ mismatches |}.

Record Statistics := {
  total_segments : nat;
  memory_hits : nat;
  memory_hit_rate : Q;
  average_quality : Q;
  translators_used : gset str
}.




End WithEnv.

End Translator.

(** * tools/chapter_validator.py *)

Module Validator.

Inductive Severity := critical | high | medium | low.

#[global] Instance Severity_eq_dec : EqDecision Severity.
Proof. solve_decision. Defined.

(** The values of [issue_type]: "Структура", "Архаизм", "Калька",
    "Формальный диалог", "Терминология", "Читабельность",
    "Консистентность". *)
Inductive IssueType :=
  | Structure | Archaism | Calque | FormalDialogue
  | Terminology | Readability | Consistency.

#[global] Instance IssueType_eq_dec : EqDecision IssueType.
Proof. solve_decision. Defined.

Definition issue_type_label (t : IssueType) : str :=
  match t with
  | Structure => u "Структура"
  | Archaism => u "Архаизм"
  | Calque => u "Калька"
  | FormalDialogue => u "Формальный диалог"
  | Terminology => u "Терминология"
  | Readability => u "Читабельность"
  | Consistency => u "Консистентность"
  end.

Record ValidationIssue := {
  issue_type : IssueType;
  severity : Severity;
  message : str;
  line_number : nat;
  context : str;
  suggestion : option str
}.

(** The recommendations are texts for the reader; the model keeps what
    each one is built from. *)
Inductive Recommendation :=
  | CriticalProblems (n : nat)
  | BelowThreshold (metric : str) (score : Z) (threshold : Q)
  | SimplifyDialogues
  | CheckTerminology
  | RemoveCalques.

Record ValidationResult := {
  is_valid : bool;
  issues : list ValidationIssue;
  quality_scores : list (str * Z);
  overall_score : Q;
  recommendations : list Recommendation
}.

Definition calque_patterns : list str :=
  [ u "крайне"; u "слева и справа"; u "совершенна";
    u "На его взгляд"; u "резюмировал"; u "осуществлять";
    u "производить впечатление"; u "испытывать чувство" ].

Definition formal_dialogue_patterns : list str :=
  [ u "Я собираюсь"; u "Позвольте мне"; u "Не могли бы вы";
    u "Я хотел бы"; u "Кажется, что"; u "Я боюсь, что" ].

Definition glossary_terms : list (str * str) :=
  [ (u "Slack-Off System", u "Система Безделья");
    (u "Holy Son", u "Святой Сын");
    (u "Banished Immortal Peak", u "Пик Изгнанного Бессмертного");
    (u "Primordial Holy Land", u "Изначальная Святая Земля");
    (u "dog licker", u "подхалим") ].

Definition character_names : list (str * list str) :=
  [ (u "Цзян Чэнь", [u "Jiang Chen"; u "цзян чэнь"]);
    (u "Е Цинчэн", [u "Ye Qingcheng"; u "е цинчэн"]);
    (u "Ду Гуюнь", [u "Du Guyun"; u "ду гуюнь"]) ].

(** [abs(a - b)] on naturals *)
Definition abs_diff (a b : nat) : nat := (a - b) + (b - a).

Definition _validate_structure (original translated : str)
  : list ValidationIssue :=
  let nonblank text :=
    length (List.filter (fun l => truthy (strip l)) (split_char LF text)) in
  let orig_lines := nonblank original in
  let trans_lines := nonblank translated in
  let line_issue :=
    if (2 <? abs_diff orig_lines trans_lines)%nat
    then [{| issue_type := Structure; severity := high;
             message := u "Количество строк не соответствует: "
                          ++ str_of_nat trans_lines ++ u " vs "
                          ++ str_of_nat orig_lines;
             line_number := 0;
             context := u "Общая структура";
             suggestion := Some (u "Проверить разбивку на абзацы") |}]
    else [] in
  let orig_empty := count [LF; LF] original in
  let trans_empty := count [LF; LF] translated in
  let empty_issue :=
    if (1 <? abs_diff orig_empty trans_empty)%nat
    then [{| issue_type := Structure; severity := medium;
             message := u "Количество пустых строк не соответствует: "
                          ++ str_of_nat trans_empty ++ u " vs "
                          ++ str_of_nat orig_empty;
             line_number := 0;
             context := u "Пустые строки";
             suggestion := Some (u "Нормализовать пустые строки") |}]
    else [] in
  line_issue ++ empty_issue.

(** One issue per match of a listed phrase: the loop over
    [re.finditer(re.escape(pattern), text)] shared by the archaism,
    calque and dialogue checks. *)
Definition issues_at (eqc : char -> char -> bool) (ty : IssueType)
    (sev : Severity) (prefix : str) (hint : str) (pattern text : str)
  : list ValidationIssue :=
  map
    (fun start =>
       let stop := start + length pattern in
       {| issue_type := ty; severity := sev;
          message := prefix ++ u "'" ++ pattern ++ u "'";
          line_number := count [LF] (take start text) + 1;
          context := slice (start - 30) (stop + 30) text;
          suggestion := Some hint |})
    (occurrences_by eqc pattern text).

Section WithConfig.

Variable cs : Casing.
(** [QUALITY_METRICS], [MIN_QUALITY_THRESHOLDS] and [BANNED_ARCHAISMS] of
    [config.py]. *)
Variable QUALITY_METRICS : list (str * Q).
Variable MIN_QUALITY_THRESHOLDS : list (str * Q).
Variable BANNED_ARCHAISMS : list str.

Definition _validate_archaisms (text : str) : list ValidationIssue :=
  concat
    (map
       (fun archaism =>
          if contains archaism (lower cs text)
          then issues_at (ci_eqb cs) Archaism critical
                 (u "Найден архаизм: ")
                 (u "Заменить на современный аналог") archaism text
          else [])
       BANNED_ARCHAISMS).

Definition _validate_calques (text : str) : list ValidationIssue :=
  concat
    (map
       (fun calque =>
          if contains calque text
          then issues_at N.eqb Calque high (u "Найдена калька: ")
                 (u "Переформулировать естественно") calque text
          else [])
       calque_patterns).

Definition _validate_dialogues (text : str) : list ValidationIssue :=
  concat
    (map
       (fun pattern =>
          if contains pattern text
          then issues_at N.eqb FormalDialogue medium
                 (u "Формальная конструкция: ")
                 (u "Упростить для естественности") pattern text
          else [])
       formal_dialogue_patterns).

Definition _validate_terminology (text : str) : list ValidationIssue :=
  omap
    (fun '(en_term, ru_term) =>
       if contains en_term text && negb (contains ru_term text)
       then Some {| issue_type := Terminology; severity := high;
                    message := u "Неправильный термин: '" ++ en_term
                                 ++ u "' вместо '" ++ ru_term ++ u "'";
                    line_number := 0;
                    context := u "Терминология";
                    suggestion :=
                      Some (u "Использовать '" ++ ru_term ++ u "'") |}
       else None)
    glossary_terms.

Definition sentence_end (c : char) : bool :=
  bool_decide (c ∈ u ".!?").

Definition _validate_readability (text : str) : list ValidationIssue :=
  let sentences := re_split_class sentence_end text in
  omap
    (fun '(i, sentence) =>
       let sentence := strip sentence in
       if truthy sentence
       then
         let words := split_ws sentence in
         if (15 <? length words)%nat
         then Some {| issue_type := Readability; severity := medium;
                      message := u "Длинное предложение: "
                                   ++ str_of_nat (length words) ++ u " слов";
                      line_number := i + 1;
                      context := slice 0 50 sentence;
                      suggestion :=
                        Some (u "Разбить на более короткие предложения") |}
         else None
       else None)
    (Splitter.enumerate_from 0 sentences).

Definition _validate_consistency (text : str) : list ValidationIssue :=
  omap
    (fun '(correct_name, variants) =>
       let found_variants :=
         List.filter (fun variant => contains variant text) variants in
       if (1 <? length found_variants)%nat
       then Some {| issue_type := Consistency; severity := high;
                    message := u "Несогласованность имен: "
                                 ++ join (u ", ") found_variants;
                    line_number := 0;
                    context := u "Имена персонажей";
                    suggestion :=
                      Some (u "Использовать только '" ++ correct_name
                              ++ u "'") |}
       else None)
    character_names.

Definition count_type (ty : IssueType) (issues : list ValidationIssue)
  : nat :=
  length (List.filter (fun i => bool_decide (issue_type i = ty)) issues).

Definition _calculate_quality_scores (text : str)
    (issues : list ValidationIssue) : list (str * Z) :=
  let penalty ty k := Z.max 0 (100 - Z.of_nat (count_type ty issues) * k) in
  [ (u "dialogue_naturalness", penalty FormalDialogue 10%Z);
    (u "terminology_consistency", penalty Terminology 15%Z);
    (u "character_voice", penalty Archaism 20%Z);
    (u "cultural_adaptation", penalty Calque 15%Z) ].

(** [round(x, 1)], half to even, on the exact value. *)
Definition round1 (x : Q) : Q :=
  let y := (x * 10)%Q in
  let n := Qfloor y in
  let frac := (y - inject_Z n)%Q in
  let up :=
    match (frac ?= 1 # 2)%Q with
    | Lt => false
    | Gt => true
    | Eq => Z.odd n
    end in
  ((if up then n + 1 else n)%Z # 10).

Definition _calculate_overall_score (quality_scores : list (str * Z)) : Q :=
  round1
    (fold_left
       (fun total_score '(metric, weight) =>
          match Memory.dict_get metric quality_scores with
          | Some score => (total_score + inject_Z score * weight)%Q
          | None => total_score
          end)
       QUALITY_METRICS 0%Q).

Definition critical_issues (issues : list ValidationIssue)
  : list ValidationIssue :=
  List.filter (fun i => bool_decide (severity i = critical)) issues.

Definition score_or_zero (metric : str) (quality_scores : list (str * Z))
  : Z := default 0%Z (Memory.dict_get metric quality_scores).

Definition _generate_recommendations (issues : list ValidationIssue)
    (quality_scores : list (str * Z)) : list Recommendation :=
  let n_critical := length (critical_issues issues) in
  (if (0 <? n_critical)%nat then [CriticalProblems n_critical] else [])
  ++ omap
       (fun '(metric, score) =>
          let threshold :=
            default 0%Q (Memory.dict_get metric MIN_QUALITY_THRESHOLDS) in
          if Qlt_le_dec (inject_Z score) threshold
          then Some (BelowThreshold metric score threshold)
          else None)
       quality_scores
  ++ (if (score_or_zero (u "dialogue_naturalness") quality_scores <? 80)%Z
      then [SimplifyDialogues] else [])
  ++ (if (score_or_zero (u "terminology_consistency") quality_scores <? 90)%Z
      then [CheckTerminology] else [])
  ++ (if (score_or_zero (u "cultural_adaptation") quality_scores <? 75)%Z
      then [RemoveCalques] else []).

Definition validate_chapter (original_text translated_text : str)
  : ValidationResult :=
  let issues :=
    _validate_structure original_text translated_text
    ++ _validate_archaisms translated_text
    ++ _validate_calques translated_text
    ++ _validate_dialogues translated_text
    ++ _validate_terminology translated_text
    ++ _validate_readability translated_text
    ++ _validate_consistency translated_text in
  let quality_scores := _calculate_quality_scores translated_text issues in
  let overall_score := _calculate_overall_score quality_scores in
  let recommendations := _generate_recommendations issues quality_scores in
  let critical_issues := critical_issues issues in
  let is_valid :=
    (length critical_issues =? 0)%nat && Qle_bool 70 overall_score in
  {| is_valid := is_valid;
     issues := issues;
     quality_scores := quality_scores;
     overall_score := overall_score;
     recommendations := recommendations |}.

End WithConfig.

End Validator.

(** * tools/async_deepl_translator.py *)

Module AsyncDeepL.

Record TranslationResponse := {
  text : str;
  detected_source_language : str;
  success : bool;
  error_message : option str;
  processing_time : Z
}.

(** [TranslationResponse(text, lang, success, error_message)] with the
    default [processing_time]. *)
Definition response (text lang : str) (success : bool)
    (error_message : option str) : TranslationResponse :=
  {| text := text; detected_source_language := lang; success := success;
     error_message := error_message; processing_time := 0 |}.

(** A call either returns or raises. *)
Inductive Outcome (A : Type) :=
  | Returned (a : A)
  | Raised (e : str).
Arguments Returned {A} a.
Arguments Raised {A} e.

(** One object of the ["translations"] array of the service's answer;
    a key may be missing. *)
Record ApiItem := {
  item_text : option str;
  item_detected_source_language : option str
}.

(** What a request to the service can lead to: an answer with status 200
    and a JSON body, an answer with another status, an exception raised
    while the request is in flight or its body is parsed, or an exception
    raised before the request is sent. *)
Inductive ApiOutcome :=
  | Ok200 (translations : list ApiItem)
  | HttpError (status : nat) (error_text : str)
  | NetworkError (e : str)
  | SessionFailure (e : str).

Record Stats := {
  total_translations : nat;
  cache_hits : nat;
  api_calls : nat;
  total_time : Z;
  errors : nat
}.

(** [self.translation_cache], [self.stats], the number of requests sent
    and of clock reads so far. *)
Record State := {
  translation_cache : gmap str (list TranslationResponse);
  stats : Stats;
  requests : nat;
  ticks : nat
}.

Definition set_translation_cache c (st : State) :=
  {| translation_cache := c; stats := stats st; requests := requests st;
     ticks := ticks st |}.
Definition set_stats s (st : State) :=
  {| translation_cache := translation_cache st; stats := s;
     requests := requests st; ticks := ticks st |}.
Definition set_requests n (st : State) :=
  {| translation_cache := translation_cache st; stats := stats st;
     requests := n; ticks := ticks st |}.
Definition set_ticks t (st : State) :=
  {| translation_cache := translation_cache st; stats := stats st;
     requests := requests st; ticks := t |}.

Definition bump_cache_hits (s : Stats) : Stats :=
  {| total_translations := total_translations s;
     cache_hits := S (cache_hits s); api_calls := api_calls s;
     total_time := total_time s; errors := errors s |}.
Definition bump_api_calls (s : Stats) : Stats :=
  {| total_translations := total_translations s;
     cache_hits := cache_hits s; api_calls := S (api_calls s);
     total_time := total_time s; errors := errors s |}.
Definition bump_errors (s : Stats) : Stats :=
  {| total_translations := total_translations s;
     cache_hits := cache_hits s; api_calls := api_calls s;
     total_time := total_time s; errors := S (errors s) |}.
Definition add_totals (n : nat) (dt : Z) (s : Stats) : Stats :=
  {| total_translations := total_translations s + n;
     cache_hits := cache_hits s; api_calls := api_calls s;
     total_time := (total_time s + dt)%Z; errors := errors s |}.

(** A task that is suspended in [session.post]: it holds a permit of the
    semaphore, its request has been sent and is not answered yet. *)
Record InFlight := {
  (** the place of the task among the tasks given to [gather] *)
  task : nat;
  flight_batch : list (nat * str);
  (** the number of the request *)
  request : nat;
  (** [start_time] of [_call_deepl_api] *)
  sent_at : Z
}.

(** The tasks that [translate_batch_async] hands to [asyncio.gather]:
    those that wait for a permit of [self.semaphore], oldest first, each
    with its place; those whose request is in flight; and the result of
    each task that is done, at the place of the task. *)
Record Tasks := {
  waiting : list (nat * list (nat * str));
  in_flight : list InFlight;
  finished : list (option (list TranslationResponse))
}.

(** [str(n)] for an integer *)
Definition str_of_Z (z : Z) : str :=
  match z with
  | Zneg p => u "-" ++ str_of_N (Npos p)
  | _ => str_of_N (Z.to_N z)
  end.

(** [l[i:i + n] for i in range(0, len(l), n)], for [n > 0]. *)
Fixpoint chunks_go {A} (fuel n : nat) (l : list A) : list (list A) :=
  match fuel, l with
  | S f, _ :: _ => take n l :: chunks_go f n (drop n l)
  | _, _ => []
  end.

Definition chunks {A} (n : nat) (l : list A) : list (list A) :=
  chunks_go (length l) n l.

Section WithEnv.

Variable tm : Time.
(** [hash(tuple(texts))] *)
Variable py_hash : list str -> Z.
(** The answer of the service to request number [n]. *)
Variable translate_api : nat -> list str -> str -> str -> ApiOutcome.

Definition time_time : M State Z := zoom ticks set_ticks (now tm).

Definition _call_deepl_api (texts : list str) (source_lang target_lang : str)
  : M State (Outcome (list TranslationResponse)) :=
  do st <- get;
  do_ put (set_requests (S (requests st)) st);
  match translate_api (requests st) texts source_lang target_lang with
  | SessionFailure e => ret (Raised e)
  | NetworkError e =>
    do start_time <- time_time;
    let error_response :=
      response [] source_lang false (Some (u "Network Error: " ++ e)) in
    ret (Returned (map (fun _ => error_response) texts))
  | HttpError status error_text =>
    do start_time <- time_time;
    let error_response :=
      response [] source_lang false
        (Some (u "API Error " ++ str_of_nat status ++ u ": " ++ error_text)) in
    ret (Returned (map (fun _ => error_response) texts))
  | Ok200 items =>
    do start_time <- time_time;
    do translations <-
      for_each items
        (fun item =>
           do t <- time_time;
           ret {| text := default [] (item_text item);
                  detected_source_language :=
                    default source_lang (item_detected_source_language item);
                  success := true;
                  error_message := None;
                  processing_time := (t - start_time)%Z |});
    do_ modify (fun st => set_stats (bump_api_calls (stats st)) st);
    ret (Returned translations)
  end.

Definition cache_key (texts : list str) (source_lang target_lang : str)
  : str :=
  source_lang ++ u "_" ++ target_lang ++ u "_" ++ str_of_Z (py_hash texts).

Definition _translate_batch (batch : list (nat * str))
    (source_lang target_lang : str) : M State (list TranslationResponse) :=
  let key := cache_key (map snd batch) source_lang target_lang in
  do st <- get;
  match translation_cache st !! key with
  | Some cached =>
    do_ modify (fun st => set_stats (bump_cache_hits (stats st)) st);
    ret cached
  | None =>
    let texts_to_translate := map snd batch in
    do called <- _call_deepl_api texts_to_translate source_lang target_lang;
    match called with
    | Returned results =>
      do_ modify (fun st =>
        set_translation_cache (<[key := results]> (translation_cache st)) st);
      ret results
    | Raised e =>
      ret (map (fun _ => response [] source_lang false (Some e)) batch)
    end
  end.

(** The loop over [batch_results] that fills [all_results]. *)
Fixpoint merge_results (source_lang : str)
    (batch_results : list (Outcome (list TranslationResponse)))
  : M State (list TranslationResponse) :=
  match batch_results with
  | [] => ret []
  | Raised e :: rest =>
    do_ modify (fun st => set_stats (bump_errors (stats st)) st);
    do more <- merge_results source_lang rest;
    ret (response [] source_lang false (Some e) :: more)
  | Returned batch_result :: rest =>
    do more <- merge_results source_lang rest;
    ret (batch_result ++ more)
  end.

(** The loop that puts the blank texts back; [all_results[result_index]]
    raises [IndexError] beyond the end of [all_results]. *)
Fixpoint restore_order (source_lang : str) (texts : list str)
    (all_results : list TranslationResponse)
  : Outcome (list TranslationResponse) :=
  match texts with
  | [] => Returned []
  | text :: rest =>
    if truthy (strip text)
    then match all_results with
         | [] => Raised (u "IndexError")
         | r :: all_results' =>
           match restore_order source_lang rest all_results' with
           | Returned final => Returned (r :: final)
           | Raised e => Raised e
           end
         end
    else match restore_order source_lang rest all_results with
         | Returned final =>
           Returned (response [] source_lang true None :: final)
         | Raised e => Raised e
         end
  end.

(** [asyncio.Semaphore(max_concurrent)]: the number of permits. The
    constructor refuses a negative number, and with no permit at all no
    batch would ever start. *)
Variable max_concurrent : positive.
(** The event loop: which of the steps that can be taken next is taken
    at each of its turns. *)
Variable schedule : nat -> nat.

(** [_translate_batch] from the moment the task holds a permit up to the
    point where it returns or is suspended in [session.post]: the look
    in the cache and, on a miss, the part of [_call_deepl_api] that
    precedes the request. A task that returns here gives its permit
    back at once. *)
Definition start_batch (i : nat) (batch : list (nat * str))
    (source_lang target_lang : str)
  : M State (list TranslationResponse + InFlight) :=
  let key := cache_key (map snd batch) source_lang target_lang in
  do st <- get;
  match translation_cache st !! key with
  | Some cached =>
    do_ modify (fun st => set_stats (bump_cache_hits (stats st)) st);
    ret (inl cached)
  | None =>
    let texts_to_translate := map snd batch in
    do st <- get;
    do_ put (set_requests (S (requests st)) st);
    match translate_api (requests st) texts_to_translate
            source_lang target_lang with
    | SessionFailure e =>
      ret (inl (map (fun _ => response [] source_lang false (Some e)) batch))
    | _ =>
      do start_time <- time_time;
      ret (inr {| task := i; flight_batch := batch;
                  request := requests st; sent_at := start_time |})
    end
  end.

(** The rest of [_call_deepl_api], from the answer to the request on.
    Only a request that was sent is in flight, so that the branch for a
    failure of the session is there for the sake of the match alone. *)
Definition receive (f : InFlight) (source_lang target_lang : str)
  : M State (Outcome (list TranslationResponse)) :=
  let texts := map snd (flight_batch f) in
  let start_time := sent_at f in
  match translate_api (request f) texts source_lang target_lang with
  | SessionFailure e => ret (Raised e)
  | NetworkError e =>
    let error_response :=
      response [] source_lang false (Some (u "Network Error: " ++ e)) in
    ret (Returned (map (fun _ => error_response) texts))
  | HttpError status error_text =>
    let error_response :=
      response [] source_lang false
        (Some (u "API Error " ++ str_of_nat status ++ u ": " ++ error_text)) in
    ret (Returned (map (fun _ => error_response) texts))
  | Ok200 items =>
    do translations <-
      for_each items
        (fun item =>
           do t <- time_time;
           ret {| text := default [] (item_text item);
                  detected_source_language :=
                    default source_lang (item_detected_source_language item);
                  success := true;
                  error_message := None;
                  processing_time := (t - start_time)%Z |});
    do_ modify (fun st => set_stats (bump_api_calls (stats st)) st);
    ret (Returned translations)
  end.

(** The rest of [_translate_batch], run when the task is resumed. *)
Definition finish_batch (f : InFlight) (source_lang target_lang : str)
  : M State (list TranslationResponse) :=
  let batch := flight_batch f in
  let key := cache_key (map snd batch) source_lang target_lang in
  do called <- receive f source_lang target_lang;
  match called with
  | Returned results =>
    do_ modify (fun st =>
      set_translation_cache (<[key := results]> (translation_cache st)) st);
    ret results
  | Raised e =>
    ret (map (fun _ => response [] source_lang false (Some e)) batch)
  end.

(** A permit is free and a task waits for it. *)
Definition can_start (run : Tasks) : bool :=
  (length (in_flight run) <? Pos.to_nat max_concurrent)%nat
  && match waiting run with [] => false | _ :: _ => true end.

(** The oldest waiting task takes a permit and runs up to its request. *)
Definition start_next (source_lang target_lang : str) (run : Tasks)
  : M State Tasks :=
  match waiting run with
  | [] => ret run
  | (i, batch) :: rest =>
    do started <- start_batch i batch source_lang target_lang;
    match started with
    | inl results =>
      ret {| waiting := rest; in_flight := in_flight run;
             finished := <[i := Some results]> (finished run) |}
    | inr f =>
      ret {| waiting := rest; in_flight := in_flight run ++ [f];
             finished := finished run |}
    end
  end.

(** The request of the [k]-th task in flight is answered: the task runs
    to its end and gives its permit back. *)
Definition finish_nth (k : nat) (source_lang target_lang : str) (run : Tasks)
  : M State Tasks :=
  match in_flight run !! k with
  | None => ret run
  | Some f =>
    do results <- finish_batch f source_lang target_lang;
    ret {| waiting := waiting run; in_flight := delete k (in_flight run);
           finished := <[task f := Some results]> (finished run) |}
  end.

(** The first turn of the event loop: the tasks run in the order in
    which [gather] was given them, each until it returns or is
    suspended, in its request or, once the permits are taken, in the
    queue of the semaphore. No request is answered before every task had
    this first run. *)
Fixpoint start_ready (fuel : nat) (source_lang target_lang : str)
    (run : Tasks) : M State Tasks :=
  match fuel with
  | O => ret run
  | S fuel' =>
    if can_start run
    then do run' <- start_next source_lang target_lang run;
         start_ready fuel' source_lang target_lang run'
    else ret run
  end.

(** The later turns: either the request of a task in flight is answered,
    or, when a permit is free, the oldest waiting task starts. Which one
    is the choice of [schedule]. *)
Fixpoint run_events (fuel step : nat) (source_lang target_lang : str)
    (run : Tasks) : M State Tasks :=
  match fuel with
  | O => ret run
  | S fuel' =>
    let answers := length (in_flight run) in
    let steps := answers + (if can_start run then 1 else 0) in
    match steps with
    | O => ret run
    | S _ =>
      let k := schedule step mod steps in
      do run' <-
        (if (k <? answers)%nat
         then finish_nth k source_lang target_lang run
         else start_next source_lang target_lang run);
      run_events fuel' (S step) source_lang target_lang run'
    end
  end.

(** [asyncio.gather] over the tasks: the results of the tasks in the
    order of the tasks, once all of them are done.
    Every task takes at most two steps, its start and its end, so that
    twice the number of tasks is fuel enough; [None] stands for a task
    that is not done. *)
Definition gather (batches : list (list (nat * str)))
    (source_lang target_lang : str)
  : M State (list (option (list TranslationResponse))) :=
  let tasks := Splitter.enumerate_from 0 batches in
  do run <-
    start_ready (length tasks) source_lang target_lang
      {| waiting := tasks; in_flight := [];
         finished := replicate (length tasks) None |};
  do run <-
    run_events (2 * length tasks) 0 source_lang target_lang run;
  ret (finished run).

(** The results of the tasks when all of them are done. *)
Fixpoint all_done {A} (results : list (option A)) : option (list A) :=
  match results with
  | [] => Some []
  | None :: _ => None
  | Some r :: rest =>
    match all_done rest with
    | Some rs => Some (r :: rs)
    | None => None
    end
  end.

(** The batches are awaited together. A task returns its responses, it
    never raises: [_translate_batch] catches what its body raises. The
    branch for a call that does not return is never taken, all the
    tasks get done. *)
Definition translate_batch_async (texts : list str) (batch_size : nat)
    (source_lang target_lang : str)
  : M State (Outcome (list TranslationResponse)) :=
  do start_time <- time_time;
  let non_empty_texts :=
    List.filter (fun '(_, text) => truthy (strip text))
      (Splitter.enumerate_from 0 texts) in
  match non_empty_texts with
  | [] => ret (Returned (map (fun _ => response [] source_lang true None) texts))
  | _ =>
    match batch_size with
    | O => ret (Raised (u "ValueError"))
    | _ =>
      let batches := chunks batch_size non_empty_texts in
      do gathered <- gather batches source_lang target_lang;
      match all_done gathered with
      | None => ret (Raised (u "CancelledError"))
      | Some results =>
        let batch_results := map Returned results in
        do all_results <- merge_results source_lang batch_results;
        match restore_order source_lang texts all_results with
        | Raised e => ret (Raised e)
        | Returned final_results =>
          do end_time <- time_time;
          do_ modify (fun st =>
            set_stats
              (add_totals (length texts) (end_time - start_time) (stats st))
              st);
          ret (Returned final_results)
        end
      end
    end
  end.

Definition translate_single_async (text source_lang target_lang : str)
  : M State (Outcome TranslationResponse) :=
  do results <- translate_batch_async [text] 1 source_lang target_lang;
  match results with
  | Raised e => ret (Raised e)
  | Returned (r :: _) => ret (Returned r)
  | Returned [] => ret (Returned (response [] source_lang false None))
  end.

End WithEnv.

End AsyncDeepL.

(** * Notions used to state the properties *)

Module Notions.

Import Splitter.

(** What a line becomes in the output of [split_by_lines]: it loses its
    trailing carriage returns, and a line of whitespace becomes empty. *)
Definition normalize_line (line : str) : str :=
  let line' := rstrip_chars [CR] line in
  if truthy (strip line') then line' else [].

(** A line that [split_by_lines] keeps as it is. *)
Definition line_preserved (line : str) : bool :=
  str_eqb (normalize_line line) line.

(** The records of a store that are keyed by a source text and a
    chapter. *)
Definition records_for (s c : str) (data : list Memory.TranslationData)
  : list Memory.TranslationData :=
  List.filter
    (fun r => str_eqb (Memory.td_source_text r) s
              && str_eqb (Memory.td_chapter r) c) data.

(** The archaisms and the natural-dialogue markers that
    [_calculate_quality_score] detects in a text. *)
Definition detected_archaisms (cs : Casing) (text : str) : list str :=
  List.filter (fun archaism => contains archaism (lower cs text))
    [u "сей"; u "дабы"; u "ибо"; u "весьма"; u "отнюдь"].

Definition detected_natural_patterns (text : str) : list str :=
  List.filter (fun pattern => contains pattern text)
    [u "Дай мне"; u "Можешь"; u "Хочу"; u "Похоже"].

(** The order in which [translate_with_context] resolves the segments of
    a chapter: source order up to ten segments; beyond, the dialogue
    segments, then the system segments, then the others. *)
Definition processing_order (segments : list TextSegment)
  : list TextSegment :=
  if (10 <? length segments)%nat
  then List.filter is_dialogue segments
       ++ List.filter is_system segments
       ++ List.filter (fun s => negb (is_dialogue s) && negb (is_system s))
            segments
  else segments.

(** [text.strip()] is not empty. *)
Definition nonblank (text : str) : bool := truthy (strip text).

(** The batches that [translate_batch_async] cuts a request into. *)
Definition batches_of (texts : list str) (batch_size : nat)
  : list (list (nat * str)) :=
  AsyncDeepL.chunks batch_size
    (List.filter (fun '(_, text) => truthy (strip text))
       (enumerate_from 0 texts)).

(** The responses of a result list that stand at the positions of the
    non-blank texts, in order. *)
Definition at_nonblank (texts : list str)
    (final : list AsyncDeepL.TranslationResponse)
  : list AsyncDeepL.TranslationResponse :=
  map snd (List.filter (fun '(text, _) => nonblank text) (zip texts final)).

(** A response that marks a failure. *)
Definition error_marked (r : AsyncDeepL.TranslationResponse) : Prop :=
  AsyncDeepL.success r = false /\ is_Some (AsyncDeepL.error_message r).

(** The request did not succeed. *)
Definition failed (o : AsyncDeepL.ApiOutcome) : Prop :=
  match o with
  | AsyncDeepL.Ok200 _ => False
  | _ => True
  end.

(** Two batches of a request that share a cache key have the same
    number of texts. *)
Definition keys_coherent (py_hash : list str -> Z)
    (source_lang target_lang : str) (batches : list (list (nat * str)))
  : bool :=
  forallb
    (fun b1 =>
       forallb
         (fun b2 =>
            implb
              (str_eqb
                 (AsyncDeepL.cache_key py_hash (map snd b1)
                    source_lang target_lang)
                 (AsyncDeepL.cache_key py_hash (map snd b2)
                    source_lang target_lang))
              (length b1 =? length b2)%nat)
         batches)
    batches.

(** The service keeps its contract: an answer with status 200 carries
    one translation per text of the request. *)
Definition api_ok
    (translate_api : nat -> list str -> str -> str -> AsyncDeepL.ApiOutcome)
    (source_lang target_lang : str) : Prop :=
  forall n texts items,
    translate_api n texts source_lang target_lang = AsyncDeepL.Ok200 items ->
    length items = length texts.

(** The cache holds, for each batch of the request, as many responses as
    the batch has texts. *)
Definition cache_ok (py_hash : list str -> Z) (source_lang target_lang : str)
    (batches : list (list (nat * str))) (st : AsyncDeepL.State) : Prop :=
  forall b rs,
    In b batches ->
    AsyncDeepL.translation_cache st
      !! AsyncDeepL.cache_key py_hash (map snd b) source_lang target_lang
      = Some rs ->
    length rs = length b.

(** The responses that the answer [o] of the service to a request for
    [texts] is turned into: one successful response per translation of
    an answer with status 200, in the order of the translations; one
    error response per text otherwise. *)
Definition answered (source_lang : str) (o : AsyncDeepL.ApiOutcome)
    (texts : list str) (rs : list AsyncDeepL.TranslationResponse) : Prop :=
  match o with
  | AsyncDeepL.Ok200 items =>
    Forall2
      (fun item r =>
         AsyncDeepL.text r = default [] (AsyncDeepL.item_text item)
         /\ AsyncDeepL.detected_source_language r
            = default source_lang
                (AsyncDeepL.item_detected_source_language item)
         /\ AsyncDeepL.success r = true
         /\ AsyncDeepL.error_message r = None)
      items rs
  | AsyncDeepL.HttpError status error_text =>
    rs = map (fun _ =>
                AsyncDeepL.response [] source_lang false
                  (Some (u "API Error " ++ str_of_nat status ++ u ": "
                           ++ error_text)))
             texts
  | AsyncDeepL.NetworkError e =>
    rs = map (fun _ =>
                AsyncDeepL.response [] source_lang false
                  (Some (u "Network Error: " ++ e)))
             texts
  | AsyncDeepL.SessionFailure e =>
    rs = map (fun _ => AsyncDeepL.response [] source_lang false (Some e))
             texts
  end.

(** Where an entry [rs] of the cache under [key] comes from, during a
    request that began in state [st]: it was in the cache then, or it is
    what a request made since for a batch with that key was answered. *)
Definition entry_from (py_hash : list str -> Z)
    (translate_api : nat -> list str -> str -> str -> AsyncDeepL.ApiOutcome)
    (source_lang target_lang : str) (st : AsyncDeepL.State)
    (batches : list (list (nat * str))) (key : str)
    (rs : list AsyncDeepL.TranslationResponse) : Prop :=
  AsyncDeepL.translation_cache st !! key = Some rs
  \/ exists b n,
       In b batches
       /\ AsyncDeepL.cache_key py_hash (map snd b) source_lang target_lang
          = key
       /\ AsyncDeepL.requests st <= n
       /\ answered source_lang
            (translate_api n (map snd b) source_lang target_lang)
            (map snd b) rs.

(** Where the responses [rs] that a batch [b] of a request gets come
    from: from the cache, or from a request made for it. *)
Definition served (py_hash : list str -> Z)
    (translate_api : nat -> list str -> str -> str -> AsyncDeepL.ApiOutcome)
    (source_lang target_lang : str) (st : AsyncDeepL.State)
    (batches : list (list (nat * str))) (b : list (nat * str))
    (rs : list AsyncDeepL.TranslationResponse) : Prop :=
  entry_from py_hash translate_api source_lang target_lang st batches
    (AsyncDeepL.cache_key py_hash (map snd b) source_lang target_lang) rs.

(** What the steps of a request that began in state [st] keep of the
    state: requests are only added, and every entry of the cache is
    accounted for. *)
Definition state_from (py_hash : list str -> Z)
    (translate_api : nat -> list str -> str -> str -> AsyncDeepL.ApiOutcome)
    (source_lang target_lang : str) (st : AsyncDeepL.State)
    (batches : list (list (nat * str))) (st' : AsyncDeepL.State) : Prop :=
  AsyncDeepL.requests st <= AsyncDeepL.requests st'
  /\ forall key rs,
       AsyncDeepL.translation_cache st' !! key = Some rs ->
       entry_from py_hash translate_api source_lang target_lang st batches
         key rs.

(** What holds of the tasks of a request between two steps of the event
    loop, for the batches [batches] of the request, a property [F] of a
    task in flight and a property [R] of the responses that a batch
    gets: every task has a place among the results and stands for the
    batch of its place; a task without a result waits or is in flight;
    a result belongs to the batch of its place and has the property. *)
Definition tasks_ok (batches : list (list (nat * str)))
    (F : AsyncDeepL.InFlight -> Prop)
    (R : list (nat * str) -> list AsyncDeepL.TranslationResponse -> Prop)
    (run : AsyncDeepL.Tasks) : Prop :=
  length (AsyncDeepL.finished run) = length batches
  /\ Forall (fun '(i, b) => batches !! i = Some b) (AsyncDeepL.waiting run)
  /\ Forall
       (fun f =>
          batches !! AsyncDeepL.task f = Some (AsyncDeepL.flight_batch f)
          /\ F f)
       (AsyncDeepL.in_flight run)
  /\ (forall i,
        AsyncDeepL.finished run !! i = Some None ->
        In i (map fst (AsyncDeepL.waiting run))
        \/ In i (map AsyncDeepL.task (AsyncDeepL.in_flight run)))
  /\ (forall i rs,
        AsyncDeepL.finished run !! i = Some (Some rs) ->
        exists b, batches !! i = Some b /\ R b rs).

(** The steps that the tasks of a request still have to take: two for
    a task that waits, one for a task in flight. *)
Definition pending (run : AsyncDeepL.Tasks) : nat :=
  2 * length (AsyncDeepL.waiting run) + length (AsyncDeepL.in_flight run).

(** What holds of a segment of line mode. *)
Definition line_segment_ok (seg : TextSegment) : Prop :=
  (segment_type seg = empty_line <-> content seg = [])
  /\ (content seg <> [] -> truthy (strip (content seg)) = true)
  /\ (LF ∉ content seg)
  /\ rstrip_chars [CR] (content seg) = content seg
  /\ (is_dialogue seg = true -> segment_type seg = dialogue)
  /\ (segment_type seg = system
      <-> is_system seg = true /\ is_dialogue seg = false)
  /\ (segment_type seg = empty_line ->
      character seg = None /\ is_dialogue seg = false
      /\ is_system seg = false).

(** What holds of a line kept in a paragraph, and of a segment of
    paragraph mode for a text of [n] lines. *)
Definition paragraph_line_ok (line : str) : Prop :=
  truthy line = true /\ strip line = line /\ (LF ∉ line).

Definition paragraph_segment_ok (n : nat) (seg : TextSegment) : Prop :=
  content seg <> []
  /\ Forall paragraph_line_ok (split_char LF (content seg))
  /\ segment_type seg <> empty_line
  /\ (segment_type seg = system <-> is_system seg = true)
  /\ (segment_type seg = dialogue
      <-> is_dialogue seg = true /\ is_system seg = false)
  /\ 1 <= line_number seg <= n.

(** The sum of the lengths of the contents of some segments. *)
Definition content_length (segments : list TextSegment) : nat :=
  list_sum (map (fun s => length (content s)) segments).

(** What holds of a translation unit cut for a budget of [max_length]
    characters. *)
Definition unit_ok (max_length : nat) (unit : TranslationUnit) : Prop :=
  unit_segments unit <> []
  /\ total_length unit = content_length (unit_segments unit)
  /\ unit_text unit = join [LF; LF] (map content (unit_segments unit))
  /\ (total_length unit <= max_length
      \/ length (unit_segments unit) = 1).

(** Greedy packing: a unit is closed only when the first segment of
    the next one would not fit. *)
Fixpoint greedy (max_length : nat) (units : list TranslationUnit) : Prop :=
  match units with
  | u1 :: rest =>
    match rest with
    | u2 :: _ =>
      (exists s, head (unit_segments u2) = Some s
                 /\ max_length < total_length u1 + length (content s))
      /\ greedy max_length rest
    | [] => True
    end
  | [] => True
  end.

(** A name that the removal of the characters [marks] and the stripping
    of white space leave whole: it holds none of the marks and neither
    starts nor ends with white space. *)
Definition clean_name (marks : str) (name : str) : bool :=
  forallb (fun c => negb (bool_decide (c ∈ marks))) name
  && match name with c :: _ => negb (isspace c) | [] => false end
  && match rev name with c :: _ => negb (isspace c) | [] => false end.

(** The tokens of a text for the token-overlap search: the words of the
    lowercased text, separated by whitespace. *)
Definition tokens (cs : Casing) (text : str) : list str :=
  split_ws (lower cs text).

(** The Jaccard index of two lists of tokens read as sets, as the
    specification names the similarity of the file search: the number
    of distinct tokens that occur in both lists over the number of
    distinct tokens that occur in either. It is stated on lists, apart
    from the sets that the search builds. *)
Definition jaccard_index (a b : list str) : Q :=
  let common := remove_dups (filter (fun w => w ∈ b) a) in
  let either := remove_dups (a ++ b) in
  Z.of_nat (length common) # Pos.of_nat (length either).

(** Two texts with the same tokens, in whatever order and however often
    repeated. *)
Definition same_tokens (cs : Casing) (a b : str) : Prop :=
  forall w, w ∈ tokens cs a <-> w ∈ tokens cs b.

(** The order of the search results: [a] comes before [b]. *)
Definition more_similar (a b : Memory.Similar) : Prop :=
  (Memory.similarity b <= Memory.similarity a)%Q.

(** What a lookup of [text] accepts as a partial match with a stored
    phrase: one lowercased text occurs in the other. *)
Definition partial_match (cs : Casing) (text phrase : str) : bool :=
  contains (lower cs text) (lower cs phrase)
  || contains (lower cs phrase) (lower cs text).

(** What the line number of an issue of the validator stands for: the
    line of the match for the checks that scan for phrases, the number
    of the sentence for the readability check, and nothing (zero) for
    the checks on the whole text. *)
Definition line_number_ok (text : str) (i : Validator.ValidationIssue)
  : Prop :=
  match Validator.issue_type i with
  | Validator.Archaism | Validator.Calque | Validator.FormalDialogue =>
    1 <= Validator.line_number i <= length (split_char LF text)
  | Validator.Readability =>
    1 <= Validator.line_number i
      <= length (re_split_class Validator.sentence_end text)
  | _ => Validator.line_number i = 0
  end.

(** Two lists of lines agree on which lines are blank, as far as both
    have lines. *)
Definition blank_agree (a b : list str) : Prop :=
  forall i x y, a !! i = Some x -> b !! i = Some y ->
    truthy (strip x) = truthy (strip y).

(** The key of a segment in the translator's own cache. *)
Definition cache_key (context : Translator.TranslationContext)
    (segment : TextSegment) : str :=
  content segment ++ u "_" ++ Translator.translation_style context.

(** A record of the store that carries a result of the translator. *)
Definition saved_as (context : Translator.TranslationContext)
    (result : Translator.TranslationResult)
    (record : Memory.TranslationData) : Prop :=
  Memory.td_source_text record = Translator.original_text result
  /\ Memory.td_target_text record = Translator.translated_text result
  /\ Memory.td_chapter record = Translator.chapter_number context.

(** The entry that [DeepLCache.set] writes at the time stamp [ts]. *)
Definition entry_of (text translation source_lang target_lang ts : str)
  : DeepL.CacheEntry :=
  {| DeepL.original_text := text; DeepL.translation := translation;
     DeepL.source_lang := source_lang; DeepL.target_lang := target_lang;
     DeepL.timestamp := ts; DeepL.text_length := length text |}.

(** What a batch answers when the service fails: the cached translation
    where there is one, the text itself elsewhere. *)
Definition cached_or_original (texts : list str)
    (cached : list (option str)) : list (option str) :=
  map (fun '(text, r) => Some (default text r)) (zip texts cached).

(** Every lookup counted by the cache is counted as a hit or as a
    miss. *)
Definition stats_balanced (s : DeepL.Stats) : Prop :=
  DeepL.total_requests s = DeepL.hits s + DeepL.misses s.

End Notions.

(** A clock, a digest, a reference base and a service to evaluate the
    model with. *)
Module Sample.

Definition time : Time := {|
  clock := fun n => Z.of_nat n;
  isoformat := fun t => u "T" ++ str_of_nat (Z.to_nat t);
  fromisoformat := fun _ => None
|}.

(** Stands for [md5]; the examples do not depend on the digest chosen. *)
Definition digest (s : str) : str := s.

Definition empty_store : Memory.Store :=
  {| Memory.memory_file := Some []; Memory.ticks := 0 |}.

Definition memory (s t c : str) : Memory.TranslationMemory :=
  {| Memory.source_text := s; Memory.target_text := t; Memory.chapter := c;
     Memory.character := None; Memory.context := None;
     Memory.quality_score := None; Memory.timestamp := None |}.

Definition no_reference_data : Memory.ReferenceData :=
  {| Memory.phrase_translations := None;
     Memory.glossary_terms := None;
     Memory.translation_errors := None;
     Memory.contextual_style_rules := None |}.

(** A translator whose service fails on every request. *)
Definition failing_env : Translator.Env :=
  {| Translator.cs := basic_casing;
     Translator.tm := time;
     Translator.md5_hexdigest := digest;
     Translator.translate_api := fun _ _ _ _ => None;
     Translator.max_age_hours := 24;
     Translator.translator_available := true;
     Translator.reference_data := no_reference_data;
     Translator.character_profiles := Detector._create_default_profiles;
     Translator.similarity_threshold := 85 # 100 |}.

Definition context : Translator.TranslationContext :=
  {| Translator.chapter_number := u "1";
     Translator.previous_chapters := [];
     Translator.main_characters := [];
     Translator.current_scene := [];
     Translator.emotional_tone := [];
     Translator.translation_style := u "modern_web_novel" |}.

Definition initial_state : Translator.State :=
  {| Translator.translation_cache := ∅;
     Translator.memory_file := Some [];
     Translator.deepl_cache := ∅;
     Translator.deepl_stats :=
       {| DeepL.hits := 0; DeepL.misses := 0; DeepL.total_requests := 0;
          DeepL.cache_size := 0 |};
     Translator.deepl_cache_file := None;
     Translator.api_calls := 0;
     Translator.ticks := 0 |}.

(** A store that holds one sentence. *)
Definition stored_sentence : Memory.TranslationData :=
  {| Memory.td_id := u "id";
     Memory.td_source_text := u "Jiang Chen looked at the mountain";
     Memory.td_target_text := u "Цзян Чэнь посмотрел на гору";
     Memory.td_chapter := u "1";
     Memory.td_character := None;
     Memory.td_context := None;
     Memory.td_quality_score := None;
     Memory.td_timestamp := u "T0" |}.

Definition sentence_store : Memory.Store :=
  {| Memory.memory_file := Some [stored_sentence]; Memory.ticks := 0 |}.

(** The weights named in the comments of [_calculate_quality_scores]
    (30%, 25%, 25%, 20%), thresholds and a list of banned archaisms. *)
Definition quality_metrics : list (str * Q) :=
  [ (u "dialogue_naturalness", 30 # 100);
    (u "terminology_consistency", 25 # 100);
    (u "character_voice", 25 # 100);
    (u "cultural_adaptation", 20 # 100) ].

Definition min_quality_thresholds : list (str * Q) :=
  [ (u "dialogue_naturalness", 80 # 1);
    (u "terminology_consistency", 90 # 1);
    (u "character_voice", 80 # 1);
    (u "cultural_adaptation", 75 # 1) ].

Definition banned_archaisms : list str :=
  [u "сей"; u "дабы"; u "ибо"; u "весьма"; u "отнюдь"].

(** A service that answers every request with one translation per
    text, except the second request, which it refuses. *)
Definition flaky_api (n : nat) (texts : list str) (source_lang target_lang : str)
  : AsyncDeepL.ApiOutcome :=
  if (n =? 1)%nat then AsyncDeepL.HttpError 429 (u "Too many requests")
  else AsyncDeepL.Ok200
         (map (fun t =>
                 {| AsyncDeepL.item_text := Some (u "[RU] " ++ t);
                    AsyncDeepL.item_detected_source_language := None |})
              texts).

(** A service that answers every request with status 200 and a body
    that holds no translation. *)
Definition short_api (n : nat) (texts : list str) (source_lang target_lang : str)
  : AsyncDeepL.ApiOutcome :=
  AsyncDeepL.Ok200 [].

(** A service that answers the first request with one translation per
    text and every later request with a body that holds none. *)
Definition tiring_api (n : nat) (texts : list str)
    (source_lang target_lang : str) : AsyncDeepL.ApiOutcome :=
  if (n =? 0)%nat
  then AsyncDeepL.Ok200
         (map (fun t =>
                 {| AsyncDeepL.item_text := Some (u "[RU] " ++ t);
                    AsyncDeepL.item_detected_source_language := None |})
              texts)
  else AsyncDeepL.Ok200 [].

(** The default number of permits of the semaphore. *)
Definition permits : positive := 10.

(** Two event loops: one always answers the oldest request in flight,
    the other the second oldest when there is one. *)
Definition in_turn : nat -> nat := fun _ => 0.

Definition out_of_turn : nat -> nat := fun _ => 1.

(** Stands for [hash]: a polynomial hash of the texts. *)
Definition hash_of (texts : list str) : Z :=
  fold_left (fun h c => ((h * 31 + Z.of_N c + 1) mod 1000003)%Z)
    (concat (map (fun t => t ++ [0%N]) texts)) 7%Z.

Definition async_state : AsyncDeepL.State :=
  {| AsyncDeepL.translation_cache := ∅;
     AsyncDeepL.stats :=
       {| AsyncDeepL.total_translations := 0; AsyncDeepL.cache_hits := 0;
          AsyncDeepL.api_calls := 0; AsyncDeepL.total_time := 0;
          AsyncDeepL.errors := 0 |};
     AsyncDeepL.requests := 0;
     AsyncDeepL.ticks := 0 |}.

(** A clock that counts seconds, prints them in decimal and reads them
    back. *)
Fixpoint parse_digits (acc : Z) (s : str) : option Z :=
  match s with
  | [] => Some acc
  | c :: r =>
    if ((48 <=? c) && (c <=? 57))%N
    then parse_digits (10 * acc + (Z.of_N c - 48))%Z r
    else None
  end.

Definition parse_decimal (s : str) : option Z :=
  match s with
  | [] => None
  | _ => parse_digits 0 s
  end.

Definition seconds : Time := {|
  clock := fun n => Z.of_nat n;
  isoformat := fun t => str_of_nat (Z.to_nat t);
  fromisoformat := parse_decimal
|}.

Definition cache_state : DeepL.CacheState :=
  {| DeepL.cache := ∅;
     DeepL.stats :=
       {| DeepL.hits := 0; DeepL.misses := 0; DeepL.total_requests := 0;
          DeepL.cache_size := 0 |};
     DeepL.cache_file := None;
     DeepL.api_calls := 0;
     DeepL.ticks := 0 |}.

(** The stand-in of the service used by the repository's own test of
    the cache: every text comes back behind a marker. *)
Definition mock_translate : nat -> str -> str -> str -> option str :=
  fun _ text _ _ => Some (u "[RU] " ++ text).

Definition mock_translate_many
  : nat -> list str -> str -> str -> option (list str) :=
  fun _ texts _ _ => Some (map (fun text => u "[RU] " ++ text) texts).

(** A service that is down. *)
Definition no_service : nat -> str -> str -> str -> option str :=
  fun _ _ _ _ => None.

Definition no_service_many
  : nat -> list str -> str -> str -> option (list str) :=
  fun _ _ _ _ => None.

End Sample.

Import Notions.

(** * The string primitives on examples *)

Example utf8_literal : u "сей" = [1089; 1077; 1081]%N.
Proof. reflexivity. Qed.

Example split_example : split_char LF (u "a
b") = [u "a"; u "b"].
Proof. reflexivity. Qed.

Example replace_empty_old : replace [] (u "x") (u "abc") = u "xaxbxcx".
Proof. reflexivity. Qed.

Example replace_example : replace (u "aa") (u "b") (u "aaaaa") = u "bba".
Proof. reflexivity. Qed.

Example count_example :
  count (u "aa") (u "aaaaa") = 2 /\ count [] (u "abc") = 4
  /\ occurrences_by N.eqb (u "aa") (u "aaaaa") = [0; 2].
Proof. repeat split. Qed.

Example strip_example :
  strip (u "  a b ") = u "a b" /\ rstrip_chars [CR] (u "a" ++ [CR; CR]) = u "a".
Proof. repeat split. Qed.

Example split_ws_example : split_ws (u "  a  bc d ") = [u "a"; u "bc"; u "d"].
Proof. reflexivity. Qed.

Example re_split_example :
  re_split_class (fun c => bool_decide (c ∈ u ".!?")) (u "a.b!?c.")
  = [u "a"; u "b"; u "c"; []].
Proof. reflexivity. Qed.

Example str_of_nat_example :
  str_of_nat 1203 = u "1203" /\ str_of_nat 0 = u "0"
  /\ AsyncDeepL.str_of_Z (-9223372036854775808) = u "-9223372036854775808".
Proof. vm_compute. repeat split. Qed.

(** * Properties of the segmenter *)

Section SegmenterFacts.

Import Splitter.

Lemma split_char_cons c s : exists h t, split_char c s = h :: t.
Proof.
  induction s as [|x r IH]; simpl; [by eauto|].
  destruct (x =? c)%N; [by eauto|].
  destruct IH as (h & t & ->). by eauto.
Qed.

(** Joining the pieces of a split on their separator gives the text back:
    [c.join(s.split(c)) == s]. *)
Lemma join_split_char c s : join [c] (split_char c s) = s.
Proof.
  induction s as [|x r IH]; [done|].
  simpl. destruct (N.eqb_spec x c) as [->|Hne].
  - destruct (split_char_cons c r) as (h & t & E).
    rewrite E in IH |- *. simpl in IH |- *. by rewrite IH.
  - destruct (split_char_cons c r) as (h & t & E).
    rewrite E in IH |- *. destruct t; simpl in *; by rewrite <- IH.
Qed.

Lemma detect_segment_type_nonblank line :
  truthy (strip line) = true -> _detect_segment_type line ≠ empty_line.
Proof.
  intros H. unfold _detect_segment_type. rewrite H. simpl.
  repeat case_match; discriminate.
Qed.

Lemma emit_segment_of_line i line :
  emit (segment_of_line i line) = normalize_line line.
Proof.
  unfold segment_of_line, normalize_line, emit.
  destruct (truthy (strip (rstrip_chars [CR] line))) eqn:E; simpl; [|done].
  unfold str_eqb. case_bool_decide as Hnl; simpl.
  - rewrite Hnl in E. discriminate.
  - pose proof (detect_segment_type_nonblank _ E) as Hty.
    destruct (_detect_segment_type (rstrip_chars [CR] line)); done.
Qed.

Lemma map_emit_enumerate start lines :
  map emit (map (fun '(i, line) => segment_of_line i line)
              (enumerate_from start lines))
  = map normalize_line lines.
Proof.
  revert start. induction lines as [|l r IH]; intros start; [done|].
  simpl. by rewrite emit_segment_of_line, IH.
Qed.

(** Segmenting and reassembling normalises every line and changes
    nothing else. *)
Lemma reassemble_split_by_lines text :
  reassemble (split_by_lines text)
  = join [LF] (map normalize_line (split_char LF text)).
Proof. unfold reassemble, split_by_lines. by rewrite map_emit_enumerate. Qed.

Lemma map_preserved lines :
  forallb line_preserved lines = true -> map normalize_line lines = lines.
Proof.
  induction lines as [|l r IH]; [done|].
  simpl. intros [Hl Hr]%andb_true_iff.
  unfold line_preserved, str_eqb in Hl. apply bool_decide_eq_true_1 in Hl.
  by rewrite Hl, IH.
Qed.

(** C1 (amended): for every chapter text whose lines carry no trailing
    carriage return and are not made of whitespace only (empty lines
    apart), segmenting it in line-preserving mode and reassembling the
    segments in source order reconstructs the text exactly. *)
Theorem split_by_lines_roundtrip text :
  forallb line_preserved (split_char LF text) = true ->
  reassemble (split_by_lines text) = text.
Proof.
  intros H. rewrite reassemble_split_by_lines, (map_preserved _ H).
  apply join_split_char.
Qed.

Lemma split_by_lines_roundtrip_witness :
  forallb line_preserved (split_char LF (u "Line one

Line two")) = true
  /\ reassemble (split_by_lines (u "Line one

Line two")) = u "Line one

Line two".
Proof.
  split; [reflexivity|].
  apply split_by_lines_roundtrip. reflexivity.
Defined.

(** C1 (as stated) fails on a text with Windows line ends: the carriage
    return of the first line is lost. *)
Lemma split_by_lines_roundtrip_counterexample :
  reassemble (split_by_lines (u "a" ++ [CR; LF] ++ u "b"))
  <> u "a" ++ [CR; LF] ++ u "b".
Proof. vm_compute. discriminate. Qed.

(** A line of spaces comes back empty. *)
Example blank_line_not_preserved :
  reassemble (split_by_lines (u "a
  
b")) = u "a

b".
Proof. reflexivity. Qed.

(** The scenario of the specification: three segments, numbered 1, 2, 3. *)
Example split_by_lines_scenario :
  map (fun s => (content s, segment_type s, line_number s))
    (split_by_lines (u "Line one

Line two"))
  = [ (u "Line one", description, 1); ([], empty_line, 2);
      (u "Line two", description, 3) ].
Proof. reflexivity. Qed.

End SegmenterFacts.

(** * Properties of the character classifier *)

Section ClassifierFacts.

Import Detector.

Lemma find_split {A} (f : A -> bool) (l : list A) (x : A) :
  List.find f l = Some x ->
  exists pre post,
    l = pre ++ x :: post /\ f x = true /\ Forall (fun y => f y = false) pre.
Proof.
  induction l as [|y r IH]; simpl; [discriminate|].
  destruct (f y) eqn:E.
  - intros [= ->]. exists [], r. by repeat split.
  - intros (pre & post & -> & Hx & Hpre)%IH.
    exists (y :: pre), post. repeat split; [done|by constructor].
Qed.

Lemma find_is_Some {A} (f : A -> bool) (l : list A) (x : A) :
  In x l -> f x = true -> exists y, List.find f l = Some y.
Proof.
  intros Hin Hx. destruct (List.find f l) as [y|] eqn:E; [by eauto|].
  by rewrite (find_none f l E x Hin) in Hx.
Qed.

Variable cs : Casing.
Variable character_profiles : Profiles.

(** A text in which an alias occurs is resolved by the first loop. *)
Lemma detect_by_name text name c :
  List.find (fun '(name, _) => contains name text) name_patterns
    = Some (name, c) ->
  detect_character_from_text cs character_profiles text = (c, 1.0%float).
Proof. intros H. unfold detect_character_from_text. by rewrite H. Qed.

(** C8: a text that contains a known alias is attributed to a character
    named in it with confidence exactly 1.0, whatever system-pattern,
    speech-style or keyword signals the text carries and whatever the
    profiles are.  The answer is the canonical label of the first alias,
    in the order of [name_patterns], that occurs in the text; so when
    the aliases that occur in the text name one character, as in a text
    containing "Jiang Chen", that character is the answer. *)
Theorem detect_alias_first_match text alias c :
  In (alias, c) name_patterns ->
  contains alias text = true ->
  exists pre name c' post,
    name_patterns = pre ++ (name, c') :: post
    /\ contains name text = true
    /\ Forall (fun '(n, _) => contains n text = false) pre
    /\ detect_character_from_text cs character_profiles text
       = (c', 1.0%float)
    /\ ((forall n d, In (n, d) name_patterns ->
           contains n text = true -> d = c) -> c' = c).
Proof.
  intros Hin Hc.
  destruct (find_is_Some (fun '(name, _) => contains name text)
              name_patterns (alias, c) Hin Hc) as [[name c'] Hfind].
  destruct (find_split _ _ _ Hfind) as (pre & post & Hsplit & Hname & Hpre).
  exists pre, name, c', post. repeat split; try done.
  - eapply Forall_impl; [exact Hpre|]. by intros [n d].
  - by apply detect_by_name with name.
  - intros Hall. apply (Hall name c'); [|done].
    rewrite Hsplit. apply in_or_app. right. by left.
Qed.

End ClassifierFacts.

Lemma detect_alias_first_match_witness :
  In (u "Elder", Detector.ELDER) Detector.name_patterns
  /\ contains (u "Elder") (u "Elder Jiang Chen") = true
  /\ exists pre name c' post,
       Detector.name_patterns = pre ++ (name, c') :: post
       /\ contains name (u "Elder Jiang Chen") = true
       /\ Forall (fun '(n, _) => contains n (u "Elder Jiang Chen") = false) pre
       /\ Detector.detect_character_from_text basic_casing
            Detector._create_default_profiles (u "Elder Jiang Chen")
          = (c', 1.0%float)
       /\ ((forall n d, In (n, d) Detector.name_patterns ->
              contains n (u "Elder Jiang Chen") = true -> d = Detector.ELDER)
           -> c' = Detector.ELDER).
Proof.
  assert (Hin : In (u "Elder", Detector.ELDER) Detector.name_patterns).
  { unfold Detector.name_patterns. simpl. tauto. }
  split; [exact Hin|]. split; [reflexivity|].
  apply (detect_alias_first_match basic_casing
           Detector._create_default_profiles (u "Elder Jiang Chen")
           (u "Elder") Detector.ELDER Hin).
  reflexivity.
Defined.

(** Aliases of two characters in one text: the alias declared first in
    [name_patterns] decides, here "Jiang Chen" before "Elder". *)
Example detect_two_aliases :
  Detector.detect_character_from_text basic_casing
    Detector._create_default_profiles (u "Elder Jiang Chen")
  = (Detector.JIANG_CHEN, 1.0%float).
Proof. reflexivity. Qed.

(** The scenario of the specification: any text containing "Jiang Chen"
    is attributed to Jiang Chen with confidence 1.0. *)
Lemma detect_jiang_chen cs profiles text :
  contains (u "Jiang Chen") text = true ->
  Detector.detect_character_from_text cs profiles text
  = (Detector.JIANG_CHEN, 1.0%float).
Proof.
  intros H. unfold Detector.detect_character_from_text.
  unfold Detector.name_patterns. simpl List.find.
  destruct (contains (u "Цзян Чэнь") text); [done|].
  by rewrite H.
Qed.

Section SpeechStyleFacts.

Import Detector.

Variable cs : Casing.
Variable character_profiles : Profiles.

(** Without an alias and without a system pattern, the answer of the
    speech-style step, when there is one, is the answer of the
    classifier. *)
Lemma detect_by_style text answer :
  List.find (fun '(name, _) => contains name text) name_patterns = None ->
  existsb (fun p => Splitter.re_search_by (ci_eqb cs) p text) system_patterns
    = false ->
  _analyze_speech_style cs character_profiles text = Some answer ->
  detect_character_from_text cs character_profiles text = answer.
Proof.
  intros Hname Hsys Hstyle. unfold detect_character_from_text.
  by rewrite Hname, Hsys, Hstyle.
Qed.

(** A speech-style answer always lies strictly above the 0.3 floor. *)
Lemma speech_style_above_floor text m s :
  _analyze_speech_style cs character_profiles text = Some (m, s) ->
  PrimFloat.ltb 0.3 s = true.
Proof.
  unfold _analyze_speech_style.
  destruct (fold_left _ _ _) as [[b|] bs]; [|discriminate].
  destruct (PrimFloat.ltb 0.3 bs) eqn:E; [|discriminate].
  by intros [= _ <-].
Qed.

Lemma best_profile_fold (text : str) (l : Profiles)
    (acc : option CharacterType * float) :
  (forall x, In x l -> In x character_profiles) ->
  (fst acc = None
   \/ exists char_type profile,
        In (char_type, profile) character_profiles
        /\ acc = (Some char_type, profile_style_score cs text profile)) ->
  let best :=
    fold_left
      (fun '(best_match, best_score) '(char_type, profile) =>
         let score := profile_style_score cs text profile in
         if PrimFloat.ltb best_score score
         then (Some char_type, score)
         else (best_match, best_score))
      l acc in
  fst best = None
  \/ exists char_type profile,
       In (char_type, profile) character_profiles
       /\ best = (Some char_type, profile_style_score cs text profile).
Proof.
  revert acc. induction l as [|[char_type profile] r IH]; intros acc Hsub Hacc.
  - exact Hacc.
  - simpl. apply IH; [by intros x Hx; apply Hsub; right|].
    destruct acc as [best_match best_score].
    destruct (PrimFloat.ltb best_score _).
    + right. exists char_type, profile. split; [|done]. apply Hsub. by left.
    + exact Hacc.
Qed.

(** The confidence of a speech-style answer is the score of the winning
    profile itself. *)
Lemma speech_style_returns_score text m s :
  _analyze_speech_style cs character_profiles text = Some (m, s) ->
  exists profile,
    In (m, profile) character_profiles
    /\ s = profile_style_score cs text profile.
Proof.
  unfold _analyze_speech_style.
  pose proof (best_profile_fold text character_profiles (None, 0.0%float)
                (fun x H => H) (or_introl eq_refl)) as Hbest.
  simpl in Hbest.
  destruct (fold_left _ _ _) as [[b|] bs]; [|discriminate].
  destruct Hbest as [Hnone|(ct & profile & Hin & [= -> ->])]; [discriminate|].
  destruct (PrimFloat.ltb 0.3 _); [|discriminate].
  intros [= <- <-]. by exists profile.
Qed.

End SpeechStyleFacts.

(** C9: the speech-style step returns the winning score itself, without a
    cap. The text below matches no alias and no system pattern; with the
    default profiles it matches the three speech patterns and one
    preferred word of Jiang Chen, and the confidence returned is
    0.2 + 0.3 + 0.3 + 0.3 = 1.1, above 1.0. *)
Theorem speech_style_confidence_uncapped :
  let text := u "Дай мне! Можешь? Хочу круто." in
  List.find (fun '(name, _) => contains name text) Detector.name_patterns
    = None
  /\ existsb (fun p => Splitter.re_search_by (ci_eqb basic_casing) p text)
       Detector.system_patterns = false
  /\ Detector._analyze_speech_style basic_casing
       Detector._create_default_profiles text
     = Some (Detector.JIANG_CHEN, 1.1%float)
  /\ Detector.detect_character_from_text basic_casing
       Detector._create_default_profiles text
     = (Detector.JIANG_CHEN, 1.1%float)
  /\ PrimFloat.ltb 1.0 1.1 = true.
Proof. vm_compute. repeat split. Qed.


(** * Properties of the translation memory store *)

Section SimilarityFacts.

Import Memory.

Variable cs : Casing.

Lemma Zpos_of_nat n : n <> 0 -> Z.pos (Pos.of_nat n) = Z.of_nat n.
Proof.
  intros H. rewrite <- (Nat2Pos.id n H) at 2. by rewrite positive_nat_Z.
Qed.

Lemma jaccard_bounds (a b : gset str) : (0 <= jaccard a b <= 1)%Q.
Proof.
  assert (Hle : size (a ∩ b) <= size (a ∪ b)).
  { apply subseteq_size. set_solver. }
  unfold jaccard, Qle. simpl. split; [lia|].
  destruct (size (a ∪ b)) as [|k] eqn:E.
  - simpl. lia.
  - rewrite Zpos_of_nat by done. lia.
Qed.

Lemma jaccard_sym (a b : gset str) : jaccard a b = jaccard b a.
Proof.
  unfold jaccard.
  by rewrite (comm_L (∩) a b), (comm_L (∪) a b).
Qed.

Lemma jaccard_self (a : gset str) : a ≠ ∅ -> (jaccard a a == 1)%Q.
Proof.
  intros Hne. unfold jaccard.
  rewrite (idemp_L (∩) a), (idemp_L (∪) a).
  assert (size a <> 0) as Hsz.
  { intros H. apply size_empty_inv in H. apply Hne. by apply leibniz_equiv. }
  unfold Qeq. simpl. rewrite Zpos_of_nat by done. lia.
Qed.

(** The token set forgets the order and the repetitions of the words. *)
Lemma word_set_same_tokens a b :
  (forall w, w ∈ split_ws (lower cs a) <-> w ∈ split_ws (lower cs b)) ->
  word_set cs a = word_set cs b.
Proof.
  intros H. unfold word_set. apply set_eq. intros w.
  by rewrite !elem_of_list_to_set.
Qed.

Lemma set_nonempty_true (a : gset str) : a ≠ ∅ -> set_nonempty a = true.
Proof.
  intros Hne. unfold set_nonempty.
  destruct (size a) eqn:E; [|done].
  apply size_empty_inv in E. destruct Hne. by apply leibniz_equiv.
Qed.

Lemma similar_of_similarity text threshold item s :
  similar_of cs text threshold item = Some s ->
  similarity s = jaccard (word_set cs text) (word_set cs (td_source_text item))
  /\ sim_source_text s = td_source_text item
  /\ sim_target_text s = td_target_text item.
Proof.
  unfold similar_of.
  destruct (_ && _); [|discriminate].
  destruct (Qle_bool _ _); [|discriminate].
  by intros [= <-].
Qed.

Lemma in_insert_desc x y l : In y (insert_desc x l) -> y = x \/ In y l.
Proof.
  induction l as [|z r IH]; simpl; [naive_solver|].
  destruct (Qle_bool _ _); simpl; naive_solver.
Qed.

Lemma in_sort_desc y l : In y (sort_desc l) -> In y l.
Proof.
  induction l as [|x r IH]; simpl; [tauto|].
  intros [->|H]%in_insert_desc; [tauto|]. right. by apply IH.
Qed.

Lemma in_take {A} n (l : list A) x : In x (take n l) -> In x l.
Proof.
  revert n. induction l as [|y r IH]; intros [|n]; simpl; try tauto.
  intros [->|H]; [tauto|]. right. by apply (IH n).
Qed.

(** Every entry returned by the search comes from a stored record and
    carries the Jaccard index of the two token sets. *)
Lemma find_similar_entries text threshold max_results st s :
  In s (_find_similar_file_system cs text threshold max_results st) ->
  exists data item,
    memory_file st = Some data /\ In item data
    /\ similar_of cs text threshold item = Some s.
Proof.
  unfold _find_similar_file_system.
  destruct (memory_file st) as [data|]; [|done].
  intros H. exists data.
  assert (In s (omap (similar_of cs text threshold) data)) as Hin.
  { by apply in_sort_desc, in_take with max_results. }
  apply list_elem_of_In, list_elem_of_omap in Hin as (item & Hitem & Hs).
  exists item. split; [done|]. split; [by apply list_elem_of_In|done].
Qed.

End SimilarityFacts.

(** A stored sentence is found again, with similarity 1, from a query
    that reorders and repeats its words. *)
Example reordered_query_matches :
  map (fun s => (Memory.sim_target_text s, Memory.similarity s))
    (Memory.find_similar basic_casing
       (u "the mountain Jiang Chen LOOKED at the the mountain") (1 # 1) 5
       {| Memory.memory_file :=
            Some [ {| Memory.td_id := u "id";
                      Memory.td_source_text :=
                        u "Jiang Chen looked at the mountain";
                      Memory.td_target_text := u "Цзян Чэнь посмотрел на гору";
                      Memory.td_chapter := u "1";
                      Memory.td_character := None;
                      Memory.td_context := None;
                      Memory.td_quality_score := None;
                      Memory.td_timestamp := u "T0" |} ];
          Memory.ticks := 0 |})
  = [ (u "Цзян Чэнь посмотрел на гору", 6 # 6) ].
Proof. vm_compute. reflexivity. Qed.

Section InsertFacts.

Import Memory.

Variable tm : Time.
Variable md5_hexdigest : str -> str.

Lemma add_to_file_system_appends (m : TranslationMemory) data t :
  exists ts t',
    add_translation tm md5_hexdigest m
      {| memory_file := Some data; ticks := t |}
    = (md5_hexdigest (source_text m ++ u "_" ++ chapter m),
       {| memory_file :=
            Some (data ++
              [ {| td_id := md5_hexdigest (source_text m ++ u "_" ++ chapter m);
                   td_source_text := source_text m;
                   td_target_text := target_text m;
                   td_chapter := chapter m;
                   td_character := character m;
                   td_context := context m;
                   td_quality_score := quality_score m;
                   td_timestamp := ts |} ]);
          ticks := t' |}).
Proof.
  unfold add_translation, _add_to_file_system, bind, get, modify, ret. simpl.
  unfold timestamp_or_now.
  destruct (timestamp m) as [[|c r]|]; simpl; eauto.
Qed.

(** C2 (amended): with the file backend, inserting a record for
    (source text, chapter) and then a second one for the same key appends
    both: the two inserts return the same identifier, derived from the
    key, and the store then holds, behind its earlier records, the first
    record followed by the second, each with its own target text. *)
Theorem insert_twice_appends_both (m1 m2 : TranslationMemory) data t :
  source_text m1 = source_text m2 ->
  chapter m1 = chapter m2 ->
  exists id r1 r2 t',
    (do id1 <- add_translation tm md5_hexdigest m1;
     do id2 <- add_translation tm md5_hexdigest m2;
     ret (id1, id2)) {| memory_file := Some data; ticks := t |}
    = ((id, id), {| memory_file := Some (data ++ [r1; r2]); ticks := t' |})
    /\ id = md5_hexdigest (source_text m1 ++ u "_" ++ chapter m1)
    /\ td_id r1 = id /\ td_id r2 = id
    /\ td_source_text r1 = source_text m1
    /\ td_source_text r2 = source_text m1
    /\ td_chapter r1 = chapter m1 /\ td_chapter r2 = chapter m1
    /\ td_target_text r1 = target_text m1
    /\ td_target_text r2 = target_text m2
    /\ length (records_for (source_text m1) (chapter m1) (data ++ [r1; r2]))
       = length (records_for (source_text m1) (chapter m1) data) + 2.
Proof.
  intros Hs Hc.
  destruct (add_to_file_system_appends m1 data t) as (ts1 & t1 & E1).
  unfold bind at 1. rewrite E1.
  match type of E1 with _ = (_, {| memory_file := Some ?d; ticks := _ |}) =>
    destruct (add_to_file_system_appends m2 d t1) as (ts2 & t2 & E2)
  end.
  unfold bind at 1. rewrite E2. unfold ret.
  rewrite <- Hs, <- Hc, <- app_assoc. simpl.
  do 4 eexists. split; [reflexivity|]. simpl.
  repeat split; try done.
  unfold records_for. rewrite List.filter_app, length_app. simpl.
  unfold str_eqb. rewrite !bool_decide_eq_true_2 by done. done.
Qed.

End InsertFacts.

Lemma insert_twice_appends_both_witness :
  exists id r1 r2 t',
    (do id1 <- Memory.add_translation Sample.time Sample.digest
                 (Sample.memory (u "Hello") (u "Привет") (u "1"));
     do id2 <- Memory.add_translation Sample.time Sample.digest
                 (Sample.memory (u "Hello") (u "Здравствуй") (u "1"));
     ret (id1, id2)) Sample.empty_store
    = ((id, id),
       {| Memory.memory_file := Some ([] ++ [r1; r2]); Memory.ticks := t' |})
    /\ Memory.td_target_text r1 = u "Привет"
    /\ Memory.td_target_text r2 = u "Здравствуй".
Proof.
  destruct (insert_twice_appends_both Sample.time Sample.digest
              (Sample.memory (u "Hello") (u "Привет") (u "1"))
              (Sample.memory (u "Hello") (u "Здравствуй") (u "1"))
              [] 0 eq_refl eq_refl)
    as (id & r1 & r2 & t' & E & _ & _ & _ & _ & _ & _ & _ & H1 & H2 & _).
  exists id, r1, r2, t'. repeat split; assumption.
Defined.

(** C2 (as stated) fails: after the two inserts the store holds two
    records for the key, the first of them with the first target text,
    not a single record. *)
Lemma insert_twice_counterexample :
  exists data,
    Memory.memory_file
      (snd ((do_ Memory.add_translation Sample.time Sample.digest
                   (Sample.memory (u "Hello") (u "Привет") (u "1"));
             Memory.add_translation Sample.time Sample.digest
               (Sample.memory (u "Hello") (u "Здравствуй") (u "1")))
              Sample.empty_store))
    = Some data
    /\ map Memory.td_target_text (records_for (u "Hello") (u "1") data)
       = [u "Привет"; u "Здравствуй"]
    /\ ~ (exists r, records_for (u "Hello") (u "1") data = [r]
                    /\ Memory.td_target_text r = u "Здравствуй").
Proof.
  eexists. split; [vm_compute; reflexivity|].
  split; [reflexivity|].
  intros (r & H & _). vm_compute in H. discriminate H.
Qed.

(** * Properties of the segment resolver *)

Section QualityScoreFacts.

Import Translator.

Variable env : Env.

Lemma fold_left_penalty {A} (p : A -> bool) (f : Z -> Z) (d : Z)
    (l : list A) (s : Z) :
  (forall z, f z = (z + d)%Z) ->
  fold_left (fun score x => if p x then f score else score) l s
  = (s + d * Z.of_nat (length (List.filter p l)))%Z.
Proof.
  intros Hf. revert s. induction l as [|x r IH]; intros s; simpl; [lia|].
  rewrite IH. destruct (p x); simpl; [rewrite Hf|]; lia.
Qed.

(** C4: for every text, of any length, the quality score is 80, minus 20
    if the text is shorter than 10 characters, minus 10 if it is longer
    than 500, minus 5 per detected archaism, plus 2 per detected
    natural-dialogue marker, clamped to [0,100]; it always lies in
    [0,100]. *)
Theorem quality_score_formula (text : str) :
  _calculate_quality_score env text
  = Z.max 0
      (Z.min 100
         (80 - (if (length text <? 10)%nat then 20 else 0)
             - (if (500 <? length text)%nat then 10 else 0)
             - 5 * Z.of_nat (length (detected_archaisms (cs env) text))
             + 2 * Z.of_nat (length (detected_natural_patterns text))))%Z
  /\ (0 <= _calculate_quality_score env text <= 100)%Z.
Proof.
  split; [|unfold _calculate_quality_score; lia].
  unfold _calculate_quality_score, detected_archaisms,
    detected_natural_patterns.
  rewrite (fold_left_penalty (fun pattern => contains pattern text)
             (fun z => (z + 2)%Z) 2) by done.
  rewrite (fold_left_penalty
             (fun archaism => contains archaism (lower (cs env) text))
             (fun z => (z - 5)%Z) (-5)) by (intros; lia).
  destruct (Nat.ltb_spec (length text) 10), (Nat.ltb_spec 500 (length text));
    f_equal; f_equal; lia.
Qed.

End QualityScoreFacts.

(** The empty text and a text of 10,001 characters. *)
Example quality_score_empty :
  Translator._calculate_quality_score Sample.failing_env [] = 60%Z.
Proof. reflexivity. Qed.

Example quality_score_long :
  Translator._calculate_quality_score Sample.failing_env
    (List.repeat 97%N (100 * 100 + 1)) = 70%Z.
Proof. vm_compute. reflexivity. Qed.

Section ResolverFacts.

Import Translator.

Variable env : Env.
Variable context : TranslationContext.

(** The first rule: an empty segment is answered at once. *)
Lemma translate_segment_empty (segment : Splitter.TextSegment) st :
  is_empty_segment segment = true ->
  _translate_segment env segment context st
  = ({| original_text := Splitter.content segment; translated_text := [];
        translator := u "Empty_Line"; confidence := 1;
        context_used := false; memory_hit := false;
        quality_score := 100;
        timestamp := isoformat (tm env) (clock (tm env) (ticks st)) |},
     set_ticks (S (ticks st)) st).
Proof. intros H. unfold _translate_segment. by rewrite H. Qed.

(** Saving appends one record to a readable store. *)
Lemma save_to_memory_appends segment result st data :
  memory_file st = Some data ->
  exists rec st',
    _save_to_memory env segment result context st = (tt, st')
    /\ memory_file st' = Some (data ++ [rec])
    /\ Memory.td_source_text rec = Splitter.content segment
    /\ Memory.td_target_text rec = translated_text result
    /\ translation_cache st' = translation_cache st.
Proof.
  intros Hfile. unfold _save_to_memory, bind, zoom, ret.
  set (m := {| Memory.source_text := _ |}).
  destruct (add_to_file_system_appends (tm env) (md5_hexdigest env) m
              data (ticks st)) as (ts & t' & E).
  unfold store_of. rewrite Hfile, E. simpl.
  eexists _, _. split; [reflexivity|]. simpl. by repeat split.
Qed.

(** C5: an empty-line segment is answered unchanged with confidence 1.0,
    yet the loop of [translate_with_context] then saves it like any
    other segment: the store gains a record for it. *)
Theorem empty_line_segment_is_saved (segment : Splitter.TextSegment) st data :
  Splitter.segment_type segment = Splitter.empty_line ->
  memory_file st = Some data ->
  exists result rec st',
    translate_and_save env context segment st = (result, st')
    /\ original_text result = Splitter.content segment
    /\ translated_text result = []
    /\ confidence result = 1%Q
    /\ memory_file st' = Some (data ++ [rec])
    /\ Memory.td_source_text rec = Splitter.content segment
    /\ Memory.td_target_text rec = []
    /\ memory_file st' <> memory_file st.
Proof.
  intros Hty Hfile.
  assert (is_empty_segment segment = true) as Hempty.
  { unfold is_empty_segment. by rewrite Hty. }
  unfold translate_and_save, bind at 1.
  rewrite (translate_segment_empty _ _ Hempty).
  set (result := {| original_text := _ |}).
  destruct (save_to_memory_appends segment result
              (set_ticks (S (ticks st)) st) data Hfile)
    as (rec & st' & E & Hmem & Hsrc & Htgt & _).
  unfold bind. rewrite E. unfold ret.
  exists result, rec, st'. repeat split; try done.
  rewrite Hmem, Hfile. intros [= H].
  apply (f_equal length) in H. rewrite length_app in H. simpl in H. lia.
Qed.

End ResolverFacts.

Lemma empty_line_segment_is_saved_witness :
  exists result rec st',
    Translator.translate_and_save Sample.failing_env Sample.context
      (Splitter.segment_of_line 1 []) Sample.initial_state = (result, st')
    /\ Translator.translated_text result = []
    /\ Translator.memory_file st' = Some ([] ++ [rec])
    /\ Memory.td_source_text rec = [].
Proof.
  destruct (empty_line_segment_is_saved Sample.failing_env Sample.context
              (Splitter.segment_of_line 1 []) Sample.initial_state []
              eq_refl eq_refl)
    as (result & rec & st' & E & _ & Ht & _ & Hm & Hs & _).
  exists result, rec, st'. repeat split; assumption.
Defined.

(** The chapter "a", blank line, "b" read from the store afterwards: the
    blank line is there, between the two sentences. *)
Example blank_line_in_store :
  let '(_, st) :=
    Translator.translate_with_context Sample.failing_env
      (u "a

b") Sample.context Sample.initial_state in
  option_map (map Memory.td_source_text) (Translator.memory_file st)
  = Some [u "a"; []; u "b"].
Proof. vm_compute. reflexivity. Qed.

Section FailureFacts.

Import Translator.

Variable env : Env.
Variable context : TranslationContext.

(** A loop relates every element to its result. *)
Lemma for_each_Forall2 {S A B} (R : A -> B -> Prop) (body : A -> M S B)
    (l : list A) :
  (forall x st, R x (fst (body x st))) ->
  forall st, Forall2 R l (fst (for_each l body st)).
Proof.
  intros HR. induction l as [|x r IH]; intros st; simpl.
  - constructor.
  - unfold bind, ret.
    pose proof (HR x st) as Hx. destruct (body x st) as [y st1].
    pose proof (IH st1) as Hr. destruct (for_each r body st1) as [ys st2].
    by constructor.
Qed.

(** Every rule of the resolver answers for the segment it was given. *)
Lemma translate_segment_original segment st :
  original_text (fst (_translate_segment env segment context st))
  = Splitter.content segment.
Proof.
  unfold _translate_segment, bind, get, ret, modify, now_iso, zoom.
  repeat (case_match; simplify_eq; simpl; try done).
Qed.

Lemma translate_and_save_original segment st :
  original_text (fst (translate_and_save env context segment st))
  = Splitter.content segment.
Proof.
  unfold translate_and_save, bind, ret.
  pose proof (translate_segment_original segment st) as H.
  destruct (_translate_segment env segment context st) as [r st1].
  by destruct (_save_to_memory env segment r context st1).
Qed.

Lemma translate_with_context_results text st :
  Forall2 (fun segment result =>
             original_text result = Splitter.content segment)
    (processing_order (Splitter.split_by_lines text))
    (fst (translate_with_context env text context st)).
Proof.
  unfold translate_with_context, processing_order, _translate_segments_batch.
  destruct (10 <? _)%nat;
    apply for_each_Forall2; intros; apply translate_and_save_original.
Qed.




End FailureFacts.


(** * Properties of the validator *)

Section ValidatorFacts.

Import Validator.

Variable cs : Casing.
Variable QUALITY_METRICS : list (str * Q).
Variable MIN_QUALITY_THRESHOLDS : list (str * Q).
Variable BANNED_ARCHAISMS : list str.

Lemma critical_issues_nil issues :
  critical_issues issues = []
  <-> Forall (fun i => severity i <> critical) issues.
Proof.
  unfold critical_issues. induction issues as [|i r IH]; simpl.
  - split; [constructor|done].
  - case_bool_decide as Hsev; split.
    + discriminate.
    + intros H. inversion H; subst. done.
    + intros H. constructor; [done|]. by apply IH.
    + intros H. inversion H; subst. by apply IH.
Qed.

Lemma critical_issues_none issues :
  Forall (fun i => severity i <> critical) issues ->
  critical_issues issues = [].
Proof. apply critical_issues_nil. Qed.

Lemma critical_issues_all issues :
  Forall (fun i => severity i = critical) issues ->
  critical_issues issues = issues.
Proof.
  unfold critical_issues. induction 1 as [|i r Hi _ IH]; [done|].
  simpl. rewrite bool_decide_eq_true_2 by done. by rewrite IH.
Qed.

Lemma critical_issues_app l1 l2 :
  critical_issues (l1 ++ l2) = critical_issues l1 ++ critical_issues l2.
Proof. apply List.filter_app. Qed.

Lemma issues_at_severity eqc ty sev prefix hint pattern text :
  Forall (fun i => severity i = sev)
    (issues_at eqc ty sev prefix hint pattern text).
Proof. unfold issues_at. apply Forall_map. by apply Forall_true. Qed.

Lemma Forall_concat_map {A B} (P : B -> Prop) (f : A -> list B) (l : list A) :
  (forall x, Forall P (f x)) -> Forall P (concat (map f l)).
Proof.
  intros H. induction l as [|x r IH]; simpl; [constructor|].
  apply Forall_app. by split.
Qed.

Lemma Forall_omap {A B} (P : B -> Prop) (f : A -> option B) (l : list A) :
  (forall x y, f x = Some y -> P y) -> Forall P (omap f l).
Proof.
  intros H. induction l as [|x r IH]; simpl; [constructor|].
  destruct (f x) as [y|] eqn:E; [|done]. constructor; [by eapply H|done].
Qed.

(** Only the archaism check raises critical issues, and all of its
    issues are critical. *)
Lemma critical_issues_are_archaisms original_text translated_text :
  critical_issues
    (issues (validate_chapter cs QUALITY_METRICS MIN_QUALITY_THRESHOLDS
               BANNED_ARCHAISMS original_text translated_text))
  = _validate_archaisms cs BANNED_ARCHAISMS translated_text.
Proof.
  unfold validate_chapter. cbn [issues].
  rewrite !critical_issues_app.
  rewrite (critical_issues_none (_validate_structure _ _)).
  2:{ unfold _validate_structure.
      repeat case_match; repeat constructor; simpl; discriminate. }
  rewrite (critical_issues_all (_validate_archaisms _ _ _)).
  2:{ unfold _validate_archaisms. apply Forall_concat_map. intros archaism.
      case_match; [apply issues_at_severity|constructor]. }
  rewrite (critical_issues_none (_validate_calques _)).
  2:{ unfold _validate_calques. apply Forall_concat_map. intros calque.
      case_match; [|constructor].
      eapply Forall_impl; [apply issues_at_severity|].
      intros i ->. discriminate. }
  rewrite (critical_issues_none (_validate_dialogues _)).
  2:{ unfold _validate_dialogues. apply Forall_concat_map. intros pattern.
      case_match; [|constructor].
      eapply Forall_impl; [apply issues_at_severity|].
      intros i ->. discriminate. }
  rewrite (critical_issues_none (_validate_terminology _)).
  2:{ unfold _validate_terminology. apply Forall_omap.
      intros [en ru] y. case_match; [|discriminate].
      intros [= <-]. simpl. discriminate. }
  rewrite (critical_issues_none (_validate_readability _)).
  2:{ unfold _validate_readability. apply Forall_omap.
      intros [i sentence] y. repeat case_match; try discriminate.
      intros [= <-]. simpl. discriminate. }
  rewrite (critical_issues_none (_validate_consistency _)).
  2:{ unfold _validate_consistency. apply Forall_omap.
      intros [name variants] y. case_match; [|discriminate].
      intros [= <-]. simpl. discriminate. }
  by rewrite app_nil_r.
Qed.

(** C3: the pass flag of the result of chapter validation is true if and
    only if no issue of the result is of critical severity and the
    weighted overall score of the result is at least 70. The critical
    issues are those of the archaism check. *)
Theorem is_valid_iff (original_text translated_text : str) :
  let result :=
    validate_chapter cs QUALITY_METRICS MIN_QUALITY_THRESHOLDS
      BANNED_ARCHAISMS original_text translated_text in
  overall_score result
    = _calculate_overall_score QUALITY_METRICS (quality_scores result)
  /\ (is_valid result = true
      <-> Forall (fun i => severity i <> critical) (issues result)
          /\ (70 <= overall_score result)%Q)
  /\ (Forall (fun i => severity i <> critical) (issues result)
      <-> _validate_archaisms cs BANNED_ARCHAISMS translated_text = []).
Proof.
  intros result. split; [reflexivity|]. split.
  - subst result. unfold validate_chapter.
    cbn [is_valid issues overall_score].
    rewrite andb_true_iff, Nat.eqb_eq, length_zero_iff_nil,
      critical_issues_nil, Qle_bool_iff.
    reflexivity.
  - subst result.
    rewrite <- critical_issues_nil, critical_issues_are_archaisms.
    reflexivity.
Qed.

End ValidatorFacts.

(** The text of the validator's own test: two archaisms make two
    critical issues; the overall score is 90, and the chapter fails. *)
Example validator_test_chapter :
  let result :=
    Validator.validate_chapter basic_casing Sample.quality_metrics
      Sample.min_quality_thresholds Sample.banned_archaisms
      (u "Chapter 1: Test

Hello! said the character.

This is a test chapter with some content.")
      (u "Глава 1: Тест

Привет! сказал персонаж.

Сей тест содержит весьма интересный контент.") in
  Validator.is_valid result = false
  /\ length (Validator.critical_issues (Validator.issues result)) = 2
  /\ (Validator.overall_score result == 90)%Q.
Proof. vm_compute. repeat split. Qed.

(** * Properties of the batch translator *)

Section BatchFacts.

Import AsyncDeepL.

Variable tm : Time.
Variable py_hash : list str -> Z.
Variable translate_api : nat -> list str -> str -> str -> ApiOutcome.
Variable source_lang target_lang : str.

Lemma for_each_length {S A B} (body : A -> M S B) (l : list A) st :
  length (fst (for_each l body st)) = length l.
Proof.
  revert st. induction l as [|x r IH]; intros st; simpl; [done|].
  unfold bind, ret. destruct (body x st) as [y st1].
  specialize (IH st1). destruct (for_each r body st1) as [ys st2].
  simpl in *. by rewrite IH.
Qed.

Lemma chunks_go_concat {A} fuel n (l : list A) :
  0 < n -> length l <= fuel -> concat (chunks_go fuel n l) = l.
Proof.
  intros Hn. revert l. induction fuel as [|f IH]; intros l Hl.
  - destruct l; [done|simpl in Hl; lia].
  - destruct l as [|x r]; [done|].
    cbn [chunks_go concat]. rewrite IH.
    + apply take_drop.
    + rewrite length_drop. simpl in *. lia.
Qed.

(** Cutting into batches loses nothing and keeps the order. *)
Lemma chunks_concat {A} n (l : list A) : 0 < n -> concat (chunks n l) = l.
Proof. intros Hn. by apply chunks_go_concat. Qed.

Lemma for_each_preserves {S A B} (P : S -> Prop) (body : A -> M S B)
    (l : list A) :
  (forall x st, P st -> P (snd (body x st))) ->
  forall st, P st -> P (snd (for_each l body st)).
Proof.
  intros Hbody. induction l as [|x r IH]; intros st Hst; simpl; [done|].
  unfold bind, ret. specialize (Hbody x st Hst).
  destruct (body x st) as [y st1]. simpl in Hbody.
  specialize (IH st1 Hbody). by destruct (for_each r body st1).
Qed.

Lemma call_api_returned texts st rs st' :
  api_ok translate_api source_lang target_lang ->
  _call_deepl_api tm translate_api texts source_lang target_lang st
    = (Returned rs, st') ->
  length rs = length texts
  /\ translation_cache st' = translation_cache st.
Proof.
  intros Hapi. unfold _call_deepl_api, bind, get, put, time_time, zoom, now.
  simpl.
  destruct (translate_api (requests st) texts source_lang target_lang)
    as [items|status error_text|e|e] eqn:E; simpl.
  - set (body := fun item : ApiItem => _).
    set (st1 := set_ticks _ _).
    pose proof (for_each_length body items st1) as Hlen.
    assert (translation_cache (snd (for_each items body st1))
            = translation_cache st) as Hpres.
    { apply (for_each_preserves
               (fun s => translation_cache s = translation_cache st));
        [|done].
      intros item s Hs. subst body. simpl. done. }
    destruct (for_each items body st1) as [translations st2] eqn:Efe.
    unfold modify, ret. simpl. intros [= <- <-]. simpl in *.
    split; [rewrite Hlen; by apply (Hapi _ _ _ E)|done].
  - unfold ret. intros [= <- <-]. by rewrite length_map.
  - unfold ret. intros [= <- <-]. by rewrite length_map.
  - unfold ret. discriminate.
Qed.

Lemma call_api_raised texts st e st' :
  _call_deepl_api tm translate_api texts source_lang target_lang st
    = (Raised e, st') ->
  translation_cache st' = translation_cache st.
Proof.
  unfold _call_deepl_api, bind, get, put, time_time, zoom, now. simpl.
  destruct (translate_api (requests st) texts source_lang target_lang);
    simpl; unfold ret, modify.
  - destruct (for_each _ _ _). discriminate.
  - discriminate.
  - discriminate.
  - by intros [= _ <-].
Qed.

(** One batch: as many responses as texts, and the cache stays sound. *)
Lemma translate_batch_length batches b st :
  api_ok translate_api source_lang target_lang ->
  keys_coherent py_hash source_lang target_lang batches = true ->
  In b batches ->
  cache_ok py_hash source_lang target_lang batches st ->
  length (fst (_translate_batch tm py_hash translate_api b
                 source_lang target_lang st)) = length b
  /\ cache_ok py_hash source_lang target_lang batches
       (snd (_translate_batch tm py_hash translate_api b
               source_lang target_lang st)).
Proof.
  intros Hapi Hkeys Hin Hcache.
  destruct (_translate_batch tm py_hash translate_api b source_lang
              target_lang st) as [rs st'] eqn:Eb.
  unfold _translate_batch, bind, get in Eb. simpl.
  destruct (translation_cache st !! _) as [cached|] eqn:Ec.
  - unfold modify, ret in Eb. injection Eb as <- <-.
    split; [by apply (Hcache b)|exact Hcache].
  - destruct (_call_deepl_api tm translate_api (map snd b) source_lang
                target_lang st) as [[results|e] st1] eqn:Ecall.
    + apply call_api_returned in Ecall as [Hlen Hsame]; [|done].
      unfold modify, ret in Eb. injection Eb as <- <-.
      rewrite length_map in Hlen.
      split; [done|].
      intros b' rs Hb'. simpl.
      destruct (decide (cache_key py_hash (map snd b) source_lang target_lang
                        = cache_key py_hash (map snd b') source_lang
                            target_lang)) as [Heq|Hneq].
      * rewrite Heq, lookup_insert_eq. intros [= <-]. rewrite Hlen.
        unfold keys_coherent in Hkeys.
        rewrite forallb_forall in Hkeys. specialize (Hkeys b Hin).
        rewrite forallb_forall in Hkeys. specialize (Hkeys b' Hb').
        unfold str_eqb in Hkeys. rewrite bool_decide_eq_true_2 in Hkeys by done.
        simpl in Hkeys. by apply Nat.eqb_eq in Hkeys.
      * rewrite lookup_insert_ne by done. rewrite Hsame. by apply Hcache.
    + apply call_api_raised in Ecall.
      unfold ret in Eb. injection Eb as <- <-.
      rewrite length_map. split; [done|].
      intros b' rs Hb'. rewrite Ecall. by apply Hcache.
Qed.

Lemma merge_returned rss st :
  merge_results source_lang (map Returned rss) st = (concat rss, st).
Proof.
  revert st. induction rss as [|rs r IH]; intros st; simpl; [done|].
  unfold bind, ret. by rewrite IH.
Qed.

Lemma filter_enumerate (p : str -> bool) k (l : list str) :
  map snd (List.filter (fun '(_, text) => p text) (Splitter.enumerate_from k l))
  = List.filter p l.
Proof.
  revert k. induction l as [|x r IH]; intros k; simpl; [done|].
  destruct (p x); simpl; by rewrite IH.
Qed.

(** Putting the blank texts back: with one response per non-blank text
    the loop ends, and every response lands at the place of its text. *)
Lemma restore_order_ok texts all_results :
  length all_results = length (List.filter nonblank texts) ->
  exists final,
    restore_order source_lang texts all_results = Returned final
    /\ length final = length texts
    /\ at_nonblank texts final = all_results
    /\ Forall2
         (fun text r =>
            nonblank text = false -> r = response [] source_lang true None)
         texts final.
Proof.
  revert all_results.
  induction texts as [|text rest IH]; intros all_results Hlen; simpl in *.
  - destruct all_results; [|done]. exists []. repeat split. constructor.
  - unfold nonblank in *. destruct (truthy (strip text)) eqn:E.
    + destruct all_results as [|r all']; [done|]. simpl in Hlen.
      destruct (IH all' ltac:(lia)) as (final & -> & Hl & Hnb & Hbl).
      exists (r :: final). repeat split.
      * simpl. by rewrite Hl.
      * unfold at_nonblank, nonblank in *. simpl. rewrite E. simpl.
        by rewrite Hnb.
      * constructor; [|done]. by rewrite E.
    + destruct (IH all_results Hlen) as (final & -> & Hl & Hnb & Hbl).
      eexists. repeat split.
      * simpl. by rewrite Hl.
      * unfold at_nonblank, nonblank in *. simpl. by rewrite E.
      * constructor; [done|done].
Qed.

Lemma concat_length_Forall2 {A B} (bs : list (list A)) (rss : list (list B)) :
  Forall2 (fun b rs => length rs = length b) bs rss ->
  length (concat rss) = length (concat bs).
Proof.
  induction 1 as [|b rs bs' rss' H _ IH]; [done|].
  simpl. rewrite !length_app. lia.
Qed.

(** A batch that misses the cache and whose request fails yields one
    error-marked response per text. *)
Lemma translate_batch_failed batch st0 :
  translation_cache st0
    !! cache_key py_hash (map snd batch) source_lang target_lang = None ->
  failed (translate_api (requests st0) (map snd batch)
            source_lang target_lang) ->
  length (fst (_translate_batch tm py_hash translate_api batch
                 source_lang target_lang st0)) = length batch
  /\ Forall error_marked
       (fst (_translate_batch tm py_hash translate_api batch
               source_lang target_lang st0)).
Proof.
  intros Hmiss Hfail.
  destruct (_translate_batch tm py_hash translate_api batch source_lang
              target_lang st0) as [rs st'] eqn:Eb.
  unfold _translate_batch, bind, get in Eb. rewrite Hmiss in Eb.
  unfold _call_deepl_api, bind, get, put, time_time, zoom, now in Eb.
  simpl in Eb |- *.
  destruct (translate_api (requests st0) (map snd batch) source_lang
              target_lang); [done| | |];
    unfold ret, modify in Eb; simpl in Eb; injection Eb as <- <-;
    rewrite ?length_map; (split; [done|]);
    rewrite ?map_map; apply Forall_map, Forall_true; intros x;
    split; [done|by eexists| done|by eexists|done|by eexists].
Qed.

End BatchFacts.

(** * More on the string primitives *)

Section StringFacts.

Lemma startswith_prefix p s :
  startswith p s = true <-> exists post, s = p ++ post.
Proof.
  unfold startswith. revert s. induction p as [|a p IH]; intros s; simpl.
  - split; [by eauto|done].
  - destruct s as [|b s]; simpl.
    + split; [done|]. intros [post H]. discriminate.
    + rewrite andb_true_iff, N.eqb_eq, IH. split.
      * intros [-> [post ->]]. by exists post.
      * intros [post [= -> ->]]. split; [done|by exists post].
Qed.

(** [p in s] holds exactly when [s] is some text, then [p], then some
    text. *)
Lemma contains_infix p s :
  contains p s = true <-> exists pre post, s = pre ++ p ++ post.
Proof.
  unfold contains. induction s as [|c s IH]; simpl.
  - rewrite orb_false_r. fold (startswith p []). rewrite startswith_prefix.
    split.
    + intros [post H]. by exists [], post.
    + intros (pre & post & H). symmetry in H.
      apply app_eq_nil in H as [-> H]. by exists post.
  - rewrite orb_true_iff. fold (startswith p (c :: s)).
    rewrite startswith_prefix, IH. split.
    + intros [[post H]|(pre & post & H)].
      * by exists [], post.
      * exists (c :: pre), post. by rewrite H.
    + intros ([|c' pre] & post & H).
      * left. by exists post.
      * right. injection H as -> H. by exists pre, post.
Qed.

Lemma lstrip_by_split p s :
  exists pre, s = pre ++ lstrip_by p s /\ forallb p pre = true.
Proof.
  induction s as [|c s (pre & Hs & Hpre)]; simpl.
  - by exists [].
  - destruct (p c) eqn:E.
    + exists (c :: pre). simpl. rewrite E, Hpre. split; [by f_equal|done].
    + by exists [].
Qed.

Lemma rstrip_by_split p s :
  exists post, s = rstrip_by p s ++ post /\ forallb p post = true.
Proof.
  induction s as [|c s (post & Hs & Hpost)]; simpl.
  - by exists [].
  - destruct (rstrip_by p s) as [|d r] eqn:E.
    + destruct (p c) eqn:Ec.
      * exists (c :: s). simpl in Hs. subst s. simpl. rewrite Ec, Hpost.
        by split.
      * exists post. simpl in *. split; [by rewrite <- Hs|done].
    + exists post. simpl in *. split; [by rewrite <- Hs|done].
Qed.

Lemma lstrip_by_head p s c r :
  lstrip_by p s = c :: r -> p c = false.
Proof.
  induction s as [|d s IH]; simpl; [done|].
  destruct (p d) eqn:E; [done|]. by intros [= <- _].
Qed.

Lemma lstrip_by_id p c r : p c = false -> lstrip_by p (c :: r) = c :: r.
Proof. intros H. simpl. by rewrite H. Qed.

Lemma rstrip_by_app_last p s c :
  p c = false -> rstrip_by p (s ++ [c]) = s ++ [c].
Proof.
  intros H. induction s as [|d s IH]; simpl.
  - by rewrite H.
  - rewrite IH. by destruct s.
Qed.

Lemma rstrip_by_last p s :
  rstrip_by p s = [] \/ exists r c, rstrip_by p s = r ++ [c] /\ p c = false.
Proof.
  induction s as [|d s IH]; simpl; [by left|].
  destruct IH as [->|(r & c & -> & Hc)].
  - destruct (p d) eqn:E; [by left|]. right. by exists [], d.
  - right. exists (d :: r), c. split; [|done]. by destruct r.
Qed.

Lemma rstrip_by_idemp p s : rstrip_by p (rstrip_by p s) = rstrip_by p s.
Proof.
  destruct (rstrip_by_last p s) as [->|(r & c & -> & Hc)]; [done|].
  by apply rstrip_by_app_last.
Qed.

Lemma rstrip_by_head p c s :
  p c = false -> exists r, rstrip_by p (c :: s) = c :: r.
Proof.
  intros H. simpl. destruct (rstrip_by p s); [rewrite H|]; by eauto.
Qed.

(** Stripping twice is stripping once. *)
Lemma strip_idemp s : strip (strip s) = strip s.
Proof.
  unfold strip. destruct (lstrip_by isspace s) as [|c r] eqn:E; [done|].
  pose proof (lstrip_by_head _ _ _ _ E) as Hc.
  destruct (rstrip_by_head isspace c r Hc) as [r' Hr]. rewrite Hr.
  rewrite lstrip_by_id by done. rewrite <- Hr. apply rstrip_by_idemp.
Qed.

(** Every character of a stripped text is a character of the text. *)
Lemma strip_subseteq s : strip s ⊆ s.
Proof.
  unfold strip.
  destruct (lstrip_by_split isspace s) as (pre & Hs & _).
  destruct (rstrip_by_split isspace (lstrip_by isspace s)) as (post & Hl & _).
  intros c Hc. rewrite Hs, Hl. set_solver.
Qed.

Lemma rstrip_by_subseteq p s : rstrip_by p s ⊆ s.
Proof.
  destruct (rstrip_by_split p s) as (post & Hs & _).
  intros c Hc. rewrite Hs. set_solver.
Qed.

(** The pieces of a split do not contain the separator. *)
Lemma split_char_no_sep c s : Forall (fun piece => c ∉ piece) (split_char c s).
Proof.
  induction s as [|x r IH]; simpl.
  - constructor; [set_solver|constructor].
  - destruct (N.eqb_spec x c) as [->|Hne].
    + constructor; [set_solver|done].
    + destruct (split_char c r) as [|h t]; inversion IH; subst.
      * constructor; [set_solver|constructor].
      * constructor; [set_solver|done].
Qed.

(** A split has one piece more than the text has separators. *)
Lemma split_char_length c s :
  length (split_char c s) = S (length (List.filter (N.eqb c) s)).
Proof.
  induction s as [|x r IH]; simpl; [done|].
  rewrite (N.eqb_sym c x).
  destruct (x =? c)%N; simpl; [by rewrite IH|].
  destruct (split_char c r); simpl in *; lia.
Qed.

(** Splitting undoes joining, for pieces free of the separator. *)
Lemma split_char_join c (l : list str) :
  l <> [] -> Forall (fun piece => c ∉ piece) l ->
  split_char c (join [c] l) = l.
Proof.
  induction l as [|x r IH]; [done|]. intros _ Hall.
  inversion Hall as [|? ? Hx Hr]; subst.
  assert (forall rest, split_char c (x ++ c :: rest)
                       = x :: split_char c rest) as Hstep.
  { intros rest. clear -Hx. induction x as [|y x IH]; simpl.
    - by rewrite N.eqb_refl.
    - destruct (N.eqb_spec y c) as [->|Hne]; [set_solver|].
      rewrite IH by set_solver. done. }
  destruct r as [|y r'].
  - simpl. clear -Hx. induction x as [|z x IH]; simpl; [done|].
    destruct (N.eqb_spec z c) as [->|Hne]; [set_solver|].
    rewrite IH by set_solver. done.
  - change (join [c] (x :: y :: r')) with (x ++ c :: join [c] (y :: r')).
    rewrite Hstep, IH; done.
Qed.

Lemma strip_infix s : exists pre post, s = pre ++ strip s ++ post.
Proof.
  unfold strip.
  destruct (lstrip_by_split isspace s) as (pre & Hs & _).
  destruct (rstrip_by_split isspace (lstrip_by isspace s)) as (post & Hl & _).
  exists pre, post. by rewrite <- Hl.
Qed.

Lemma strip_blank s : strip s = [] <-> forallb isspace s = true.
Proof.
  unfold strip. split.
  - intros H.
    destruct (lstrip_by_split isspace s) as (pre & Hs & Hpre).
    destruct (rstrip_by_split isspace (lstrip_by isspace s))
      as (post & Hl & Hpost).
    rewrite H in Hl. rewrite Hs, Hl, forallb_app, Hpre. done.
  - intros H. replace (lstrip_by isspace s) with (@nil char); [done|].
    induction s as [|c s IH]; simpl in *; [done|].
    apply andb_true_iff in H as [-> H]. by apply IH.
Qed.

Lemma split_str_go_nonempty sep skip cur s : split_str_go sep skip cur s <> [].
Proof.
  revert skip cur. induction s as [|c r IH]; intros skip cur; simpl; [done|].
  destruct skip; [|by apply IH]. destruct (startswith sep (c :: r)); [done|].
  by apply IH.
Qed.

Lemma join_cons sep x (l : list str) :
  l <> [] -> join sep (x :: l) = x ++ sep ++ join sep l.
Proof. by destruct l. Qed.

Lemma split_str_go_join sep skip cur s :
  sep <> [] ->
  join sep (split_str_go sep skip cur s) = cur ++ drop skip s.
Proof.
  intros Hsep. revert skip cur. induction s as [|c r IH]; intros skip cur.
  - simpl. by rewrite drop_nil, app_nil_r.
  - cbn [split_str_go]. destruct skip as [|k]; [|by rewrite IH].
    destruct (startswith sep (c :: r)) eqn:E.
    + rewrite join_cons by apply split_str_go_nonempty. rewrite IH.
      apply startswith_prefix in E as [post E].
      destruct sep as [|d sep']; [done|]. simplify_eq/=.
      by rewrite drop_app_length.
    + rewrite IH. by rewrite <- app_assoc.
Qed.

(** [sep.join(s.split(sep)) == s] *)
Lemma split_str_join sep s : sep <> [] -> join sep (split_str sep s) = s.
Proof. intros H. unfold split_str. by rewrite split_str_go_join. Qed.

Lemma split_str_go_no_sep sep skip cur s :
  sep <> [] ->
  (skip <> 0 -> cur = []) ->
  (forall a b, cur = a ++ b -> b <> [] -> startswith sep (b ++ s) = false) ->
  Forall (fun piece => contains sep piece = false)
    (split_str_go sep skip cur s).
Proof.
  intros Hsep.
  assert (forall cur s,
    (forall a b, cur = a ++ b -> b <> [] -> startswith sep (b ++ s) = false) ->
    contains sep cur = false) as Hpiece.
  { intros cur' s' Hinv. destruct (contains sep cur') eqn:E; [|done].
    apply contains_infix in E as (pre & post & ->).
    rewrite <- (Hinv pre (sep ++ post) eq_refl); [|by destruct sep].
    symmetry. apply startswith_prefix. exists (post ++ s').
    by rewrite <- app_assoc. }
  revert skip cur. induction s as [|c r IH]; intros skip cur Hskip Hinv.
  - simpl. constructor; [|constructor]. by apply (Hpiece cur []).
  - cbn [split_str_go]. destruct skip as [|k].
    + destruct (startswith sep (c :: r)) eqn:E.
      * constructor; [by apply (Hpiece cur (c :: r))|].
        apply IH; [done|]. intros a b Hab Hb. by destruct a, b.
      * apply IH; [done|]. intros a b Hab Hb.
        destruct (exists_last Hb) as (b' & x & ->).
        rewrite app_assoc in Hab. apply app_inj_tail in Hab as [Hcur Hc].
        subst cur c. rewrite <- app_assoc. simpl.
        destruct b' as [|y b'']; [done|].
        by apply (Hinv a (y :: b'')).
    + rewrite (Hskip ltac:(done)). apply IH; [done|].
      intros a b Hab Hb. by destruct a, b.
Qed.

(** No piece of [s.split(sep)] contains [sep]. *)
Lemma split_str_no_sep sep s :
  sep <> [] ->
  Forall (fun piece => contains sep piece = false) (split_str sep s).
Proof.
  intros H. apply split_str_go_no_sep; [done|done|].
  intros a b Hab Hb. by destruct a, b.
Qed.

Lemma join_infix sep (l : list str) piece :
  piece ∈ l -> exists pre post, join sep l = pre ++ piece ++ post.
Proof.
  induction l as [|x r IH]; [by intros ?%elem_of_nil|].
  intros [->|Hin]%elem_of_cons.
  - destruct r as [|y r'].
    + exists [], []. by rewrite app_nil_r.
    + exists [], (sep ++ join sep (y :: r')). by rewrite join_cons.
  - destruct (IH Hin) as (pre & post & Hj).
    exists (x ++ sep ++ pre), post.
    rewrite join_cons by (by destruct r; [apply elem_of_nil in Hin|]).
    by rewrite Hj, <- !app_assoc.
Qed.

Lemma join_forallb p sep (l : list str) :
  forallb p sep = true -> Forall (fun x => forallb p x = true) l ->
  forallb p (join sep l) = true.
Proof.
  intros Hsep. induction 1 as [|x r Hx Hr IH]; [done|].
  destruct r; [done|]. rewrite join_cons by done.
  by rewrite !forallb_app, Hx, Hsep, IH.
Qed.

End StringFacts.

(** * More on the segmenter *)

Section LineModeFacts.

Import Splitter.

Lemma enumerate_from_fst {A} start (l : list A) :
  map fst (enumerate_from start l) = seq start (length l).
Proof.
  revert start. induction l as [|x r IH]; intros start; simpl; [done|].
  by rewrite IH.
Qed.

Lemma enumerate_from_snd {A} start (l : list A) :
  map snd (enumerate_from start l) = l.
Proof.
  revert start. induction l as [|x r IH]; intros start; simpl; [done|].
  by rewrite IH.
Qed.

Lemma segment_of_line_number i line : line_number (segment_of_line i line) = i.
Proof. unfold segment_of_line. by case_match. Qed.

(** X1: line mode yields exactly one segment per line of the text, that
    is one more than the text has newlines (a single empty-line segment
    for the empty text), and numbers the segments 1, 2, 3, ... in
    order. *)
Theorem split_by_lines_numbering (text : str) :
  length (split_by_lines text)
  = S (length (List.filter (N.eqb LF) text))
  /\ map line_number (split_by_lines text)
     = seq 1 (length (split_by_lines text))
  /\ split_by_lines [] =
     [ {| content := []; segment_type := empty_line; line_number := 1;
          character := None; is_dialogue := false; is_system := false |} ].
Proof.
  unfold split_by_lines. rewrite length_map.
  assert (length (enumerate_from 1 (split_char LF text))
          = length (split_char LF text)) as Hlen.
  { by rewrite <- (length_map fst), enumerate_from_fst, length_seq. }
  rewrite Hlen, split_char_length. split; [done|]. split; [|done].
  rewrite <- split_char_length, <- enumerate_from_fst, !map_map.
  apply map_ext. intros [i line]. apply segment_of_line_number.
Qed.

Lemma segment_of_line_ok i line :
  LF ∉ line -> line_segment_ok (segment_of_line i line).
Proof.
  intros Hlf. unfold line_segment_ok, segment_of_line.
  set (line' := rstrip_chars [CR] line).
  assert (LF ∉ line') as Hlf'.
  { intros H. apply Hlf. subst line'. unfold rstrip_chars in H.
    by apply rstrip_by_subseteq in H. }
  assert (rstrip_chars [CR] line' = line') as Hcr.
  { apply rstrip_by_idemp. }
  destruct (truthy (strip line')) eqn:E; cbn [negb orb].
  - unfold str_eqb. case_bool_decide as Hnl.
    { rewrite Hnl in E. discriminate. }
    assert (line' <> []) as Hne by (intros H; by rewrite H in E).
    cbn [content segment_type line_number character is_dialogue is_system].
    unfold _detect_segment_type, _is_dialogue, _is_system. rewrite E.
    cbn [negb].
    destruct (existsb (fun p => re_search p line') dialogue_patterns) eqn:Ed;
      destruct (existsb (fun p => re_search p line') system_patterns) eqn:Es;
      repeat split; try done; try (intros [? ?]; done).
  - cbn [content segment_type line_number character is_dialogue is_system].
    repeat split; try done. all: try set_solver.
Qed.

(** X2: in line mode a segment is an empty-line segment exactly when its
    content is empty; any other segment keeps a line that is not blank,
    holds no newline and no trailing carriage return; and the kind
    agrees with the flags, dialogue going first: a segment flagged as
    dialogue is of kind dialogue, and a segment is of kind system
    exactly when it is flagged as system and not as dialogue. *)
Theorem split_by_lines_segments (text : str) :
  Forall line_segment_ok (split_by_lines text).
Proof.
  unfold split_by_lines. apply Forall_map, Forall_forall.
  intros [i line] Hin. apply segment_of_line_ok.
  pose proof (split_char_no_sep LF text) as Hno.
  rewrite Forall_forall in Hno. apply Hno.
  rewrite <- (enumerate_from_snd 1 (split_char LF text)).
  apply list_elem_of_fmap. by exists (i, line).
Qed.

End LineModeFacts.

Section ParagraphModeFacts.

Import Splitter.

Variable cs : Casing.

Lemma analyze_segment_kinds text line_number :
  let seg := _analyze_segment cs text line_number in
  segment_type seg <> empty_line
  /\ (segment_type seg = system <-> is_system seg = true)
  /\ (segment_type seg = dialogue
      <-> is_dialogue seg = true /\ is_system seg = false).
Proof.
  unfold _analyze_segment.
  cbn [content segment_type Splitter.line_number character is_dialogue
       is_system].
  destruct (existsb (fun p => re_search p text) dialogue_patterns);
    destruct (existsb (fun p => re_search_by (ci_eqb cs) p text)
                system_patterns);
    repeat split; try done; try (intros [? ?]; done).
Qed.

Lemma join_nonempty (l : list str) x r :
  l = x :: r -> x <> [] -> join [LF] l <> [].
Proof.
  intros -> Hx. simpl. destruct r.
  - done.
  - destruct x; [done|]. simpl. discriminate.
Qed.

Lemma flush_paragraph_ok n cur start :
  Forall paragraph_line_ok cur ->
  (cur <> [] -> 1 <= start <= n) ->
  Forall (paragraph_segment_ok n) (flush_paragraph cs cur start).
Proof.
  intros Hcur Hstart. unfold flush_paragraph.
  destruct cur as [|x r] eqn:E; [constructor|]. rewrite <- E in *.
  constructor; [|constructor].
  pose proof (analyze_segment_kinds (join [LF] cur) start) as (H1 & H2 & H3).
  assert (cur <> []) as Hne by (by rewrite E).
  unfold paragraph_segment_ok.
  split; [|split; [|split; [exact H1|split; [exact H2|split; [exact H3|]]]]].
  - cbn [_analyze_segment content]. apply (join_nonempty cur x r E).
    rewrite E in Hcur. inversion Hcur as [|? ? [Hx _] _]; subst.
    by destruct x.
  - cbn [_analyze_segment content]. rewrite split_char_join; [done|done|].
    eapply Forall_impl; [exact Hcur|]. by intros l (_ & _ & H).
  - cbn [_analyze_segment line_number]. by apply Hstart.
Qed.

Lemma create_segments_go_ok n cur start lines :
  Forall paragraph_line_ok cur ->
  (cur <> [] -> 1 <= start <= n) ->
  Forall (fun '(i, line) => 1 <= i <= n /\ LF ∉ line) lines ->
  Forall (paragraph_segment_ok n) (create_segments_go cs cur start lines).
Proof.
  revert cur start. induction lines as [|[i line] rest IH];
    intros cur start Hcur Hstart Hlines; simpl.
  - by apply flush_paragraph_ok.
  - inversion Hlines as [|? ? Hhd Hrest]; subst.
    cbn beta iota in Hhd. destruct Hhd as [Hi Hlf].
    destruct (truthy (strip line)) eqn:E; cbn [negb].
    + apply IH; [| |done].
      * apply Forall_app. split; [done|]. constructor; [|constructor].
        split; [done|]. split; [apply strip_idemp|].
        intros H. apply Hlf. by apply (strip_subseteq line).
      * intros _. destruct cur; [done|]. by apply Hstart.
    + apply Forall_app. split; [by apply flush_paragraph_ok|].
      apply IH; [constructor|done|done].
Qed.

Lemma create_segments_go_nil cur start lines :
  create_segments_go cs cur start lines = []
  <-> cur = [] /\ Forall (fun '(_, line) => strip line = []) lines.
Proof.
  revert cur start. induction lines as [|[i line] rest IH];
    intros cur start; cbn [create_segments_go].
  - unfold flush_paragraph. destruct cur.
    + by split.
    + split; [done|]. by intros [H _].
  - destruct (strip line) as [|c r] eqn:E; cbn [truthy negb].
    + split.
      * intros [Hf Hr]%app_eq_nil. apply IH in Hr as [_ Hr].
        split; [|by constructor].
        unfold flush_paragraph in Hf. by destruct cur.
      * intros [-> Hall]. inversion Hall; subst. cbn [flush_paragraph app].
        apply IH. by split.
    + rewrite IH. split.
      * intros [H _]. by destruct cur.
      * intros [_ Hall]. inversion Hall as [|? ? Hs ?]; subst.
        cbn beta iota in Hs. congruence.
Qed.

Lemma create_segments_ok (text : str) :
  Forall (paragraph_segment_ok (length (split_char LF text)))
    (create_segments cs text).
Proof.
  unfold create_segments.
  apply create_segments_go_ok; [constructor|done|].
  set (lines := split_char LF text).
  pose proof (split_char_no_sep LF text) as Hno. fold lines in Hno.
  assert (forall start, Forall (fun '(i, line) =>
            start <= i <= start + length lines - 1 /\ LF ∉ line)
            (enumerate_from start lines)) as Hgen.
  { clear -Hno. induction lines as [|l r IH]; intros start; simpl;
      [constructor|].
    inversion Hno; subst. constructor; [split; [lia|done]|].
    eapply Forall_impl; [apply (IH ltac:(done) (S start))|].
    intros [i line] [Hi Hl]. split; [lia|done]. }
  eapply Forall_impl; [apply (Hgen 1)|].
  intros [i line] [Hi Hl]. split; [lia|done].
Qed.

Lemma create_segments_nil (text : str) :
  create_segments cs text = []
  <-> Forall (fun line => strip line = []) (split_char LF text).
Proof.
  unfold create_segments.
  rewrite create_segments_go_nil.
  set (lines := split_char LF text). generalize 1 as start.
  induction lines as [|l r IH]; intros start; simpl.
  + split; [constructor|by split].
  + split.
    * intros [_ Hall]. inversion Hall; subst. constructor; [done|].
      by apply (IH (S start)).
    * intros Hall. inversion Hall; subst. split; [done|].
      constructor; [done|]. by apply (IH (S start)).
Qed.

Lemma create_segments_go_lines cur start lines :
  Forall paragraph_line_ok cur ->
  Forall (fun '(_, line) => LF ∉ line) lines ->
  concat (map (fun seg => split_char LF (content seg))
            (create_segments_go cs cur start lines))
  = cur ++ List.filter truthy (map (fun '(_, line) => strip line) lines).
Proof.
  assert (forall cur start, Forall paragraph_line_ok cur ->
            concat (map (fun seg => split_char LF (content seg))
                      (flush_paragraph cs cur start)) = cur) as Hflush.
  { intros cur' start' Hcur. unfold flush_paragraph.
    destruct cur' as [|x r] eqn:E; [done|]. rewrite <- E in *.
    cbn [map concat _analyze_segment content]. rewrite app_nil_r.
    apply split_char_join; [by rewrite E|].
    eapply Forall_impl; [exact Hcur|]. by intros l (_ & _ & H). }
  revert cur start. induction lines as [|[i line] rest IH];
    intros cur start Hcur Hlines; cbn [create_segments_go map List.filter].
  - rewrite app_nil_r. by apply Hflush.
  - inversion Hlines as [|? ? Hlf Hrest]; subst. cbn beta iota in Hlf.
    destruct (truthy (strip line)) eqn:E; cbn [negb].
    + rewrite IH; [by rewrite <- app_assoc| |done].
      apply Forall_app. split; [done|]. constructor; [|constructor].
      split; [done|]. split; [apply strip_idemp|].
      intros H. by apply (strip_subseteq line) in H.
    + rewrite map_app, concat_app, Hflush, IH by done. done.
Qed.

(** X3: every segment of paragraph mode has a content that is not
    empty, made of lines that are stripped, not blank and free of
    newlines; it is never of kind empty-line; its kind is system exactly
    when it is flagged as system (the system check goes last and wins
    over dialogue, unlike in line mode); and it is numbered with a line
    of the text. A text yields no segment exactly when all its lines are
    blank. *)
Theorem create_segments_segments (text : str) :
  Forall (paragraph_segment_ok (length (split_char LF text)))
    (create_segments cs text)
  /\ (create_segments cs text = []
      <-> Forall (fun line => strip line = []) (split_char LF text)).
Proof. split; [apply create_segments_ok|apply create_segments_nil]. Qed.

Lemma content_length_app l1 l2 :
  content_length (l1 ++ l2) = content_length l1 + content_length l2.
Proof. unfold content_length. by rewrite map_app, list_sum_app. Qed.

Lemma split_units_go_ok max_length cur len segs :
  len = content_length cur ->
  (cur = [] \/ len <= max_length \/ length cur = 1) ->
  let units := split_units_go max_length cur len segs in
  concat (map unit_segments units) = cur ++ segs
  /\ Forall (unit_ok max_length) units
  /\ greedy max_length units
  /\ (cur <> [] ->
      exists u r more, units = u :: r /\ unit_segments u = cur ++ more).
Proof.
  revert cur len. induction segs as [|seg rest IH]; intros cur len Hlen Hinv;
    cbn zeta; cbn [split_units_go].
  - destruct cur as [|c cur'] eqn:Ec; [by repeat split|]. rewrite <- Ec in *.
    assert (cur <> []) as Hne by (by rewrite Ec).
    cbn [map concat make_unit unit_segments]. rewrite !app_nil_r.
    split; [done|]. split; [|split; [done|]].
    + constructor; [|constructor]. unfold unit_ok.
      cbn [make_unit unit_segments total_length unit_text].
      repeat split; try done. destruct Hinv as [?|[?|?]]; [done|by left|by right].
    + intros _. exists (make_unit cur len), [], []. by rewrite app_nil_r.
  - destruct ((max_length <? len + length (content seg))
              && match cur with [] => false | _ => true end) eqn:Eb.
    + apply andb_true_iff in Eb as [Hlt%Nat.ltb_lt Hcur].
      assert (cur <> []) as Hne by (by destruct cur).
      destruct (IH [seg] (length (content seg))) as (H1 & H2 & H3 & H4).
      { unfold content_length. simpl. lia. }
      { by right; right. }
      destruct (H4 ltac:(done)) as (u & r & more & Hu & Hseg).
      cbn [map concat make_unit unit_segments]. rewrite H1.
      split; [done|]. split; [|split].
      * constructor; [|done]. unfold unit_ok.
        cbn [make_unit unit_segments total_length unit_text].
        repeat split; try done.
        destruct Hinv as [?|[?|?]]; [done|by left|by right].
      * rewrite Hu. rewrite Hu in H3. cbn [greedy]. split; [|exact H3].
        exists seg. rewrite Hseg. split; [done|].
        cbn [make_unit total_length]. lia.
      * intros _. eexists _, _, []. split; [done|].
        cbn [make_unit unit_segments]. by rewrite app_nil_r.
    + destruct (IH (cur ++ [seg]) (len + length (content seg)))
        as (H1 & H2 & H3 & H4).
      { rewrite content_length_app, Hlen. unfold content_length. simpl. lia. }
      { apply andb_false_iff in Eb as [Hlt%Nat.ltb_ge|Hcur].
        - right; left. lia.
        - destruct cur; [by right; right|done]. }
      rewrite <- app_assoc in H1. split; [exact H1|].
      split; [exact H2|]. split; [exact H3|].
      intros _. destruct H4 as (u & r & more & Hu & Hseg); [by destruct cur|].
      exists u, r, (seg :: more). split; [done|].
      by rewrite Hseg, <- app_assoc.
Qed.

(** X4: the translation units pack the paragraph segments in order and
    lose none: the units' segments concatenated are the segments of the
    text; no unit is empty; a unit's length is the sum of its segments'
    content lengths and its text their contents joined by blank lines; a
    unit is within the budget unless it is a single segment; and the
    packing is greedy, a unit being closed only when the next segment
    would not fit. *)
Theorem split_for_translation_packing (text : str) (max_length : nat) :
  let units := split_for_translation cs text max_length in
  concat (map unit_segments units) = create_segments cs text
  /\ Forall (unit_ok max_length) units
  /\ greedy max_length units.
Proof.
  cbn zeta. unfold split_for_translation.
  destruct (split_units_go_ok max_length [] 0 (create_segments cs text))
    as (H1 & H2 & H3 & _); [done|by left|]. by repeat split.
Qed.

(** X5: paragraph mode loses no text: the lines of the segments'
    contents, taken in order, are exactly the lines of the text that are
    not blank, each one stripped. *)
Theorem create_segments_keeps_lines (text : str) :
  concat (map (fun seg => split_char LF (content seg))
            (create_segments cs text))
  = List.filter truthy (map strip (split_char LF text)).
Proof.
  unfold create_segments. rewrite create_segments_go_lines; [|constructor|].
  - simpl. f_equal. generalize 1 as start.
    induction (split_char LF text) as [|l r IH]; intros start; simpl;
      [done|]. by rewrite IH.
  - pose proof (split_char_no_sep LF text) as Hno. generalize 1 as start.
    induction Hno as [|l r Hl Hr IH]; intros start; simpl; by constructor.
Qed.

(** X6: selecting by flag agrees with the segment kinds. The system
    segments of a text are exactly its segments of kind system; its
    dialogue segments are those of kind dialogue together with the
    system segments that also match a dialogue pattern. *)
Theorem flagged_segments_by_kind (text : str) :
  get_system_segments cs text
  = List.filter (fun s => bool_decide (segment_type s = system))
      (create_segments cs text)
  /\ List.filter (fun s => negb (is_system s)) (get_dialogue_segments cs text)
    = List.filter (fun s => bool_decide (segment_type s = dialogue))
        (create_segments cs text).
Proof.
  unfold get_system_segments, get_dialogue_segments.
  pose proof (create_segments_ok text) as Hok.
  induction Hok as [|seg r (_ & _ & _ & Hsys & Hdia & _) Hr [IH1 IH2]];
    [done|].
  split.
  - simpl. rewrite IH1.
    destruct (is_system seg) eqn:Es.
    + by rewrite bool_decide_true by (by apply Hsys).
    + rewrite bool_decide_false; [done|]. intros H%Hsys. done.
  - simpl. destruct (is_dialogue seg) eqn:Ed; simpl.
    + destruct (is_system seg) eqn:Es; simpl.
      * rewrite bool_decide_false; [done|]. intros H%Hdia. by destruct H.
      * rewrite bool_decide_true by (by apply Hdia). by rewrite IH2.
    + rewrite bool_decide_false; [done|]. intros H%Hdia. by destruct H.
Qed.

End ParagraphModeFacts.

Section ParagraphListFacts.

Import Splitter.

Lemma filter_nil_iff {A} (f : A -> bool) (l : list A) :
  List.filter f l = [] <-> Forall (fun x => f x = false) l.
Proof.
  induction l as [|x r IH]; simpl; [by split|].
  destruct (f x) eqn:E.
  - split; [done|]. intros H. inversion H; congruence.
  - rewrite IH. split; [by constructor|]. intros H. by inversion H.
Qed.

(** X7: every paragraph returned by [split_by_paragraphs] is not empty,
    is stripped, contains no blank-line separator and occurs in the text;
    and no paragraph is returned exactly when the text is made of white
    space only. *)
Theorem split_by_paragraphs_paragraphs (text : str) :
  Forall (fun p => p <> [] /\ strip p = p /\ contains [LF; LF] p = false
                   /\ exists pre post, text = pre ++ p ++ post)
    (split_by_paragraphs text)
  /\ (split_by_paragraphs text = [] <-> forallb isspace text = true).
Proof.
  assert ([LF; LF] <> []) as Hsep by done.
  pose proof (split_str_join [LF; LF] text Hsep) as Hjoin.
  pose proof (split_str_no_sep [LF; LF] text Hsep) as Hno.
  unfold split_by_paragraphs. split.
  - apply List.Forall_forall. intros p (q & <- & Hq)%in_map_iff.
    apply filter_In in Hq as [Hq Ht].
    destruct (strip_infix q) as (pre & post & Hqs).
    split; [by destruct (strip q)|]. split; [apply strip_idemp|]. split.
    + destruct (contains [LF; LF] (strip q)) eqn:E; [|done].
      apply contains_infix in E as (pre' & post' & E).
      rewrite List.Forall_forall in Hno. rewrite <- (Hno q Hq).
      symmetry. apply contains_infix. exists (pre ++ pre'), (post' ++ post).
      rewrite Hqs at 1. rewrite E. by rewrite <- !app_assoc.
    + apply list_elem_of_In in Hq.
      destruct (join_infix [LF; LF] _ _ Hq) as (pre' & post' & Hj).
      rewrite Hjoin in Hj. exists (pre' ++ pre), (post ++ post').
      rewrite Hj. rewrite Hqs at 1. by rewrite <- !app_assoc.
  - split.
    + intros H. apply map_eq_nil in H. apply filter_nil_iff in H.
      rewrite <- Hjoin. apply join_forallb; [done|].
      eapply Forall_impl; [exact H|]. intros q Hq. cbn beta in Hq.
      apply strip_blank. by destruct (strip q).
    + intros H.
      replace (List.filter (fun p => truthy (strip p))
                 (split_str [LF; LF] text)) with (@nil str); [done|].
      symmetry. apply filter_nil_iff. apply Forall_forall. intros q Hq.
      destruct (join_infix [LF; LF] _ _ Hq) as (pre' & post' & Hj).
      rewrite Hjoin in Hj. rewrite Hj, !forallb_app in H.
      apply andb_true_iff in H as [_ [H _]%andb_true_iff].
      apply strip_blank in H. by rewrite H.
Qed.

End ParagraphListFacts.

(** * The character detector: cleaning and keyword analysis *)

Section DetectorFacts.

Import Detector.

Variable cs : Casing.
Variable character_profiles : Profiles.

Lemma lstrip_by_app_keep p pre c r :
  p c = false -> lstrip_by p (pre ++ c :: r) = lstrip_by p pre ++ c :: r.
Proof.
  intros Hc. induction pre as [|a pre IH]; simpl; [by rewrite Hc|].
  by destruct (p a).
Qed.

Lemma rstrip_by_app_keep p x c post :
  p c = false -> rstrip_by p (x ++ c :: post) = x ++ c :: rstrip_by p post.
Proof.
  intros Hc. induction x as [|a x IH]; simpl.
  - destruct (rstrip_by p post); [by rewrite Hc|done].
  - rewrite IH. by destruct x.
Qed.

Lemma clean_name_ends marks name :
  clean_name marks name = true ->
  remove_chars marks name = name
  /\ (exists c r, name = c :: r /\ isspace c = false)
  /\ (exists r d, name = r ++ [d] /\ isspace d = false).
Proof.
  unfold clean_name. intros [[H1 H2]%andb_true_iff H3]%andb_true_iff.
  split; [|split].
  - unfold remove_chars. clear H2 H3.
    induction name as [|c r IH]; simpl in *; [done|].
    apply andb_true_iff in H1 as [-> H1]. by rewrite IH.
  - destruct name as [|c r]; [done|]. exists c, r. split; [done|].
    by destruct (isspace c).
  - destruct (rev name) as [|d r] eqn:E; [done|].
    exists (rev r), d. split; [|by destruct (isspace d)].
    by rewrite <- (rev_involutive name), E.
Qed.

Lemma cleaning_keeps_name marks name text :
  clean_name marks name = true ->
  contains name text = true ->
  contains name (strip (remove_chars marks text)) = true.
Proof.
  intros (Hrm & (c & r & Hc & Hcs) & (r' & d & Hd & Hds))%clean_name_ends
         (pre & post & ->)%contains_infix.
  apply contains_infix.
  exists (lstrip_by isspace (remove_chars marks pre)),
         (rstrip_by isspace (remove_chars marks post)).
  assert (forall P Q, lstrip_by isspace (P ++ name ++ Q)
                      = lstrip_by isspace P ++ name ++ Q) as H1.
  { intros P Q. rewrite Hc. simpl. by apply lstrip_by_app_keep. }
  assert (forall P Q, rstrip_by isspace (P ++ name ++ Q)
                      = P ++ name ++ rstrip_by isspace Q) as H2.
  { intros P Q. rewrite Hd, <- !app_assoc. simpl. rewrite app_assoc.
    rewrite rstrip_by_app_keep by done. by rewrite <- app_assoc. }
  unfold strip.
  replace (remove_chars marks (pre ++ name ++ post))
    with (remove_chars marks pre ++ name ++ remove_chars marks post).
  - by rewrite H1, H2.
  - unfold remove_chars in *. by rewrite !List.filter_app, Hrm.
Qed.

Lemma detect_named text name c :
  In (name, c) name_patterns -> contains name text = true ->
  exists name' c',
    In (name', c') name_patterns /\ contains name' text = true
    /\ detect_character_from_text cs character_profiles text = (c', 1.0%float).
Proof.
  intros Hin Hc.
  destruct (find_is_Some (fun '(name, _) => contains name text)
              name_patterns (name, c) Hin Hc) as [[name' c'] Hfind].
  exists name', c'. pose proof Hfind as [H1 H2]%find_some.
  repeat split; [done|done|]. by apply (detect_by_name _ _ _ name').
Qed.

Lemma name_patterns_clean :
  Forall (fun '(name, _) =>
            clean_name dialogue_marks name = true
            /\ clean_name thought_marks name = true) name_patterns.
Proof. repeat constructor. Qed.

(** X8: quotes, dashes and brackets never hide a name. When an alias of
    the name table occurs in a dialogue or in a thought, the detector
    still answers with confidence 1.0 after removing the marks and
    stripping the text, and with the character of an alias that occurs
    in the cleaned text. *)
Theorem cleaning_keeps_names (text name : str) (c : CharacterType) :
  In (name, c) name_patterns ->
  contains name text = true ->
  (exists name' c',
      In (name', c') name_patterns
      /\ contains name' (strip (remove_chars dialogue_marks text)) = true
      /\ detect_character_from_dialogue cs character_profiles text
         = (c', 1.0%float))
  /\ (exists name' c',
      In (name', c') name_patterns
      /\ contains name' (strip (remove_chars thought_marks text)) = true
      /\ detect_character_from_thoughts cs character_profiles text
         = (c', 1.0%float)).
Proof.
  intros Hin Hc.
  pose proof name_patterns_clean as Hclean.
  rewrite List.Forall_forall in Hclean.
  destruct (Hclean _ Hin) as [Hd Ht].
  split.
  - unfold detect_character_from_dialogue.
    apply (detect_named _ name c Hin). by apply cleaning_keeps_name.
  - unfold detect_character_from_thoughts.
    apply (detect_named _ name c Hin). by apply cleaning_keeps_name.
Qed.

Lemma keyword_hits_found text_lower profile :
  0 < keyword_hits cs text_lower profile ->
  exists keyword,
    In keyword (keywords profile)
    /\ contains (lower cs keyword) text_lower = true.
Proof.
  unfold keyword_hits. intros H.
  destruct (existsb (fun k => contains (lower cs k) text_lower)
              (keywords profile)) eqn:E.
  - apply existsb_exists in E as (k & Hk & Hc). by exists k.
  - exfalso.
    assert (forall acc,
      fold_left
        (fun score keyword =>
           if contains (lower cs keyword) text_lower then S score else score)
        (keywords profile) acc = acc) as Hfold.
    { clear H. induction (keywords profile) as [|k r IH]; intros acc;
        simpl in *; [done|].
      apply orb_false_iff in E as [-> E]. by apply IH. }
    rewrite Hfold in H. lia.
Qed.

Lemma dict_set_in {V} k0 (v0 : V) d k v :
  In (k, v) (dict_set k0 v0 d) -> (k, v) = (k0, v0) \/ In (k, v) d.
Proof.
  induction d as [|[k' v'] r IH]; simpl.
  - intros [H|[]]. by left.
  - destruct (decide (k0 = k')) as [->|Hne]; simpl.
    + intros [H|H]; [by left|by right; right].
    + intros [H|H]; [by right; left|].
      destruct (IH H) as [?|?]; [by left|by right; right].
Qed.

Lemma keyword_scores_in text_lower (l : Profiles) d k v :
  In (k, v)
    (fold_left (fun d '(char_type, profile) =>
                  dict_set char_type (keyword_hits cs text_lower profile) d)
       l d) ->
  In (k, v) d
  \/ exists profile,
       In (k, profile) l /\ v = keyword_hits cs text_lower profile.
Proof.
  revert d. induction l as [|[ct p] r IH]; intros d; simpl; [by left|].
  intros [H|(p' & Hp & ->)]%IH.
  - apply dict_set_in in H as [[= -> ->]|H]; [|by left].
    right. exists p. by split; [left|].
  - right. exists p'. by split; [right|].
Qed.

Lemma max_key_in best d :
  max_key best d = best \/ In (max_key best d) d.
Proof.
  revert best. induction d as [|[k v] r IH]; intros best; simpl; [by left|].
  destruct (snd best <? v)%nat.
  - destruct (IH (k, v)) as [->|H]; [by right; left|by right; right].
  - destruct (IH best) as [->|H]; [by left|by right; right].
Qed.

(** X9: a keyword answer is sound and capped. When [_analyze_keywords]
    names a character, that character has a profile one of whose
    keywords occurs in the text, case folded; and the confidence is 0.8
    or lies below it. *)
Theorem analyze_keywords_sound (text : str) (c : CharacterType)
    (confidence : float) :
  _analyze_keywords cs character_profiles text = Some (c, confidence) ->
  (confidence = 0.8%float \/ PrimFloat.ltb confidence 0.8 = true)
  /\ exists profile keyword,
       In (c, profile) character_profiles
       /\ In keyword (keywords profile)
       /\ contains (lower cs keyword) (lower cs text) = true.
Proof.
  unfold _analyze_keywords.
  destruct (fold_left _ character_profiles []) as [|first rest] eqn:Ed;
    [discriminate|].
  destruct (max_key first rest) as [best_type best_score] eqn:Em.
  destruct (0 <? best_score)%nat eqn:Epos; [|discriminate].
  apply Nat.ltb_lt in Epos. intros [= -> <-]. split.
  - unfold py_min. destruct (PrimFloat.ltb _ 0.8) eqn:E; [by right|by left].
  - assert (In (c, best_score) (first :: rest)) as Hin.
    { destruct (max_key_in first rest) as [H|H]; rewrite Em in H.
      - left. done.
      - by right. }
    rewrite <- Ed in Hin.
    apply keyword_scores_in in Hin as [[]|(profile & Hp & ->)].
    destruct (keyword_hits_found _ _ Epos) as (k & Hk & Hc).
    by exists profile, k.
Qed.

End DetectorFacts.

Lemma cleaning_keeps_names_witness :
  exists name' c',
    In (name', c') Detector.name_patterns
    /\ Detector.detect_character_from_dialogue basic_casing
         Detector._create_default_profiles
         (u "— Elder, wait! — he said.") = (c', 1.0%float).
Proof.
  destruct (cleaning_keeps_names basic_casing
              Detector._create_default_profiles
              (u "— Elder, wait! — he said.") (u "Elder") Detector.ELDER)
    as [(name' & c' & H1 & _ & H2) _].
  - unfold Detector.name_patterns. do 13 right. by left.
  - by vm_compute.
  - by exists name', c'.
Defined.

Lemma analyze_keywords_sound_witness :
  (0.2%float = 0.8%float \/ PrimFloat.ltb 0.2 0.8 = true)
  /\ exists profile keyword,
       In (Detector.JIANG_CHEN, profile) Detector._create_default_profiles
       /\ In keyword (Detector.keywords profile)
       /\ contains (lower basic_casing keyword)
            (lower basic_casing (u "награда")) = true.
Proof.
  apply (analyze_keywords_sound basic_casing
           Detector._create_default_profiles (u "награда")).
  by vm_compute.
Defined.

(** * The translation memory: ranking, insertion, statistics, phrases *)

Section MemoryFacts.

Import Memory.

Variable cs : Casing.

Lemma insert_desc_perm x l : Permutation (insert_desc x l) (x :: l).
Proof.
  induction l as [|y r IH]; simpl; [done|].
  destruct (Qle_bool _ _); [done|].
  rewrite IH. apply perm_swap.
Qed.

Lemma sort_desc_perm l : Permutation (sort_desc l) l.
Proof.
  induction l as [|x r IH]; simpl; [done|].
  by rewrite insert_desc_perm, IH.
Qed.

Lemma insert_desc_sorted x l :
  StronglySorted more_similar l ->
  StronglySorted more_similar (insert_desc x l).
Proof.
  induction 1 as [|y r Hr IH Hy]; simpl.
  - by repeat constructor.
  - destruct (Qle_bool (similarity y) (similarity x)) eqn:E.
    + apply Qle_bool_iff in E.
      constructor; [by constructor|]. constructor; [done|].
      eapply Forall_impl; [exact Hy|]. intros z Hz. unfold more_similar in *.
      by apply (Qle_trans _ (similarity y)).
    + assert (similarity x <= similarity y)%Q as Hle.
      { apply Qlt_le_weak, Qnot_le_lt. intros H.
        apply Qle_bool_iff in H. congruence. }
      constructor; [done|]. apply List.Forall_forall.
      intros z [->|Hz]%in_insert_desc; [done|].
      rewrite List.Forall_forall in Hy. by apply Hy.
Qed.

Lemma sort_desc_sorted l : StronglySorted more_similar (sort_desc l).
Proof.
  induction l as [|x r IH]; simpl; [constructor|].
  by apply insert_desc_sorted.
Qed.

Lemma sorted_take {A} (R : A -> A -> Prop) n l :
  StronglySorted R l -> StronglySorted R (take n l).
Proof.
  intros H. revert n. induction H as [|x r Hr IH Hx]; intros [|n]; simpl;
    try constructor; [by apply IH|by apply Forall_take].
Qed.

Lemma sorted_app {A} (R : A -> A -> Prop) l1 l2 a b :
  StronglySorted R (l1 ++ l2) -> In a l1 -> In b l2 -> R a b.
Proof.
  induction l1 as [|x r IH]; simpl; [done|].
  intros H [->|Ha] Hb; inversion H as [|? ? Hs Hall]; subst.
  - rewrite List.Forall_forall in Hall. apply Hall, in_or_app. by right.
  - by apply IH.
Qed.

Lemma similar_of_threshold text threshold item s :
  similar_of cs text threshold item = Some s ->
  (threshold <= similarity s <= 1)%Q.
Proof.
  intros H. pose proof (similar_of_similarity cs _ _ _ _ H) as (Hs & _).
  unfold similar_of in H.
  destruct (_ && _); [|discriminate].
  destruct (Qle_bool threshold _) eqn:E; [|discriminate].
  apply Qle_bool_iff in E. rewrite Hs. split; [done|].
  apply jaccard_bounds.
Qed.

Lemma find_similar_length text threshold max_results st :
  length (find_similar cs text threshold max_results st) <= max_results.
Proof.
  unfold find_similar, _find_similar_file_system.
  destruct (memory_file st); simpl; [|lia]. rewrite length_take. lia.
Qed.

Lemma find_similar_sorted text threshold max_results st :
  StronglySorted more_similar (find_similar cs text threshold max_results st).
Proof.
  unfold find_similar, _find_similar_file_system.
  destruct (memory_file st); [|constructor].
  apply sorted_take, sort_desc_sorted.
Qed.

Lemma find_similar_bounds text threshold max_results st :
  Forall (fun s => (threshold <= similarity s <= 1)%Q)
    (find_similar cs text threshold max_results st).
Proof.
  apply List.Forall_forall. intros s Hs.
  apply find_similar_entries in Hs as (data & item & _ & _ & Hs).
  by apply similar_of_threshold in Hs.
Qed.

Lemma find_similar_top text threshold max_results st data item s :
  memory_file st = Some data -> In item data ->
  similar_of cs text threshold item = Some s ->
  In s (find_similar cs text threshold max_results st)
  \/ (length (find_similar cs text threshold max_results st) = max_results
      /\ Forall (fun s' => more_similar s' s)
           (find_similar cs text threshold max_results st)).
Proof.
  intros Hdata Hitem Hs.
  unfold find_similar, _find_similar_file_system. rewrite Hdata.
  set (candidates := omap (similar_of cs text threshold) data).
  assert (In s (sort_desc candidates)) as Hin.
  { apply (Permutation_in _ (Permutation_sym (sort_desc_perm _))).
    apply list_elem_of_In, list_elem_of_omap. exists item.
    split; [by apply list_elem_of_In|done]. }
  pose proof (sort_desc_sorted candidates) as Hsorted.
  rewrite <- (take_drop max_results (sort_desc candidates)) in Hin, Hsorted.
  apply in_app_or in Hin as [Hin|Hin]; [by left|right]. split.
  + rewrite length_take. apply Nat.min_l.
    destruct (decide (max_results <= length (sort_desc candidates)));
      [done|].
    rewrite drop_ge in Hin by lia. destruct Hin.
  + apply List.Forall_forall. intros s' Hs'.
    by apply (sorted_app _ _ _ s' s Hsorted).
Qed.

(** X10: the file search ranks its results. It returns at most
    [max_results] entries, sorted by similarity, greatest first, each
    with a similarity between the threshold and 1; and it returns the
    best ones: a stored record that passes the threshold is left out
    only when the result is full and every returned entry is at least as
    similar. *)
Theorem find_similar_ranked (text : str) (threshold : Q) (max_results : nat)
    (st : Store) :
  let results := find_similar cs text threshold max_results st in
  length results <= max_results
  /\ StronglySorted more_similar results
  /\ Forall (fun s => (threshold <= similarity s <= 1)%Q) results
  /\ (forall data item s,
        memory_file st = Some data -> In item data ->
        similar_of cs text threshold item = Some s ->
        In s results
        \/ (length results = max_results
            /\ Forall (fun s' => more_similar s' s) results)).
Proof.
  cbn zeta. split; [apply find_similar_length|].
  split; [apply find_similar_sorted|].
  split; [apply find_similar_bounds|].
  intros data item s. apply find_similar_top.
Qed.

Lemma size_list_to_set_le (l : list str) :
  size (list_to_set l : gset str) <= length l.
Proof.
  induction l as [|x r IH].
  - change (list_to_set [] : gset str) with (∅ : gset str).
    by rewrite size_empty.
  - change (list_to_set (x :: r) : gset str)
      with ({[x]} ∪ list_to_set r : gset str).
    cbn [length].
    destruct (decide (x ∈ (list_to_set r : gset str))) as [Hin|Hin].
    + replace ({[x]} ∪ list_to_set r : gset str)
        with (list_to_set r : gset str); [lia|].
      apply leibniz_equiv. set_solver.
    + rewrite size_union by set_solver. rewrite size_singleton. lia.
Qed.

Lemma size_list_to_set_pos (l : list str) :
  l <> [] -> 0 < size (list_to_set l : gset str).
Proof.
  destruct l as [|x r]; [done|]. intros _.
  apply Nat.neq_0_lt_0. intros H. apply size_empty_inv in H.
  assert (x ∈ (list_to_set (x :: r) : gset str)) as Hx by set_solver.
  set_solver.
Qed.

Lemma omap_length_le {A B} (f : A -> option B) (l : list A) :
  length (omap f l) <= length l.
Proof.
  induction l as [|x r IH]; [done|].
  change (omap f (x :: r))
    with (match f x with Some y => y :: omap f r | None => omap f r end).
  destruct (f x); simpl; lia.
Qed.

(** X11: the statistics of the file store are consistent. The numbers
    of distinct chapters and of distinct characters never exceed the
    number of records, and a store that holds a record has at least one
    chapter. *)
Theorem get_statistics_consistent (st : Store) (stats : Statistics) :
  get_statistics st = Some stats ->
  chapters stats <= total_translations stats
  /\ characters stats <= total_translations stats
  /\ (0 < total_translations stats -> 0 < chapters stats).
Proof.
  unfold get_statistics. destruct (memory_file st) as [data|]; [|done].
  intros [= <-]. cbn [chapters characters total_translations].
  split; [|split].
  - pose proof (size_list_to_set_le (map td_chapter data)) as H.
    rewrite length_map in H. exact H.
  - pose proof (size_list_to_set_le (truthy_characters data)) as H.
    pose proof (omap_length_le
                  (fun item => match td_character item with
                               | Some (c :: r) => Some (c :: r)
                               | _ => None
                               end) data) as H'.
    unfold truthy_characters in *. lia.
  - intros H. apply size_list_to_set_pos. destruct data; [simpl in H; lia|].
    done.
Qed.

Variable tm : Time.
Variable md5_hexdigest : str -> str.

(** X12: an insert is seen by the chapter context and by the
    statistics. After [add_translation] into a readable store, the
    context of the record's chapter is the former one followed by the new
    record, which carries the source and target texts of the insert; the
    context of every other chapter is unchanged; and the total of the
    statistics has grown by one. *)
Theorem add_translation_observed (m : TranslationMemory) (st : Store)
    (data : list TranslationData) :
  memory_file st = Some data ->
  let st' := snd (add_translation tm md5_hexdigest m st) in
  (exists record,
      get_chapter_context (chapter m) st'
      = get_chapter_context (chapter m) st ++ [record]
      /\ td_source_text record = source_text m
      /\ td_target_text record = target_text m
      /\ td_id record = fst (add_translation tm md5_hexdigest m st))
  /\ (forall c, c <> chapter m ->
        get_chapter_context c st' = get_chapter_context c st)
  /\ (exists stats stats',
        get_statistics st = Some stats
        /\ get_statistics st' = Some stats'
        /\ total_translations stats' = S (total_translations stats)).
Proof.
  intros Hdata. destruct st as [mf t]. simpl in Hdata. subst mf.
  destruct (add_to_file_system_appends tm md5_hexdigest m data t)
    as (ts & t' & ->).
  cbn zeta. cbn [snd fst]. unfold get_chapter_context, get_statistics.
  cbn [memory_file]. split; [|split].
  - eexists. rewrite List.filter_app. cbn [List.filter td_chapter].
    unfold str_eqb. rewrite bool_decide_true by done.
    split; [done|]. by repeat split.
  - intros c Hc. rewrite List.filter_app. cbn [List.filter td_chapter].
    unfold str_eqb. rewrite bool_decide_false by done. by rewrite app_nil_r.
  - eexists _, _. split; [done|]. split; [done|].
    cbn [total_translations]. rewrite length_app. simpl. lia.
Qed.

Lemma similar_of_same_text text threshold item :
  split_ws (lower cs text) <> [] ->
  (threshold <= 1)%Q ->
  td_source_text item = text ->
  exists s, similar_of cs text threshold item = Some s
            /\ (similarity s == 1)%Q.
Proof.
  intros Htok Hthr Hsrc.
  assert (word_set cs text ≠ ∅) as Hne.
  { unfold word_set. destruct (split_ws (lower cs text)); [done|].
    set_solver. }
  unfold similar_of. rewrite Hsrc.
  pose proof (jaccard_self _ Hne) as H1.
  rewrite (set_nonempty_true _ Hne). simpl.
  assert (Qle_bool threshold
            (jaccard (word_set cs text) (word_set cs text)) = true) as ->.
  { apply Qle_bool_iff. by rewrite H1. }
  eexists. by split.
Qed.

Lemma similar_of_raise text threshold item s :
  similar_of cs text threshold item = Some s ->
  (1 <= similarity s)%Q ->
  similar_of cs text 1 item <> None.
Proof.
  intros Hs Hle.
  pose proof (similar_of_similarity cs _ _ _ _ Hs) as (Hsim & _).
  unfold similar_of in *.
  destruct (_ && _); [|discriminate].
  rewrite Hsim in Hle. apply Qle_bool_iff in Hle. by rewrite Hle.
Qed.

(** X14: what was inserted is recalled. After the insert of a record
    whose source text has at least one word, a search for that source
    text, with a threshold of at most 1 and room for at least one
    result, finds something, and its first result has similarity 1. The
    first result is the new record unless an older record already
    matched the text with similarity 1: among equally similar records
    the older one comes first. *)
Theorem recall_after_insert (m : TranslationMemory) (st : Store)
    (data : list TranslationData) (threshold : Q) (max_results : nat) :
  memory_file st = Some data ->
  split_ws (lower cs (source_text m)) <> [] ->
  (threshold <= 1)%Q ->
  0 < max_results ->
  let st' := snd (add_translation tm md5_hexdigest m st) in
  exists best rest,
    find_similar cs (source_text m) threshold max_results st' = best :: rest
    /\ (similarity best == 1)%Q
    /\ (Forall (fun item => similar_of cs (source_text m) 1 item = None) data
        -> sim_target_text best = target_text m).
Proof.
  intros Hdata Htok Hthr Hmax. destruct st as [mf t]. simpl in Hdata.
  subst mf.
  destruct (add_to_file_system_appends tm md5_hexdigest m data t)
    as (ts & t' & ->).
  cbn zeta. cbn [snd].
  set (record := {| td_id := _ |}).
  set (st' := {| memory_file := Some (data ++ [record]); ticks := t' |}).
  destruct (similar_of_same_text (source_text m) threshold record Htok Hthr
              eq_refl) as (s0 & Hs0 & H1).
  pose proof (find_similar_top (source_text m) threshold max_results st'
                (data ++ [record]) record s0 eq_refl
                ltac:(apply in_or_app; right; by left) Hs0) as Htop.
  pose proof (find_similar_sorted (source_text m) threshold max_results st')
    as Hsorted.
  pose proof (find_similar_bounds (source_text m) threshold max_results st')
    as Hbounds.
  assert (forall s, In s (find_similar cs (source_text m) threshold
                            max_results st') ->
            exists item, In item (data ++ [record])
                         /\ similar_of cs (source_text m) threshold item
                            = Some s) as Hentries.
  { intros s Hs.
    apply find_similar_entries in Hs as (data' & item & Hd & Hin & Hs).
    simpl in Hd. injection Hd as <-. by exists item. }
  destruct (find_similar cs (source_text m) threshold max_results st')
    as [|best rest].
  { destruct Htop as [[]|[Hlen _]]. simpl in Hlen. lia. }
  exists best, rest. split; [done|].
  inversion Hsorted as [|? ? _ Hbest]; subst.
  inversion Hbounds as [|? ? [_ Hle] _]; subst.
  assert (1 <= similarity best)%Q as Hge.
  { rewrite <- H1. destruct Htop as [[<-|Hin]|[_ Hall]].
    - apply Qle_refl.
    - rewrite List.Forall_forall in Hbest. by apply Hbest.
    - by inversion Hall. }
  split; [by apply Qle_antisym|].
  intros Hold.
  destruct (Hentries best ltac:(by left)) as (item & Hin & Hs).
  apply in_app_or in Hin as [Hin|[<-|[]]].
  - rewrite List.Forall_forall in Hold.
    by destruct (similar_of_raise _ _ _ _ Hs Hge (Hold item Hin)).
  - by apply similar_of_similarity in Hs as (_ & _ & ->).
Qed.

Variable reference_data : ReferenceData.

Lemma contains_refl s : contains s s = true.
Proof. apply contains_infix. exists [], []. by rewrite app_nil_r. Qed.

Lemma dict_get_in {V} k (d : list (str * V)) v :
  dict_get k d = Some v -> In (k, v) d.
Proof.
  unfold dict_get.
  destruct (List.find _ d) as [[k' v']|] eqn:E; [|discriminate].
  intros [= ->]. apply find_some in E as [Hin Hk].
  unfold str_eqb in Hk. apply bool_decide_eq_true in Hk. by subst.
Qed.

(** X15: a phrase lookup answers from the reference table, and answers
    whenever it can. An answer is the translation stored for a phrase
    that is the text itself or partially matches it; and there is no
    answer exactly when the table is absent or none of its phrases
    partially matches the text. *)
Theorem get_phrase_translation_characterised (text : str)
    (chapter : option str) :
  (forall translation,
      get_phrase_translation cs reference_data text chapter
      = Some translation ->
      exists table chapter_key phrases phrase,
        phrase_translations reference_data = Some table
        /\ In (chapter_key, phrases) table
        /\ In (phrase, translation) phrases
        /\ (phrase = text \/ partial_match cs text phrase = true))
  /\ (get_phrase_translation cs reference_data text chapter = None
      <-> forall table chapter_key phrases phrase translation,
            phrase_translations reference_data = Some table ->
            In (chapter_key, phrases) table ->
            In (phrase, translation) phrases ->
            partial_match cs text phrase = false).
Proof.
  unfold get_phrase_translation.
  destruct (phrase_translations reference_data) as [table|];
    [|by split; [|split]].
  destruct (omap _ table) as [|exact rest] eqn:Eo.
  - destruct (List.find _ (concat (map snd table))) as [[p t]|] eqn:Ef.
    + apply find_some in Ef as [Hin Hp].
      apply in_concat in Hin as (phrases & Hph & Hin).
      apply in_map_iff in Hph as ([ch ph] & <- & Hch). simpl in Hin.
      split.
      * intros ? [= <-]. exists table, ch, ph, p.
        repeat split; [done|done|by right].
      * split; [done|]. intros H.
        specialize (H table ch ph p t eq_refl Hch Hin).
        unfold partial_match in H. cbn beta iota in Hp. congruence.
    + split; [done|]. split; [|done]. intros _.
      intros ? ch ph p t [= <-] Hch Hin.
      apply (find_none _ _ Ef (p, t)).
      apply in_concat. exists ph. split; [|done].
      apply in_map_iff. by exists (ch, ph).
  - assert (In exact (omap (fun '(_, phrases) => dict_get text phrases) table))
      as Hin by (rewrite Eo; by left).
    apply list_elem_of_In, list_elem_of_omap in Hin as ([ch ph] & Hch & Hget).
    apply list_elem_of_In in Hch. apply dict_get_in in Hget.
    split.
    + intros ? [= <-]. exists table, ch, ph, text.
      repeat split; [done|done|by left].
    + split; [done|]. intros H.
      specialize (H table ch ph text exact eq_refl Hch Hget).
      unfold partial_match in H. by rewrite contains_refl in H.
Qed.

End MemoryFacts.

Lemma get_statistics_consistent_witness :
  exists stats,
    Memory.get_statistics
      (snd (Memory.add_translation Sample.time Sample.digest
              (Sample.memory (u "Hello") (u "Привет") (u "1"))
              Sample.empty_store)) = Some stats
    /\ Memory.chapters stats <= Memory.total_translations stats
    /\ Memory.characters stats <= Memory.total_translations stats
    /\ (0 < Memory.total_translations stats -> 0 < Memory.chapters stats).
Proof.
  exists {| Memory.total_translations := 1; Memory.chapters := 1;
            Memory.characters := 0 |}.
  assert (Memory.get_statistics
            (snd (Memory.add_translation Sample.time Sample.digest
                    (Sample.memory (u "Hello") (u "Привет") (u "1"))
                    Sample.empty_store))
          = Some {| Memory.total_translations := 1; Memory.chapters := 1;
                    Memory.characters := 0 |}) as H by (by vm_compute).
  split; [exact H|]. eapply get_statistics_consistent. exact H.
Defined.

Lemma add_translation_observed_witness :
  exists record,
    Memory.get_chapter_context (u "1")
      (snd (Memory.add_translation Sample.time Sample.digest
              (Sample.memory (u "Hello") (u "Привет") (u "1"))
              Sample.empty_store)) = [record]
    /\ Memory.td_target_text record = u "Привет".
Proof.
  destruct (add_translation_observed Sample.time Sample.digest
              (Sample.memory (u "Hello") (u "Привет") (u "1"))
              Sample.empty_store [] eq_refl)
    as [(record & H1 & _ & H2 & _) _].
  exists record. split; [exact H1|exact H2].
Defined.

Lemma recall_after_insert_witness :
  exists best rest,
    Memory.find_similar basic_casing (u "Hello there") (85 # 100) 5
      (snd (Memory.add_translation Sample.time Sample.digest
              (Sample.memory (u "Hello there") (u "Привет") (u "1"))
              Sample.empty_store))
    = best :: rest
    /\ Memory.sim_target_text best = u "Привет".
Proof.
  destruct (recall_after_insert basic_casing Sample.time Sample.digest
              (Sample.memory (u "Hello there") (u "Привет") (u "1"))
              Sample.empty_store [] (85 # 100) 5)
    as (best & rest & H1 & _ & H2).
  - reflexivity.
  - by vm_compute.
  - by vm_compute.
  - lia.
  - exists best, rest. split; [exact H1|]. apply H2. constructor.
Defined.

(** * The similarity of the file search is the Jaccard index *)

Section SimilarityIsJaccard.

Import Memory.

Variable cs : Casing.

(** The quotient computed on the two sets of words is the Jaccard index
    of the two lists of tokens. *)
Lemma jaccard_word_sets (a b : str) :
  jaccard (word_set cs a) (word_set cs b)
  = jaccard_index (tokens cs a) (tokens cs b).
Proof.
  unfold jaccard, jaccard_index, word_set, tokens. cbn zeta.
  set (la := split_ws (lower cs a)). set (lb := split_ws (lower cs b)).
  assert (size (list_to_set la ∩ list_to_set lb : gset str)
          = length (remove_dups (filter (fun w => w ∈ lb) la))) as ->.
  { rewrite <- (size_list_to_set (C := gset str))
      by apply NoDup_remove_dups.
    f_equal. apply set_eq. intros w.
    rewrite elem_of_intersection, !elem_of_list_to_set, elem_of_remove_dups,
      list_elem_of_filter. tauto. }
  assert (size (list_to_set la ∪ list_to_set lb : gset str)
          = length (remove_dups (la ++ lb))) as ->.
  { rewrite <- (size_list_to_set (C := gset str))
      by apply NoDup_remove_dups.
    f_equal. apply set_eq. intros w.
    rewrite elem_of_union, !elem_of_list_to_set, elem_of_remove_dups,
      elem_of_app. tauto. }
  done.
Qed.

Lemma same_tokens_word_set (a b : str) :
  same_tokens cs a b -> word_set cs a = word_set cs b.
Proof. intros H. by apply word_set_same_tokens. Qed.

(** What the search assigns to a record it returns. *)
Lemma find_similar_entry text threshold max_results st s :
  In s (find_similar cs text threshold max_results st) ->
  exists data stored,
    memory_file st = Some data /\ In stored data
    /\ sim_source_text s = td_source_text stored
    /\ sim_target_text s = td_target_text stored
    /\ similarity s
       = jaccard_index (tokens cs text) (tokens cs (td_source_text stored))
    /\ (threshold <= similarity s <= 1)%Q
    /\ tokens cs text <> [] /\ tokens cs (td_source_text stored) <> [].
Proof.
  intros Hin.
  apply find_similar_entries in Hin as (data & stored & Hd & Hi & Hs).
  exists data, stored.
  pose proof (similar_of_similarity cs _ _ _ _ Hs) as (Hsim & Hsrc & Htgt).
  pose proof (similar_of_threshold cs _ _ _ _ Hs) as Hb.
  rewrite jaccard_word_sets in Hsim.
  repeat split; try done; try apply Hb.
  all: unfold similar_of, word_set, set_nonempty, tokens in *;
    intros Hnil; rewrite Hnil in Hs; simpl in Hs;
    rewrite ?andb_false_r in Hs; discriminate.
Qed.

Lemma jaccard_index_same (a b : str) :
  same_tokens cs a b -> tokens cs a <> [] ->
  (jaccard_index (tokens cs a) (tokens cs b) == 1)%Q.
Proof.
  intros Hsame Hne. rewrite <- jaccard_word_sets.
  rewrite <- (same_tokens_word_set a b Hsame).
  apply jaccard_self. unfold word_set. fold (tokens cs a).
  destruct (tokens cs a); [done|set_solver].
Qed.

(** A stored record with the tokens of the query passes every threshold
    up to 1. *)
Lemma similar_of_same_tokens text threshold stored :
  tokens cs text <> [] -> same_tokens cs text (td_source_text stored) ->
  (threshold <= 1)%Q ->
  exists s, similar_of cs text threshold stored = Some s
            /\ sim_source_text s = td_source_text stored
            /\ sim_target_text s = td_target_text stored
            /\ (similarity s == 1)%Q.
Proof.
  intros Htok Hsame Hthr.
  assert (word_set cs text ≠ ∅) as Hne.
  { unfold word_set. fold (tokens cs text).
    destruct (tokens cs text); [done|set_solver]. }
  unfold similar_of. rewrite <- (same_tokens_word_set _ _ Hsame).
  pose proof (jaccard_self _ Hne) as H1.
  rewrite (set_nonempty_true _ Hne). simpl.
  assert (Qle_bool threshold
            (jaccard (word_set cs text) (word_set cs text)) = true) as ->.
  { apply Qle_bool_iff. by rewrite H1. }
  eexists. by repeat split.
Qed.

(** C10: in the file backend the similarity that the search assigns to a
    record it returns is the Jaccard index of the lowercased,
    whitespace-separated tokens of the query and of the record's source
    text, read as sets. It lies in [0,1]; it is symmetric in the two
    texts; it does not change when the words of either text are
    reordered or repeated; and it is exactly 1 when the two texts have
    the same tokens. A stored text is matched by a
    reordered or word-duplicating version of itself: for a threshold up
    to 1 the search then returns a first result of similarity 1, and it
    returns the stored record itself with similarity 1 unless the
    result is full of records of similarity 1. *)
Theorem file_similarity_is_jaccard (text : str) (threshold : Q)
    (max_results : nat) (st : Store) :
  (forall s, In s (find_similar cs text threshold max_results st) ->
     exists data stored,
       memory_file st = Some data /\ In stored data
       /\ sim_source_text s = td_source_text stored
       /\ sim_target_text s = td_target_text stored
       /\ similarity s
          = jaccard_index (tokens cs text) (tokens cs (td_source_text stored))
       /\ (0 <= similarity s <= 1)%Q
       /\ (same_tokens cs text (td_source_text stored) ->
           (similarity s == 1)%Q))
  /\ (forall text' threshold' max_results' st' s s',
        In s (find_similar cs text threshold max_results st) ->
        In s' (find_similar cs text' threshold' max_results' st') ->
        sim_source_text s = text' -> sim_source_text s' = text ->
        similarity s = similarity s')
  /\ (forall text' threshold' max_results' st' s s',
        In s (find_similar cs text threshold max_results st) ->
        In s' (find_similar cs text' threshold' max_results' st') ->
        same_tokens cs text text' ->
        same_tokens cs (sim_source_text s) (sim_source_text s') ->
        similarity s = similarity s')
  /\ (forall data stored,
        memory_file st = Some data -> In stored data ->
        tokens cs text <> [] ->
        same_tokens cs text (td_source_text stored) ->
        (threshold <= 1)%Q ->
        (0 < max_results ->
         exists best rest,
           find_similar cs text threshold max_results st = best :: rest
           /\ (similarity best == 1)%Q)
        /\ ((exists s,
               In s (find_similar cs text threshold max_results st)
               /\ sim_source_text s = td_source_text stored
               /\ sim_target_text s = td_target_text stored
               /\ (similarity s == 1)%Q)
            \/ (length (find_similar cs text threshold max_results st)
                = max_results
                /\ Forall (fun s => (similarity s == 1)%Q)
                     (find_similar cs text threshold max_results st)))).
Proof.
  split; [|split; [|split]].
  - intros s Hin.
    destruct (find_similar_entry _ _ _ _ _ Hin)
      as (data & stored & Hd & Hi & Hsrc & Htgt & Hsim & [Hlo Hhi] & Hne & _).
    exists data, stored. repeat split; try done.
    + rewrite Hsim, <- jaccard_word_sets. apply jaccard_bounds.
    + intros Hsame. rewrite Hsim. by apply jaccard_index_same.
  - intros text' threshold' max_results' st' s s' Hin Hin' Hsrc Hsrc'.
    destruct (find_similar_entry _ _ _ _ _ Hin)
      as (_ & stored & _ & _ & Hs & _ & -> & _).
    destruct (find_similar_entry _ _ _ _ _ Hin')
      as (_ & stored' & _ & _ & Hs' & _ & -> & _).
    rewrite <- Hs, <- Hs', Hsrc, Hsrc', <- !jaccard_word_sets.
    apply jaccard_sym.
  - intros text' threshold' max_results' st' s s' Hin Hin' Hq Hr.
    destruct (find_similar_entry _ _ _ _ _ Hin)
      as (_ & stored & _ & _ & Hs & _ & -> & _).
    destruct (find_similar_entry _ _ _ _ _ Hin')
      as (_ & stored' & _ & _ & Hs' & _ & -> & _).
    rewrite Hs, Hs' in Hr. rewrite <- !jaccard_word_sets.
    by rewrite (same_tokens_word_set _ _ Hq), (same_tokens_word_set _ _ Hr).
  - intros data stored Hd Hi Htok Hsame Hthr.
    destruct (similar_of_same_tokens text threshold stored Htok Hsame Hthr)
      as (s0 & Hs0 & Hsrc0 & Htgt0 & H1).
    pose proof (find_similar_top cs text threshold max_results st data
                  stored s0 Hd Hi Hs0) as Htop.
    pose proof (find_similar_sorted cs text threshold max_results st)
      as Hsorted.
    pose proof (find_similar_bounds cs text threshold max_results st)
      as Hbounds.
    assert (Forall (fun s' => more_similar s' s0)
              (find_similar cs text threshold max_results st) ->
            Forall (fun s => (similarity s == 1)%Q)
              (find_similar cs text threshold max_results st)) as Hfull.
    { intros Hall. rewrite List.Forall_forall in Hall, Hbounds |- *.
      intros s Hs. apply Qle_antisym; [by apply Hbounds|].
      rewrite <- H1. by apply Hall. }
    split.
    + intros Hmax.
      destruct (find_similar cs text threshold max_results st)
        as [|best rest].
      { destruct Htop as [[]|[Hlen _]]. simpl in Hlen. lia. }
      exists best, rest. split; [done|].
      inversion Hsorted as [|? ? _ Hbest]; subst.
      inversion Hbounds as [|? ? [_ Hle] _]; subst.
      apply Qle_antisym; [done|]. rewrite <- H1.
      destruct Htop as [[<-|Hin]|[_ Hall]].
      * apply Qle_refl.
      * rewrite List.Forall_forall in Hbest. by apply Hbest.
      * by inversion Hall.
    + destruct Htop as [Hin|[Hlen Hall]].
      * left. by exists s0.
      * right. split; [done|by apply Hfull].
Qed.

End SimilarityIsJaccard.

Lemma file_similarity_is_jaccard_witness :
  exists best rest,
    Memory.find_similar basic_casing
      (u "the mountain Jiang Chen LOOKED at the the mountain") 1 5
      Sample.sentence_store
    = best :: rest
    /\ (Memory.similarity best == 1)%Q.
Proof.
  destruct (file_similarity_is_jaccard basic_casing
              (u "the mountain Jiang Chen LOOKED at the the mountain") 1 5
              Sample.sentence_store) as (_ & _ & _ & H).
  destruct (H [Sample.stored_sentence] Sample.stored_sentence eq_refl
              (or_introl eq_refl)) as [Hbest _].
  - by vm_compute.
  - intros w. vm_compute tokens. rewrite !elem_of_cons, !elem_of_nil. tauto.
  - by vm_compute.
  - apply Hbest. lia.
Defined.

(** * The translation cache of the DeepL client *)

Section CacheFacts.

Import DeepL.

Variable tm : Time.
Variable md5_hexdigest : str -> str.
Variable translate_api : nat -> str -> str -> str -> option str.
Variable max_age_hours : Z.
Variable translator_available : bool.
Variable translate_many_api :
  nat -> list str -> str -> str -> option (list str).

Abbreviation cache_get := (cache_get tm md5_hexdigest max_age_hours).
Abbreviation cache_set := (cache_set tm md5_hexdigest).
Abbreviation get_or_translate :=
  (get_or_translate tm md5_hexdigest translate_api max_age_hours).
Abbreviation batch_get_or_translate :=
  (batch_get_or_translate tm md5_hexdigest max_age_hours translate_many_api).
Abbreviation lookup_all := (lookup_all tm md5_hexdigest max_age_hours).
Abbreviation store_translations := (store_translations tm md5_hexdigest).
Abbreviation _generate_key := (_generate_key md5_hexdigest).

(** A lookup counts one request, as a hit or as a miss, and sends
    nothing to the service. *)
Lemma cache_get_counts text sl tl st r st' :
  cache_get text sl tl st = (r, st') ->
  total_requests (stats st') = S (total_requests (stats st))
  /\ hits (stats st') + misses (stats st')
     = S (hits (stats st) + misses (stats st))
  /\ api_calls st' = api_calls st.
Proof.
  unfold DeepL.cache_get, bind, modify, get, ret, miss, _is_expired, zoom, now.
  cbn zeta. simpl.
  destruct (cache st !! _) as [e|]; simpl; [|intros [= <- <-]; simpl; lia].
  destruct (fromisoformat tm (timestamp e)); simpl;
    [|intros [= <- <-]; simpl; lia].
  destruct (_ <? _)%Z; simpl; intros [= <- <-]; simpl; lia.
Qed.

Lemma cache_set_counts text tr sl tl st r st' :
  cache_set text tr sl tl st = (r, st') ->
  total_requests (stats st') = total_requests (stats st)
  /\ hits (stats st') = hits (stats st)
  /\ misses (stats st') = misses (stats st)
  /\ api_calls st' = api_calls st.
Proof.
  unfold DeepL.cache_set, bind, modify, get, ret, _save_cache, zoom, now_iso,
    now, bind, ret.
  cbn zeta. simpl.
  destruct (_ =? 0)%nat; simpl; by intros [= <- <-].
Qed.

Lemma for_each_count {St A B} (f : St -> nat) (body : A -> M St B)
    (l : list A) :
  (forall x st, f (snd (body x st)) = S (f st)) ->
  forall st, f (snd (for_each l body st)) = f st + length l.
Proof.
  intros Hbody. induction l as [|x r IH]; intros st; simpl; [lia|].
  unfold bind, ret. specialize (Hbody x st).
  destruct (body x st) as [y st1]. simpl in Hbody.
  specialize (IH st1). destruct (for_each r body st1) as [ys st2].
  simpl in *. lia.
Qed.

(** The path of [get_or_translate] behind a miss: one request, and
    the counters of the cache untouched. *)
Lemma translate_and_store_counts text sl tl st r st' :
  (do answer <- translate_func translate_api text sl tl;
   match answer with
   | Some translation =>
     do_ cache_set text translation sl tl; ret translation
   | None => ret text
   end) st = (r, st') ->
  total_requests (stats st') = total_requests (stats st)
  /\ hits (stats st') = hits (stats st)
  /\ misses (stats st') = misses (stats st)
  /\ api_calls st' = S (api_calls st).
Proof.
  unfold translate_func, bind at 1 2 3, get, put, ret. cbn [fst snd].
  destruct (translate_api _ _ _ _) as [tr|]; [|by intros [= <- <-]].
  unfold bind.
  destruct (cache_set _ _ _ _ _) as [[] st3] eqn:Eset.
  apply cache_set_counts in Eset. intros [= <- <-]. by simpl in *.
Qed.

Lemma translate_and_store_result text sl tl st r st' :
  (do answer <- translate_func translate_api text sl tl;
   match answer with
   | Some translation =>
     do_ cache_set text translation sl tl; ret translation
   | None => ret text
   end) st = (r, st') ->
  r = default text (translate_api (api_calls st) text sl tl).
Proof.
  unfold translate_func, bind at 1 2 3, get, put, ret. cbn [fst snd].
  destruct (translate_api _ _ _ _) as [tr|]; [|by intros [= <- <-]].
  unfold bind. destruct (cache_set _ _ _ _ _) as [[] st3].
  by intros [= <- <-].
Qed.

Lemma get_or_translate_counts text sl tl st r st' :
  get_or_translate text sl tl st = (r, st') ->
  total_requests (stats st') = S (total_requests (stats st))
  /\ hits (stats st') + misses (stats st')
     = S (hits (stats st) + misses (stats st))
  /\ api_calls st <= api_calls st' <= S (api_calls st).
Proof.
  unfold DeepL.get_or_translate, bind at 1.
  destruct (cache_get text sl tl st) as [cached st1] eqn:Eget.
  apply cache_get_counts in Eget.
  destruct cached as [[|c cs]|].
  - intros H%translate_and_store_counts. lia.
  - intros [= <- <-]. lia.
  - intros H%translate_and_store_counts. lia.
Qed.

Lemma lookup_all_counts texts sl tl st rs st' :
  lookup_all texts sl tl st = (rs, st') ->
  length rs = length texts
  /\ total_requests (stats st')
     = total_requests (stats st) + length texts
  /\ hits (stats st') + misses (stats st')
     = hits (stats st) + misses (stats st) + length texts
  /\ api_calls st' = api_calls st.
Proof.
  intros H. unfold DeepL.lookup_all in H.
  match type of H with for_each _ ?b _ = _ => set (body := b) in * end.
  assert (forall x st0,
    total_requests (stats (snd (body x st0)))
    = S (total_requests (stats st0))
    /\ hits (stats (snd (body x st0))) + misses (stats (snd (body x st0)))
       = S (hits (stats st0) + misses (stats st0))
    /\ api_calls (snd (body x st0)) = api_calls st0) as Hbody.
  { intros x st0. subst body. cbn beta. unfold bind.
    destruct (cache_get x sl tl st0) as [cached st2] eqn:Eget.
    apply cache_get_counts in Eget.
    by destruct cached as [[|c r]|]. }
  repeat split.
  - rewrite <- (for_each_length body texts st). by rewrite H.
  - pose proof (for_each_count (fun st => total_requests (stats st)) body
                  texts (fun x st0 => proj1 (Hbody x st0)) st) as Hc.
    by rewrite H in Hc.
  - pose proof (for_each_count
                  (fun st => hits (stats st) + misses (stats st)) body texts
                  (fun x st0 => proj1 (proj2 (Hbody x st0))) st) as Hc.
    by rewrite H in Hc.
  - pose proof (for_each_preserves
                  (fun st0 => api_calls st0 = api_calls st) body texts
                  (fun x st0 Hst =>
                     eq_trans (proj2 (proj2 (Hbody x st0))) Hst)
                  st eq_refl) as Hc.
    by rewrite H in Hc.
Qed.

Lemma length_set_at i v results :
  length (set_at i v results) = length results.
Proof. unfold set_at. by rewrite length_insert. Qed.

Lemma store_translations_counts sl tl translations pending results st
    out st' :
  store_translations sl tl translations pending results st = (out, st') ->
  total_requests (stats st') = total_requests (stats st)
  /\ hits (stats st') = hits (stats st)
  /\ misses (stats st') = misses (stats st)
  /\ api_calls st' = api_calls st
  /\ length (snd out) = length results
  /\ (forall rs, fst out = Some rs -> length rs = length results).
Proof.
  revert pending results st.
  induction translations as [|tr more IH]; intros pending results st;
    cbn [DeepL.store_translations].
  - intros [= <- <-]. repeat split. by intros rs [= <-].
  - destruct pending as [|[i text] pending'].
    + by intros [= <- <-].
    + unfold bind at 1.
      destruct (cache_set text tr sl tl st) as [[] st1] eqn:Eset.
      apply cache_set_counts in Eset.
      intros (H1 & H2 & H3 & H4 & H5 & H6)%IH.
      rewrite length_set_at in H5, H6.
      repeat split; [lia|lia|lia|lia|done|done].
Qed.

Lemma length_fill_missing texts indices results :
  length (fill_missing texts indices results) = length results.
Proof.
  unfold fill_missing. revert results.
  induction indices as [|i r IH]; intros results; simpl; [done|].
  rewrite IH. destruct (results !! i) as [[?|]|]; [done| |done].
  destruct (texts !! i); [|done]. by rewrite length_insert.
Qed.

Lemma batch_get_or_translate_counts texts sl tl st rs st' :
  batch_get_or_translate texts sl tl st = (rs, st') ->
  length rs = length texts
  /\ total_requests (stats st')
     = total_requests (stats st) + length texts
  /\ hits (stats st') + misses (stats st')
     = hits (stats st) + misses (stats st) + length texts
  /\ api_calls st <= api_calls st' <= S (api_calls st).
Proof.
  unfold DeepL.batch_get_or_translate, bind at 1.
  destruct (lookup_all texts sl tl st) as [results st1] eqn:El.
  apply lookup_all_counts in El as (Hlen & Ht & Hhm & Hapi).
  cbv zeta.
  destruct (omap _ _) as [|p pending'].
  - intros [= <- <-]. repeat split; lia.
  - cbv iota. generalize (p :: pending'). intros pending.
    unfold translate_many, bind at 1 2 3, get, put, ret. cbn [fst snd].
    destruct (translate_many_api _ _ _ _) as [translations|].
    + unfold bind.
      destruct (store_translations _ _ _ _ _ _) as [[stored left] st2] eqn:Es.
      apply store_translations_counts in Es
        as (H1 & H2 & H3 & H4 & H5 & H6). simpl in *.
      destruct stored as [rs'|]; intros [= <- <-].
      * rewrite (H6 rs' eq_refl). repeat split; lia.
      * rewrite length_fill_missing. repeat split; lia.
    + intros [= <- <-]. rewrite length_fill_missing. simpl.
      repeat split; lia.
Qed.

(** X16: the counters of the cache stay balanced and requests are
    spared. If every counted lookup is a hit or a miss before, it is so
    after a single translation and after a batch; a single translation
    counts one lookup and sends at most one request; a batch counts one
    lookup per text, sends at most one request for all of them, and
    answers with one entry per text. *)
Theorem cache_stats_balanced (texts : list str) (text sl tl : str)
    (st : CacheState) :
  stats_balanced (stats st) ->
  let single := get_or_translate text sl tl st in
  let batch := batch_get_or_translate texts sl tl st in
  stats_balanced (stats (snd single))
  /\ total_requests (stats (snd single)) = S (total_requests (stats st))
  /\ api_calls st <= api_calls (snd single) <= S (api_calls st)
  /\ stats_balanced (stats (snd batch))
  /\ total_requests (stats (snd batch))
     = total_requests (stats st) + length texts
  /\ api_calls st <= api_calls (snd batch) <= S (api_calls st)
  /\ length (fst batch) = length texts.
Proof.
  unfold stats_balanced. intros Hb. cbn zeta.
  destruct (get_or_translate text sl tl st) as [r1 st1] eqn:E1.
  apply get_or_translate_counts in E1.
  destruct (batch_get_or_translate texts sl tl st) as [r2 st2] eqn:E2.
  apply batch_get_or_translate_counts in E2.
  cbn [fst snd]. repeat split; lia.
Qed.

Lemma cache_set_cache text tr sl tl st :
  let st' := snd (cache_set text tr sl tl st) in
  cache st'
  = <[_generate_key text sl tl :=
        entry_of text tr sl tl (isoformat tm (clock tm (ticks st)))]>
      (cache st)
  /\ api_calls st' = api_calls st
  /\ S (ticks st) <= ticks st' <= S (S (ticks st)).
Proof.
  unfold DeepL.cache_set, bind, modify, get, ret, _save_cache, zoom, now_iso,
    now, bind, ret, entry_of.
  cbn zeta. simpl.
  destruct (_ =? 0)%nat; simpl; repeat split; lia.
Qed.

Lemma cache_get_entry text sl tl st e t0 :
  cache st !! _generate_key text sl tl = Some e ->
  fromisoformat tm (timestamp e) = Some t0 ->
  let expired := (t0 + 3600 * max_age_hours <? clock tm (ticks st))%Z in
  let st' := snd (cache_get text sl tl st) in
  fst (cache_get text sl tl st)
  = (if expired then None else Some (translation e))
  /\ cache st'
     = (if expired then delete (_generate_key text sl tl) (cache st)
        else cache st)
  /\ hits (stats st')
     = (if expired then hits (stats st) else S (hits (stats st)))
  /\ api_calls st' = api_calls st.
Proof.
  intros He Ht.
  unfold DeepL.cache_get, bind, modify, get, ret, miss, _is_expired, zoom, now.
  cbn zeta. simpl. rewrite He. simpl. rewrite Ht. simpl.
  by destruct (_ <? _)%Z.
Qed.

Lemma cache_get_absent text sl tl st :
  cache st !! _generate_key text sl tl = None ->
  cache_get text sl tl st
  = (None, set_stats (bump_misses (bump_total (stats st))) st).
Proof.
  intros He.
  unfold DeepL.cache_get, bind, modify, get, ret, miss. simpl. by rewrite He.
Qed.

(** X17: what is stored is served until it expires. After
    [set(text, translation)], provided the time stamp written can be
    read back, a [get] of the same text and languages answers with the
    translation and leaves the cache as it is, as long as the entry is
    not older than [max_age_hours]; once it is older, the [get] answers
    nothing and deletes the entry. Neither call sends a request. *)
Theorem cache_set_then_get (text translation sl tl : str) (st : CacheState) :
  let t0 := clock tm (ticks st) in
  let st1 := snd (cache_set text translation sl tl st) in
  let st2 := snd (cache_get text sl tl st1) in
  fromisoformat tm (isoformat tm t0) = Some t0 ->
  (if (t0 + 3600 * max_age_hours <? clock tm (ticks st1))%Z
   then fst (cache_get text sl tl st1) = None
        /\ cache st2 !! _generate_key text sl tl = None
   else fst (cache_get text sl tl st1) = Some translation
        /\ cache st2 = cache st1)
  /\ api_calls st2 = api_calls st.
Proof.
  cbn zeta. intros Hparse.
  pose proof (cache_set_cache text translation sl tl st) as (Hc & Ha & _).
  cbn zeta in Hc, Ha.
  set (st1 := snd (cache_set text translation sl tl st)) in *.
  assert (cache st1 !! _generate_key text sl tl
          = Some (entry_of text translation sl tl
                    (isoformat tm (clock tm (ticks st))))) as He.
  { rewrite Hc. apply lookup_insert_eq. }
  pose proof (cache_get_entry text sl tl st1 _ _ He Hparse)
    as (H1 & H2 & _ & H4).
  cbn zeta in H1, H2, H4. rewrite H1, H2, H4, Ha.
  split; [|done].
  destruct (_ <? _)%Z; [|done]. split; [done|]. apply lookup_delete_eq.
Qed.

Lemma get_or_translate_miss text sl tl st :
  cache st !! _generate_key text sl tl = None ->
  let st0 :=
    set_api_calls (S (api_calls st))
      (set_stats (bump_misses (bump_total (stats st))) st) in
  get_or_translate text sl tl st
  = match translate_api (api_calls st) text sl tl with
    | Some tr => (tr, snd (cache_set text tr sl tl st0))
    | None => (text, st0)
    end.
Proof.
  intros He. cbn zeta. unfold DeepL.get_or_translate, bind at 1.
  rewrite (cache_get_absent _ _ _ _ He).
  unfold translate_func, bind at 1 2 3, get, put, ret. cbn [fst snd].
  cbn [api_calls set_stats].
  destruct (translate_api _ _ _ _) as [tr|]; [|done].
  unfold bind. by destruct (cache_set _ _ _ _ _) as [[] st3].
Qed.

Lemma get_or_translate_hit text sl tl st c r :
  fst (cache_get text sl tl st) = Some (c :: r) ->
  get_or_translate text sl tl st = (c :: r, snd (cache_get text sl tl st)).
Proof.
  unfold DeepL.get_or_translate, bind at 1.
  destruct (cache_get text sl tl st) as [cached st1]. simpl.
  by intros ->.
Qed.

(** X18: a translation is requested once. When a text that is not in
    the cache is translated by the service to a translation that is not
    empty, [get_or_translate] returns it after one request; and a second
    call for the same text, made before the entry expires, returns the
    same translation without any request. *)
Theorem get_or_translate_twice (text translation sl tl : str)
    (st : CacheState) :
  let t0 := clock tm (ticks st) in
  let first := get_or_translate text sl tl st in
  let second := get_or_translate text sl tl (snd first) in
  cache st !! _generate_key text sl tl = None ->
  translate_api (api_calls st) text sl tl = Some translation ->
  translation <> [] ->
  fromisoformat tm (isoformat tm t0) = Some t0 ->
  (clock tm (ticks (snd first)) <= t0 + 3600 * max_age_hours)%Z ->
  fst first = translation
  /\ api_calls (snd first) = S (api_calls st)
  /\ fst second = translation
  /\ api_calls (snd second) = S (api_calls st)
  /\ hits (stats (snd second)) = S (hits (stats st)).
Proof.
  cbn zeta. intros He Hapi Hne Hparse Hfresh.
  pose proof (get_or_translate_miss text sl tl st He) as Hfirst.
  cbn zeta in Hfirst. rewrite Hapi in Hfirst. rewrite Hfirst in *.
  cbn [fst snd] in *.
  set (st0 := set_api_calls (S (api_calls st))
                (set_stats (bump_misses (bump_total (stats st))) st)) in *.
  pose proof (cache_set_cache text translation sl tl st0) as (Hc & Ha & _).
  pose proof (cache_set_counts text translation sl tl st0 _ _
                (surjective_pairing _)) as (_ & Hh & _).
  cbn zeta in Hc, Ha.
  set (st1 := snd (cache_set text translation sl tl st0)) in *.
  assert (cache st1 !! _generate_key text sl tl
          = Some (entry_of text translation sl tl
                    (isoformat tm (clock tm (ticks st))))) as He1.
  { rewrite Hc. apply lookup_insert_eq. }
  pose proof (cache_get_entry text sl tl st1 _ _ He1 Hparse)
    as (H1 & _ & H3 & H4).
  cbn zeta in H1, H3, H4.
  replace (_ <? _)%Z with false in H1, H3 by (symmetry; apply Z.ltb_ge; lia).
  destruct translation as [|c r]; [done|].
  rewrite (get_or_translate_hit text sl tl st1 c r H1). cbn [fst snd].
  rewrite H3, H4, Ha, Hh. by subst st0.
Qed.

(** X19: a failure is not cached. When the text is not in the cache and
    the request fails, [get_or_translate] returns the text itself, has
    sent one request and leaves the cache without an entry for the text,
    so that the next call asks the service again. *)
Theorem get_or_translate_failure (text sl tl : str) (st : CacheState) :
  cache st !! _generate_key text sl tl = None ->
  translate_api (api_calls st) text sl tl = None ->
  let first := get_or_translate text sl tl st in
  let second := get_or_translate text sl tl (snd first) in
  fst first = text
  /\ cache (snd first) = cache st
  /\ api_calls (snd first) = S (api_calls st)
  /\ api_calls (snd second) = S (S (api_calls st)).
Proof.
  intros He Hapi. cbn zeta.
  pose proof (get_or_translate_miss text sl tl st He) as Hfirst.
  cbn zeta in Hfirst. rewrite Hapi in Hfirst. rewrite Hfirst.
  cbn [fst snd]. repeat split.
  set (st0 := set_api_calls _ _).
  assert (cache st0 !! _generate_key text sl tl = None) as He0 by done.
  pose proof (get_or_translate_miss text sl tl st0 He0) as Hsecond.
  cbn zeta in Hsecond. rewrite Hsecond.
  destruct (translate_api (api_calls st0) text sl tl) as [tr|]; [|done].
  cbn [snd].
  by pose proof (cache_set_cache text tr sl tl
                   (set_api_calls (S (api_calls st0))
                      (set_stats (bump_misses (bump_total (stats st0))) st0)))
    as (_ & -> & _).
Qed.

(** X20: an empty translation in the cache is never served. When the
    lookup finds the empty string, it is counted as a hit, but
    [get_or_translate] sends a request all the same and answers with
    what the service returns, or with the text when the request
    fails. *)
Theorem cached_empty_translation_not_served (text sl tl : str)
    (st : CacheState) :
  fst (cache_get text sl tl st) = Some [] ->
  let result := get_or_translate text sl tl st in
  api_calls (snd result) = S (api_calls st)
  /\ fst result
     = default text (translate_api (api_calls st) text sl tl).
Proof.
  intros H. cbn zeta.
  destruct (get_or_translate text sl tl st) as [r st'] eqn:E.
  unfold DeepL.get_or_translate, bind at 1 in E.
  destruct (cache_get text sl tl st) as [cached st1] eqn:Eget.
  apply cache_get_counts in Eget as (_ & _ & Ha).
  cbn [fst] in H. subst cached.
  pose proof (translate_and_store_counts _ _ _ _ _ _ E) as (_ & _ & _ & Hc).
  pose proof (translate_and_store_result _ _ _ _ _ _ E) as Hr.
  cbn [fst snd]. by rewrite Hc, Hr, Ha.
Qed.

Lemma fill_missing_spec (ts : list str) (rs pre : list (option str))
    (tpre : list str) :
  length pre = length tpre -> length ts = length rs ->
  fill_missing (tpre ++ ts)
    (map fst
       (omap (fun '(i, (text, r)) =>
                match r : option str with
                | None => Some (i, text)
                | Some _ => None
                end)
          (Splitter.enumerate_from (length pre) (zip ts rs))))
    (pre ++ rs)
  = pre ++ cached_or_original ts rs.
Proof.
  revert rs pre tpre. induction ts as [|t ts IH]; intros rs pre tpre Hp Hl.
  - destruct rs; [|done]. done.
  - destruct rs as [|r rs]; [done|]. injection Hl as Hl.
    specialize (IH rs (pre ++ [Some (default t r)]) (tpre ++ [t])).
    rewrite !length_app in IH. cbn [length] in IH.
    rewrite Nat.add_1_r, <- !app_assoc in IH. cbn [app] in IH.
    specialize (IH ltac:(lia) Hl).
    unfold cached_or_original in *. cbn [zip zip_with map default].
    cbn [Splitter.enumerate_from].
    destruct r as [x|].
    + exact IH.
    + change (omap ?f (?x :: ?l))
        with (match f x with Some y => y :: omap f l | None => omap f l end).
      cbn beta iota. cbn [map fst]. unfold fill_missing in *.
      cbn [fold_left].
      rewrite (list_lookup_middle pre rs None (length pre) eq_refl).
      rewrite (list_lookup_middle tpre ts t (length pre) Hp).
      rewrite insert_app_r_alt by lia. rewrite Nat.sub_diag. exact IH.
Qed.

(** X21: a batch answers for every text when the service fails. If the
    request of a batch fails, the answer holds, position by position,
    the cached translation of a text where the cache has one and the
    text itself elsewhere; no request beyond the failed one is sent. *)
Theorem batch_failure_falls_back (texts : list str) (sl tl : str)
    (st : CacheState) :
  (forall pending, translate_many_api (api_calls st) pending sl tl = None) ->
  let answer := batch_get_or_translate texts sl tl st in
  fst answer
  = cached_or_original texts (fst (lookup_all texts sl tl st))
  /\ length (fst answer) = length texts
  /\ api_calls (snd answer) <= S (api_calls st).
Proof.
  intros Hfail. cbn zeta.
  destruct (batch_get_or_translate texts sl tl st) as [rs st'] eqn:E.
  pose proof (batch_get_or_translate_counts _ _ _ _ _ _ E) as (Hl & _ & _ & Ha).
  cbn [fst snd]. split; [|split; [done|lia]].
  unfold DeepL.batch_get_or_translate, bind at 1 in E.
  destruct (lookup_all texts sl tl st) as [results st1] eqn:El.
  apply lookup_all_counts in El as (Hlen & _ & _ & Hapi).
  pose proof (fill_missing_spec texts results [] [] eq_refl
                (eq_sym Hlen)) as Hspec.
  cbn [app length] in Hspec. cbv zeta in E. cbn [fst].
  revert E Hspec. destruct (omap _ _) as [|p pending'].
  - by intros [= <- <-] <-.
  - cbv iota. generalize (p :: pending'). intros pending.
    unfold translate_many, bind at 1 2 3, get, put, ret. cbn [fst snd].
    rewrite Hapi, Hfail. by intros [= <- <-] <-.
Qed.

End CacheFacts.

Lemma cache_stats_balanced_witness :
  let batch :=
    DeepL.batch_get_or_translate Sample.seconds Sample.digest 24
      Sample.mock_translate_many
      [u "Hello, world!"; u "This is a test."; u "Hello, world!"]
      (u "EN") (u "RU") Sample.cache_state in
  stats_balanced (DeepL.stats (snd batch))
  /\ DeepL.total_requests (DeepL.stats (snd batch)) = 3
  /\ length (fst batch) = 3.
Proof.
  destruct (cache_stats_balanced Sample.seconds Sample.digest
              Sample.mock_translate 24 Sample.mock_translate_many
              [u "Hello, world!"; u "This is a test."; u "Hello, world!"]
              (u "Hello, world!") (u "EN") (u "RU") Sample.cache_state
              eq_refl)
    as (_ & _ & _ & H1 & H2 & _ & H3).
  cbn zeta. by repeat split.
Defined.

Lemma cache_set_then_get_witness :
  fst (DeepL.cache_get Sample.seconds Sample.digest 24
         (u "Hello") (u "EN") (u "RU")
         (snd (DeepL.cache_set Sample.seconds Sample.digest
                 (u "Hello") (u "Привет") (u "EN") (u "RU")
                 Sample.cache_state)))
  = Some (u "Привет").
Proof.
  pose proof (cache_set_then_get Sample.seconds Sample.digest 24
                (u "Hello") (u "Привет") (u "EN") (u "RU")
                Sample.cache_state) as H.
  cbn zeta in H. specialize (H ltac:(by vm_compute)). destruct H as [H _].
  match type of H with
  | (if ?c then _ else _) =>
    replace c with false in H by (by vm_compute)
  end.
  by destruct H.
Defined.

Lemma get_or_translate_twice_witness :
  let first :=
    DeepL.get_or_translate Sample.seconds Sample.digest
      Sample.mock_translate 24 (u "Hello") (u "EN") (u "RU")
      Sample.cache_state in
  let second :=
    DeepL.get_or_translate Sample.seconds Sample.digest
      Sample.mock_translate 24 (u "Hello") (u "EN") (u "RU") (snd first) in
  fst second = u "[RU] Hello" /\ DeepL.api_calls (snd second) = 1.
Proof.
  destruct (get_or_translate_twice Sample.seconds Sample.digest
              Sample.mock_translate 24 (u "Hello") (u "[RU] Hello")
              (u "EN") (u "RU") Sample.cache_state)
    as (_ & _ & H1 & H2 & _).
  - by vm_compute.
  - by vm_compute.
  - by vm_compute.
  - by vm_compute.
  - by vm_compute.
  - by split.
Defined.

Lemma get_or_translate_failure_witness :
  let first :=
    DeepL.get_or_translate Sample.seconds Sample.digest Sample.no_service 24
      (u "Hello") (u "EN") (u "RU") Sample.cache_state in
  fst first = u "Hello"
  /\ DeepL.cache (snd first) = DeepL.cache Sample.cache_state.
Proof.
  destruct (get_or_translate_failure Sample.seconds Sample.digest
              Sample.no_service 24 (u "Hello") (u "EN") (u "RU")
              Sample.cache_state)
    as (H1 & H2 & _).
  - by vm_compute.
  - done.
  - by split.
Defined.

Lemma cached_empty_translation_not_served_witness :
  DeepL.api_calls
    (snd (DeepL.get_or_translate Sample.seconds Sample.digest
            Sample.mock_translate 24 (u "Hello") (u "EN") (u "RU")
            (snd (DeepL.cache_set Sample.seconds Sample.digest
                    (u "Hello") [] (u "EN") (u "RU") Sample.cache_state))))
  = 1.
Proof.
  destruct (cached_empty_translation_not_served Sample.seconds Sample.digest
              Sample.mock_translate 24 (u "Hello") (u "EN") (u "RU")
              (snd (DeepL.cache_set Sample.seconds Sample.digest
                      (u "Hello") [] (u "EN") (u "RU") Sample.cache_state)))
    as [H _].
  - by vm_compute.
  - rewrite H. by vm_compute.
Defined.

Lemma batch_failure_falls_back_witness :
  fst (DeepL.batch_get_or_translate Sample.seconds Sample.digest 24
         Sample.no_service_many [u "Hello"; u "World"] (u "EN") (u "RU")
         Sample.cache_state)
  = [Some (u "Hello"); Some (u "World")].
Proof.
  destruct (batch_failure_falls_back Sample.seconds Sample.digest 24
              Sample.no_service_many [u "Hello"; u "World"] (u "EN") (u "RU")
              Sample.cache_state)
    as (H & _).
  - done.
  - rewrite H. by vm_compute.
Defined.

(** * The chapter translator: scores, counts, memory and repetition *)

Section TranslatorFacts.

Import Translator.

Variable env : Env.
Variable context : TranslationContext.

Lemma filter_length_le {A} (p : A -> bool) (l : list A) :
  length (List.filter p l) <= length l.
Proof. induction l as [|x r IH]; simpl; [done|]. destruct (p x); simpl; lia. Qed.

(** X22: the clamp of the quality score never fires. The score is the
    unclamped sum of the base, the length penalty, the archaism
    penalties and the naturalness bonuses, and it lies between 35 and
    88: a freshly resolved segment never reaches the 98 of the reference
    base nor the 100 of an empty line. *)
Theorem quality_score_range (text : str) :
  _calculate_quality_score env text
  = (80 - (if (length text <? 10)%nat then 20 else 0)
        - (if (500 <? length text)%nat then 10 else 0)
        - 5 * Z.of_nat (length (detected_archaisms (cs env) text))
        + 2 * Z.of_nat (length (detected_natural_patterns text)))%Z
  /\ (35 <= _calculate_quality_score env text <= 88)%Z.
Proof.
  unfold _calculate_quality_score, detected_archaisms,
    detected_natural_patterns.
  rewrite (fold_left_penalty (fun pattern => contains pattern text)
             (fun z => (z + 2)%Z) 2) by done.
  rewrite (fold_left_penalty
             (fun archaism => contains archaism (lower (cs env) text))
             (fun z => (z - 5)%Z) (-5)) by (intros; lia).
  match goal with
  | |- context [length (List.filter ?p ?l)] =>
    pose proof (filter_length_le p l) as Ha; cbn [length] in Ha;
    generalize dependent (length (List.filter p l)); intros a Ha
  end.
  match goal with
  | |- context [length (List.filter ?p ?l)] =>
    pose proof (filter_length_le p l) as Hn; cbn [length] in Hn;
    generalize dependent (length (List.filter p l)); intros n Hn
  end.
  destruct (Nat.ltb_spec (length text) 10), (Nat.ltb_spec 500 (length text));
    lia.
Qed.

Lemma processing_order_length (segments : list Splitter.TextSegment) :
  length (processing_order segments)
  = length segments
    + (if (10 <? length segments)%nat
       then length (List.filter
                      (fun s => Splitter.is_dialogue s && Splitter.is_system s)
                      segments)
       else 0).
Proof.
  unfold processing_order. destruct (10 <? _)%nat; [|lia].
  rewrite !length_app.
  induction segments as [|s r IH]; simpl; [done|].
  destruct (Splitter.is_dialogue s), (Splitter.is_system s); simpl; lia.
Qed.

(** X23: how many results a chapter gets. Up to ten lines there is one
    result per line of the text. Beyond ten lines the grouping by kind
    processes a line that is flagged both as dialogue and as system
    twice: the number of results is the number of lines plus the number
    of such lines. *)
Theorem translate_with_context_count (text : str) (st : State) :
  let segments := Splitter.split_by_lines text in
  length (fst (translate_with_context env text context st))
  = length segments
    + (if (10 <? length segments)%nat
       then length (List.filter
                      (fun s => Splitter.is_dialogue s && Splitter.is_system s)
                      segments)
       else 0).
Proof.
  cbn zeta. rewrite <- processing_order_length.
  symmetry. eapply Forall2_length.
  apply (translate_with_context_results env context).
Qed.

Lemma translate_segment_keeps_memory segment st :
  memory_file (snd (_translate_segment env segment context st))
  = memory_file st.
Proof.
  unfold _translate_segment, bind, get, ret, modify, now_iso, zoom.
  repeat (case_match; simplify_eq; simpl; try done).
Qed.

Lemma translate_and_save_appends segment st data :
  memory_file st = Some data ->
  exists record,
    memory_file (snd (translate_and_save env context segment st))
    = Some (data ++ [record])
    /\ saved_as context (fst (translate_and_save env context segment st))
         record.
Proof.
  intros Hfile.
  destruct (translate_and_save env context segment st) as [res st'] eqn:E.
  unfold translate_and_save, bind at 1 in E.
  pose proof (translate_segment_keeps_memory segment st) as Hkeep.
  pose proof (translate_segment_original env context segment st) as Horig.
  destruct (_translate_segment env segment context st) as [result st1].
  cbn [fst snd] in *. rewrite Hfile in Hkeep.
  unfold _save_to_memory, bind, zoom, ret in E.
  set (m := {| Memory.source_text := _ |}) in E.
  destruct (add_to_file_system_appends (tm env) (md5_hexdigest env) m
              data (ticks st1)) as (ts & t' & Ea).
  unfold store_of in E. rewrite Hkeep, Ea in E. injection E as <- <-.
  cbn [memory_file set_store Memory.memory_file].
  eexists. split; [reflexivity|]. unfold saved_as. by subst m.
Qed.

Lemma for_each_save_appends (segments : list Splitter.TextSegment) st data :
  memory_file st = Some data ->
  exists records,
    memory_file
      (snd (for_each segments (translate_and_save env context) st))
    = Some (data ++ records)
    /\ Forall2 (saved_as context)
         (fst (for_each segments (translate_and_save env context) st))
         records.
Proof.
  revert st data. induction segments as [|s r IH]; intros st data Hfile.
  - exists []. simpl. by rewrite app_nil_r.
  - destruct (translate_and_save_appends s st data Hfile)
      as (record & Hmem & Hsaved).
    destruct (for_each (s :: r) (translate_and_save env context) st)
      as [all st'] eqn:E.
    cbn [for_each] in E. unfold bind at 1 in E.
    destruct (translate_and_save env context s st) as [result st1].
    cbn [fst snd] in *.
    destruct (IH st1 _ Hmem) as (records & Hmem' & Hall).
    unfold bind, ret in E.
    destruct (for_each r (translate_and_save env context) st1)
      as [results st2].
    injection E as <- <-.
    cbn [fst snd] in *. exists (record :: records).
    split; [by rewrite Hmem', <- app_assoc|by constructor].
Qed.

(** X24: every result is remembered. A chapter translated against a
    readable store appends to it exactly one record per result, in the
    order of the results; each record carries the original text and the
    translated text of its result and the number of the chapter. The
    results of empty lines are no exception. *)
Theorem translate_with_context_remembers (text : str) (st : State)
    (data : list Memory.TranslationData) :
  memory_file st = Some data ->
  exists records,
    memory_file (snd (translate_with_context env text context st))
    = Some (data ++ records)
    /\ Forall2 (saved_as context)
         (fst (translate_with_context env text context st)) records.
Proof.
  intros Hfile.
  unfold translate_with_context, _translate_segments_batch.
  destruct (10 <? _)%nat; by apply for_each_save_appends.
Qed.

(** A loop keeps what each pass keeps and yields what each pass
    yields. *)
Lemma for_each_inv {St A B} (P : St -> Prop) (R : B -> Prop)
    (body : A -> M St B) (l : list A) :
  (forall x st, P st -> P (snd (body x st)) /\ R (fst (body x st))) ->
  forall st, P st ->
    P (snd (for_each l body st)) /\ Forall R (fst (for_each l body st)).
Proof.
  intros Hbody. induction l as [|x r IH]; intros st Hst.
  - by split; [|constructor].
  - destruct (for_each (x :: r) body st) as [all st'] eqn:E.
    cbn [for_each] in E. unfold bind at 1 in E.
    destruct (Hbody x st Hst) as [HP HR].
    destruct (body x st) as [y st1]. cbn [fst snd] in *.
    destruct (IH st1 HP) as [HP' HR'].
    unfold bind, ret in E. destruct (for_each r body st1) as [ys st2].
    injection E as <- <-. cbn [fst snd] in *. split; [done|by constructor].
Qed.

(** Without a readable store the resolver never answers from memory. *)
Lemma translate_segment_unreadable segment st :
  memory_file st = None ->
  let result := fst (_translate_segment env segment context st) in
  In (translator result)
     [u "Empty_Line"; u "Cache"; u "Reference_Base"; u "DeepL+Adaptation"]
  /\ (memory_hit result = true ->
      translator result = u "Cache"
      \/ translator result = u "Reference_Base").
Proof.
  intros Hfile. cbn zeta.
  unfold _translate_segment, bind, get, ret, modify, now_iso, zoom.
  destruct (is_empty_segment segment);
    [|destruct (translation_cache st !! _) as [[cached_text cached_score]|];
      [|destruct (Memory.get_phrase_translation _ _ _ _) as [[|c r]|]]].
  all: try (unfold Memory.find_similar, Memory._find_similar_file_system,
              store_of; cbn [Memory.memory_file]; rewrite Hfile;
            destruct (DeepL.translate_text _ _ _ _ _ _ _) as [base d]).
  all: destruct (Clock.now_iso _ _) as [ts t];
    cbn [fst snd translator memory_hit]; split;
    [cbn [In]; solve [auto 6]|intros; first [done|solve [auto]]].
Qed.

Lemma save_to_memory_unreadable segment result st :
  memory_file st = None ->
  memory_file (snd (_save_to_memory env segment result context st)) = None.
Proof.
  intros Hfile.
  unfold _save_to_memory, bind, zoom, ret, Memory.add_translation,
    Memory._add_to_file_system, get, store_of.
  cbn [Memory.memory_file]. by rewrite Hfile.
Qed.

Lemma translate_and_save_unreadable segment st :
  memory_file st = None ->
  memory_file (snd (translate_and_save env context segment st)) = None
  /\ (let result := fst (translate_and_save env context segment st) in
      In (translator result)
         [u "Empty_Line"; u "Cache"; u "Reference_Base";
          u "DeepL+Adaptation"]
      /\ (memory_hit result = true ->
          translator result = u "Cache"
          \/ translator result = u "Reference_Base")).
Proof.
  intros Hfile.
  pose proof (translate_segment_unreadable segment st Hfile) as Hres.
  pose proof (translate_segment_keeps_memory segment st) as Hkeep.
  unfold translate_and_save, bind, ret.
  destruct (_translate_segment env segment context st) as [result st1].
  cbn [fst snd] in *. rewrite Hfile in Hkeep.
  pose proof (save_to_memory_unreadable segment result st1 Hkeep) as Hsave.
  destruct (_save_to_memory env segment result context st1) as [[] st2].
  cbn [fst snd] in *. by split.
Qed.

(** X13: a chapter translated against a store that cannot be read.
    The store is still unreadable afterwards, so nothing is remembered,
    and no result is drawn from memory: every result is labelled
    Empty_Line, Cache, Reference_Base or DeepL+Adaptation (never
    Memory+Adaptation), and a result flagged as a memory hit comes from
    the cache or from the reference base. *)
Theorem unreadable_store_chapter (text : str) (st : State) :
  memory_file st = None ->
  memory_file (snd (translate_with_context env text context st)) = None
  /\ Forall
       (fun result =>
          In (translator result)
             [u "Empty_Line"; u "Cache"; u "Reference_Base";
              u "DeepL+Adaptation"]
          /\ (memory_hit result = true ->
              translator result = u "Cache"
              \/ translator result = u "Reference_Base"))
       (fst (translate_with_context env text context st)).
Proof.
  intros Hfile.
  unfold translate_with_context, _translate_segments_batch.
  destruct (10 <? _)%nat;
    apply (for_each_inv (fun st => memory_file st = None)); try done;
    intros segment st0 H0; apply (translate_and_save_unreadable segment st0 H0).
Qed.

Lemma save_to_memory_keeps segment result st :
  let st' := snd (_save_to_memory env segment result context st) in
  translation_cache st' = translation_cache st
  /\ api_calls st' = api_calls st.
Proof.
  cbn zeta. unfold _save_to_memory, bind, zoom, ret.
  by destruct (Memory.add_translation _ _ _ _) as [id store'].
Qed.

Lemma translate_segment_cached segment st t q :
  is_empty_segment segment = false ->
  translation_cache st !! cache_key context segment = Some (t, q) ->
  let result := fst (_translate_segment env segment context st) in
  let st' := snd (_translate_segment env segment context st) in
  translated_text result = t /\ quality_score result = q
  /\ translator result = u "Cache" /\ confidence result = (9 # 10)%Q
  /\ translation_cache st' = translation_cache st
  /\ api_calls st' = api_calls st.
Proof.
  intros He Hc. cbn zeta. unfold cache_key in Hc.
  destruct (_translate_segment env segment context st) as [res st'] eqn:E.
  unfold _translate_segment in E. rewrite He in E.
  unfold bind at 1, get in E. rewrite Hc in E.
  unfold bind, ret, now_iso, zoom, Clock.now_iso, now, bind, ret in E.
  cbn [fst snd] in E. by injection E as <- <-.
Qed.

Lemma translate_segment_phrase segment st c r :
  is_empty_segment segment = false ->
  translation_cache st !! cache_key context segment = None ->
  Memory.get_phrase_translation (cs env) (reference_data env)
    (Splitter.content segment) (Some (chapter_number context))
  = Some (c :: r) ->
  let result := fst (_translate_segment env segment context st) in
  let st' := snd (_translate_segment env segment context st) in
  translated_text result = c :: r /\ quality_score result = 98%Q
  /\ translation_cache st' = translation_cache st
  /\ api_calls st' = api_calls st.
Proof.
  intros He Hc Hp. cbn zeta. unfold cache_key in Hc.
  destruct (_translate_segment env segment context st) as [res st'] eqn:E.
  unfold _translate_segment in E. rewrite He in E.
  unfold bind at 1, get in E. rewrite Hc, Hp in E.
  unfold bind, ret, now_iso, zoom, Clock.now_iso, now, bind, ret in E.
  cbn [fst snd] in E. by injection E as <- <-.
Qed.

Lemma translate_segment_fresh segment st :
  is_empty_segment segment = false ->
  translation_cache st !! cache_key context segment = None ->
  (forall c r,
     Memory.get_phrase_translation (cs env) (reference_data env)
       (Splitter.content segment) (Some (chapter_number context))
     <> Some (c :: r)) ->
  let result := fst (_translate_segment env segment context st) in
  let st' := snd (_translate_segment env segment context st) in
  translation_cache st' !! cache_key context segment
  = Some (translated_text result, quality_score result).
Proof.
  intros He Hc Hp. cbn zeta. unfold cache_key in *.
  destruct (_translate_segment env segment context st) as [res st'] eqn:E.
  unfold _translate_segment in E. rewrite He in E.
  unfold bind at 1, get in E. rewrite Hc in E.
  destruct (Memory.get_phrase_translation _ _ _ _) as [[|c r]|] eqn:Ep;
    [|by destruct (Hp c r)|].
  all: unfold bind at 1 in E;
    match type of E with
    | (let '(a, s') := ?m ?s in _) = _ => destruct (m s) as [base st1]
    end;
    unfold bind, ret, now_iso, zoom, Clock.now_iso, now, bind, ret, modify
      in E;
    cbn [fst snd] in E.
  all: destruct (Memory.find_similar _ _ _ _ _); injection E as <- <-;
    cbn [translation_cache set_translation_cache set_ticks translated_text
         quality_score];
    apply lookup_insert_eq.
Qed.

(** X25: a segment translated again gets the same answer without a
    request. When the loop body of the translator runs twice on one
    segment, the second result has the translated text and the quality
    score of the first, and no request is sent for it, whatever the
    service would answer; unless the segment is an empty line or is
    answered by the reference base, the second answer comes from the
    translator's cache, with confidence 0.9. *)
Theorem translate_again_same (segment : Splitter.TextSegment) (st : State) :
  let first := translate_and_save env context segment st in
  let second := translate_and_save env context segment (snd first) in
  translated_text (fst second) = translated_text (fst first)
  /\ quality_score (fst second) = quality_score (fst first)
  /\ api_calls (snd second) = api_calls (snd first)
  /\ (is_empty_segment segment = false ->
      (forall c r,
         Memory.get_phrase_translation (cs env) (reference_data env)
           (Splitter.content segment) (Some (chapter_number context))
         <> Some (c :: r)) ->
      translator (fst second) = u "Cache"
      /\ confidence (fst second) = (9 # 10)%Q).
Proof.
  cbn zeta.
  destruct (translate_and_save env context segment st) as [r1 st1'] eqn:E1.
  cbn [fst snd].
  destruct (translate_and_save env context segment st1') as [r2 st2'] eqn:E2.
  cbn [fst snd].
  unfold translate_and_save, bind at 1 in E1.
  unfold translate_and_save, bind at 1 in E2.
  destruct (_translate_segment env segment context st) as [a1 st1] eqn:T1.
  destruct (_translate_segment env segment context st1') as [a2 st2] eqn:T2.
  pose proof (save_to_memory_keeps segment a1 st1) as [Hk1 Ha1].
  pose proof (save_to_memory_keeps segment a2 st2) as [Hk2 Ha2].
  cbn zeta in Hk1, Ha1, Hk2, Ha2. unfold bind, ret in E1, E2.
  destruct (_save_to_memory env segment a1 context st1) as [[] s1].
  destruct (_save_to_memory env segment a2 context st2) as [[] s2].
  injection E1 as <- <-. injection E2 as <- <-. cbn [snd] in *.
  assert (forall t q,
    is_empty_segment segment = false ->
    translation_cache s1 !! cache_key context segment = Some (t, q) ->
    translated_text a2 = t /\ quality_score a2 = q
    /\ translator a2 = u "Cache" /\ confidence a2 = (9 # 10)%Q
    /\ api_calls s2 = api_calls s1) as Hhit.
  { intros t q He Hc.
    pose proof (translate_segment_cached segment s1 t q He Hc) as H.
    cbn zeta in H. rewrite T2 in H. cbn [fst snd] in H.
    destruct H as (? & ? & ? & ? & _ & ?). repeat split; congruence. }
  destruct (is_empty_segment segment) eqn:He.
  - rewrite (translate_segment_empty env context _ _ He) in T1.
    rewrite (translate_segment_empty env context _ _ He) in T2.
    injection T1 as <- <-. injection T2 as <- <-.
    cbn [translated_text quality_score api_calls set_ticks] in *.
    split; [done|]. split; [done|]. split; [by rewrite Ha2|].
    intros; discriminate.
  - destruct (translation_cache st !! cache_key context segment)
      as [[t q]|] eqn:Hc.
    + pose proof (translate_segment_cached segment st t q He Hc) as H.
      cbn zeta in H. rewrite T1 in H. cbn [fst snd] in H.
      destruct H as (Ht & Hq & _ & _ & Hcache & _).
      destruct (Hhit t q eq_refl) as (? & ? & ? & ? & ?);
        [by rewrite Hk1, Hcache|].
      repeat split; congruence.
    + destruct (Memory.get_phrase_translation (cs env) (reference_data env)
                  (Splitter.content segment) (Some (chapter_number context)))
        as [[|c r]|] eqn:Hp.
      2: { pose proof (translate_segment_phrase segment st c r He Hc Hp) as H.
           cbn zeta in H. rewrite T1 in H. cbn [fst snd] in H.
           destruct H as (Ht & Hq & Hcache & _).
           assert (translation_cache s1 !! cache_key context segment = None)
             as Hc1 by (by rewrite Hk1, Hcache).
           pose proof (translate_segment_phrase segment s1 c r He Hc1 Hp)
             as H.
           cbn zeta in H. rewrite T2 in H. cbn [fst snd] in H.
           destruct H as (Ht2 & Hq2 & _ & Ha).
           repeat split; congruence. }
      all: assert (forall c r,
             Memory.get_phrase_translation (cs env) (reference_data env)
               (Splitter.content segment) (Some (chapter_number context))
             <> Some (c :: r)) as Hno by (intros c r; by rewrite Hp).
      all: pose proof (translate_segment_fresh segment st He Hc Hno) as H;
        cbn zeta in H; rewrite T1 in H; cbn [fst snd] in H;
        rewrite <- Hk1 in H;
        destruct (Hhit _ _ eq_refl H) as (? & ? & ? & ? & ?);
        repeat split; congruence.
Qed.

Lemma mismatches_nil_iff (start : nat) (a b : list str) :
  omap (fun '(i, (orig_line, trans_line)) =>
          let orig_empty := negb (truthy (strip orig_line)) in
          let trans_empty := negb (truthy (strip trans_line)) in
          if Bool.eqb orig_empty trans_empty then None
          else Some (u "Строка " ++ str_of_nat (i + 1)
                       ++ u ": пустая в оригинале ("
                       ++ str_of_bool orig_empty
                       ++ u ") != пустая в переводе ("
                       ++ str_of_bool trans_empty ++ u ")"))
    (Splitter.enumerate_from start (zip a b)) = []
  <-> blank_agree a b.
Proof.
  revert start b. induction a as [|x a IH]; intros start b.
  - split; [|done]. intros _ i ? ? H. by rewrite lookup_nil in H.
  - destruct b as [|y b].
    + split; [|done]. intros _ i ? ? _ H. by rewrite lookup_nil in H.
    + cbn [zip zip_with Splitter.enumerate_from].
      change (omap ?f (?h :: ?l))
        with (match f h with Some z => z :: omap f l | None => omap f l end).
      cbn beta iota zeta.
      destruct (Bool.eqb (negb (truthy (strip x))) (negb (truthy (strip y))))
        eqn:E.
      * apply Bool.eqb_prop in E. rewrite IH. split.
        -- intros H [|i] ? ? Hx Hy; simplify_eq/=.
           ++ by destruct (truthy (strip x0)), (truthy (strip y0)).
           ++ by apply (H i).
        -- intros H i ? ? Hx Hy. by apply (H (S i)).
      * split; [done|]. intros H. specialize (H 0 x y eq_refl eq_refl).
        rewrite H, Bool.eqb_reflx in E. discriminate.
Qed.

Lemma validate_empty_lines (original_text translated_text : str) :
  empty_lines_match (_validate_structure original_text translated_text) = true
  <-> blank_agree (split_char LF original_text)
        (split_char LF translated_text).
Proof.
  unfold _validate_structure. cbv zeta. cbn [empty_lines_match].
  rewrite <- (mismatches_nil_iff 0). by destruct (omap _ _).
Qed.

Lemma validate_issues (original_text translated_text : str) :
  issues (_validate_structure original_text translated_text) = []
  <-> structure_match (_validate_structure original_text translated_text)
      = true
      /\ empty_lines_match
           (_validate_structure original_text translated_text) = true.
Proof.
  unfold _validate_structure. cbv zeta.
  cbn [issues structure_match empty_lines_match].
  destruct (_ =? _)%nat; destruct (omap _ _); cbn [app]; by intuition.
Qed.

(** X26: the structure check of the translator. The line counts match
    exactly when the two texts have the same number of lines; the blank
    lines match exactly when the texts agree, line by line as far as
    both have lines, on which lines are blank; there is no issue exactly
    when both verdicts are positive; a text checked against itself
    passes; and the two verdicts do not depend on which text is called
    the original. *)
Theorem validate_structure_verdicts (original_text translated_text : str) :
  let v := _validate_structure original_text translated_text in
  let a := split_char LF original_text in
  let b := split_char LF translated_text in
  (structure_match v = true <-> length a = length b)
  /\ (empty_lines_match v = true <-> blank_agree a b)
  /\ (issues v = []
      <-> structure_match v = true /\ empty_lines_match v = true)
  /\ issues (_validate_structure original_text original_text) = []
  /\ structure_match (_validate_structure translated_text original_text)
     = structure_match v
  /\ empty_lines_match (_validate_structure translated_text original_text)
     = empty_lines_match v.
Proof.
  cbn zeta. split; [|split; [|split; [|split; [|split]]]].
  - unfold _validate_structure. cbv zeta. cbn [structure_match].
    apply Nat.eqb_eq.
  - apply validate_empty_lines.
  - apply validate_issues.
  - apply validate_issues. split.
    + unfold _validate_structure. cbv zeta. cbn [structure_match].
      apply Nat.eqb_refl.
    + apply validate_empty_lines. intros i x y Hx Hy. congruence.
  - unfold _validate_structure. cbv zeta. cbn [structure_match].
    apply Nat.eqb_sym.
  - pose proof (validate_empty_lines original_text translated_text) as H1.
    pose proof (validate_empty_lines translated_text original_text) as H2.
    assert (blank_agree (split_char LF original_text)
              (split_char LF translated_text)
            <-> blank_agree (split_char LF translated_text)
                  (split_char LF original_text)) as Hsym.
    { split; intros H i x y Hx Hy; symmetry; by apply (H i). }
    destruct (empty_lines_match (_validate_structure translated_text _)),
      (empty_lines_match (_validate_structure original_text _));
      try done; intuition congruence.
Qed.

End TranslatorFacts.

Lemma unreadable_store_chapter_witness :
  Translator.memory_file
    (snd (Translator.translate_with_context Sample.failing_env
            (u "Hello") Sample.context
            (Translator.set_store
               {| Memory.memory_file := None; Memory.ticks := 0 |}
               Sample.initial_state)))
  = None
  /\ Forall
       (fun result =>
          In (Translator.translator result)
             [u "Empty_Line"; u "Cache"; u "Reference_Base";
              u "DeepL+Adaptation"]
          /\ (Translator.memory_hit result = true ->
              Translator.translator result = u "Cache"
              \/ Translator.translator result = u "Reference_Base"))
       (fst (Translator.translate_with_context Sample.failing_env
               (u "Hello") Sample.context
               (Translator.set_store
                  {| Memory.memory_file := None; Memory.ticks := 0 |}
                  Sample.initial_state))).
Proof.
  apply (unreadable_store_chapter Sample.failing_env Sample.context
           (u "Hello")).
  reflexivity.
Defined.

Lemma translate_with_context_remembers_witness :
  exists records,
    Translator.memory_file
      (snd (Translator.translate_with_context Sample.failing_env
              (u "Hello") Sample.context Sample.initial_state))
    = Some ([] ++ records)
    /\ Forall2 (saved_as Sample.context)
         (fst (Translator.translate_with_context Sample.failing_env
                 (u "Hello") Sample.context Sample.initial_state))
         records.
Proof.
  apply (translate_with_context_remembers Sample.failing_env Sample.context
           (u "Hello") Sample.initial_state []).
  reflexivity.
Defined.

(** * The chapter validator: what the original text and the line
      numbers stand for *)

Section ValidatorReportFacts.

Import Validator.

Variable cs : Casing.
Variable QUALITY_METRICS : list (str * Q).
Variable MIN_QUALITY_THRESHOLDS : list (str * Q).
Variable BANNED_ARCHAISMS : list str.

Abbreviation validate :=
  (validate_chapter cs QUALITY_METRICS MIN_QUALITY_THRESHOLDS
     BANNED_ARCHAISMS).

Lemma count_type_app ty l1 l2 :
  count_type ty (l1 ++ l2) = count_type ty l1 + count_type ty l2.
Proof. unfold count_type. by rewrite List.filter_app, length_app. Qed.

Lemma count_type_structure ty original translated :
  ty <> Structure ->
  count_type ty (_validate_structure original translated) = 0.
Proof.
  intros Hty. unfold count_type, _validate_structure.
  repeat case_match; simpl; repeat case_bool_decide; simplify_eq/=; done.
Qed.

Lemma quality_scores_of_translation original_text translated_text :
  quality_scores (validate original_text translated_text)
  = _calculate_quality_scores translated_text
      (_validate_archaisms cs BANNED_ARCHAISMS translated_text
       ++ _validate_calques translated_text
       ++ _validate_dialogues translated_text
       ++ _validate_terminology translated_text
       ++ _validate_readability translated_text
       ++ _validate_consistency translated_text).
Proof.
  unfold validate_chapter. cbn [quality_scores].
  unfold _calculate_quality_scores.
  rewrite !(count_type_app _ (_validate_structure _ _)).
  by rewrite !count_type_structure.
Qed.

(** X27: the original text only matters for the structure issues.
    Whatever the original, the validation of a translation gives the
    same quality scores, the same overall score, the same verdict and
    the same recommendations, and the same issues apart from those of
    the structure check: a mismatch of structure lowers no score and
    invalidates no chapter. *)
Theorem original_text_only_structure
    (original_text original_text' translated_text : str) :
  let r :=
    validate_chapter cs QUALITY_METRICS MIN_QUALITY_THRESHOLDS
      BANNED_ARCHAISMS original_text translated_text in
  let r' :=
    validate_chapter cs QUALITY_METRICS MIN_QUALITY_THRESHOLDS
      BANNED_ARCHAISMS original_text' translated_text in
  quality_scores r = quality_scores r'
  /\ overall_score r = overall_score r'
  /\ is_valid r = is_valid r'
  /\ recommendations r = recommendations r'
  /\ List.filter (fun i => negb (bool_decide (issue_type i = Structure)))
       (issues r)
     = List.filter (fun i => negb (bool_decide (issue_type i = Structure)))
         (issues r').
Proof.
  cbn zeta.
  pose proof (quality_scores_of_translation original_text translated_text)
    as Hq.
  pose proof (quality_scores_of_translation original_text' translated_text)
    as Hq'.
  pose proof (critical_issues_are_archaisms cs QUALITY_METRICS
                MIN_QUALITY_THRESHOLDS BANNED_ARCHAISMS original_text
                translated_text) as Hc.
  pose proof (critical_issues_are_archaisms cs QUALITY_METRICS
                MIN_QUALITY_THRESHOLDS BANNED_ARCHAISMS original_text'
                translated_text) as Hc'.
  assert (quality_scores (validate original_text translated_text)
          = quality_scores (validate original_text' translated_text))
    as Hqq by congruence.
  assert (critical_issues (issues (validate original_text translated_text))
          = critical_issues
              (issues (validate original_text' translated_text)))
    as Hcc by congruence.
  split; [exact Hqq|]. clear Hq Hq' Hc Hc'.
  unfold validate_chapter in *.
  cbn [quality_scores issues overall_score is_valid recommendations] in *.
  split; [by rewrite Hqq|]. split; [by rewrite Hqq, Hcc|].
  split.
  - unfold _generate_recommendations. by rewrite Hqq, Hcc.
  - rewrite !(List.filter_app _ (_validate_structure _ _)). f_equal.
    unfold _validate_structure.
    repeat case_match; simpl; repeat case_bool_decide; simplify_eq/=; done.
Qed.

Lemma count_newlines (s : str) :
  count [LF] s = length (List.filter (N.eqb LF) s).
Proof.
  unfold count, occurrences_by.
  assert (forall i, length (occurrences_go N.eqb [LF] 0 i s)
                    = length (List.filter (N.eqb LF) s)) as H; [|apply H].
  induction s as [|c r IH]; intros i; [done|].
  cbn [occurrences_go startswith_by List.filter length Nat.pred].
  rewrite Bool.andb_true_r.
  destruct (LF =? c)%N; cbn [length]; by rewrite IH.
Qed.

Lemma filter_take_le {A} (f : A -> bool) n (l : list A) :
  length (List.filter f (take n l)) <= length (List.filter f l).
Proof.
  revert n. induction l as [|x r IH]; intros [|n]; simpl; try lia.
  specialize (IH n). destruct (f x); simpl; lia.
Qed.

Lemma issues_at_line eqc ty sev prefix hint pattern text :
  Forall (fun i => issue_type i = ty
                   /\ 1 <= line_number i <= length (split_char LF text))
    (issues_at eqc ty sev prefix hint pattern text).
Proof.
  unfold issues_at. apply Forall_map, Forall_true. intros start.
  cbn [issue_type line_number]. split; [done|].
  rewrite count_newlines, split_char_length.
  pose proof (filter_take_le (N.eqb LF) start text). lia.
Qed.

Lemma Forall_omap_in {A B} (P : B -> Prop) (f : A -> option B) (l : list A) :
  (forall x y, In x l -> f x = Some y -> P y) -> Forall P (omap f l).
Proof.
  induction l as [|x r IH]; intros H; [constructor|].
  change (omap f (x :: r))
    with (match f x with Some y => y :: omap f r | None => omap f r end).
  destruct (f x) as [y|] eqn:E.
  - constructor; [by apply (H x); [left|]|]. apply IH.
    intros x' y' Hin. apply H. by right.
  - apply IH. intros x' y' Hin. apply H. by right.
Qed.

Lemma enumerate_from_bound {A} start (l : list A) i x :
  In (i, x) (Splitter.enumerate_from start l) ->
  start <= i < start + length l.
Proof.
  revert start. induction l as [|y r IH]; intros start; simpl; [done|].
  intros [[= <- <-]|H]; [lia|]. apply IH in H. lia.
Qed.

(** X28: what the line number of an issue stands for. An issue of the
    archaism, calque or dialogue check carries the number of a line of
    the translated text, counted from 1; an issue of the readability
    check carries the number of a sentence, not of a line; the issues
    of the structure, terminology and consistency checks carry 0. *)
Theorem issue_line_numbers (original_text translated_text : str) :
  Forall (line_number_ok translated_text)
    (issues (validate_chapter cs QUALITY_METRICS MIN_QUALITY_THRESHOLDS
               BANNED_ARCHAISMS original_text translated_text)).
Proof.
  unfold validate_chapter. cbn [issues].
  apply Forall_app; split.
  { unfold _validate_structure. repeat case_match; repeat constructor. }
  apply Forall_app; split.
  { unfold _validate_archaisms. apply Forall_concat_map. intros archaism.
    case_match; [|constructor].
    eapply Forall_impl; [apply issues_at_line|].
    intros i [Hty Hl]. unfold line_number_ok. by rewrite Hty. }
  apply Forall_app; split.
  { unfold _validate_calques. apply Forall_concat_map. intros calque.
    case_match; [|constructor].
    eapply Forall_impl; [apply issues_at_line|].
    intros i [Hty Hl]. unfold line_number_ok. by rewrite Hty. }
  apply Forall_app; split.
  { unfold _validate_dialogues. apply Forall_concat_map. intros pattern.
    case_match; [|constructor].
    eapply Forall_impl; [apply issues_at_line|].
    intros i [Hty Hl]. unfold line_number_ok. by rewrite Hty. }
  apply Forall_app; split.
  { unfold _validate_terminology. apply Forall_omap.
    intros [en ru] y. case_match; [|discriminate]. by intros [= <-]. }
  apply Forall_app; split.
  { unfold _validate_readability. apply Forall_omap_in.
    intros [i sentence] y Hin. apply enumerate_from_bound in Hin.
    repeat case_match; try discriminate. intros [= <-].
    unfold line_number_ok. cbn [issue_type line_number]. lia. }
  unfold _validate_consistency. apply Forall_omap.
  intros [name variants] y. case_match; [|discriminate]. by intros [= <-].
Qed.

End ValidatorReportFacts.

(** * The asynchronous batch client: blank requests and cached errors *)

Section AsyncFacts.

Import AsyncDeepL.

Variable tm : Time.
Variable py_hash : list str -> Z.
Variable translate_api : nat -> list str -> str -> str -> ApiOutcome.
Variable max_concurrent : positive.
Variable schedule : nat -> nat.
Variable source_lang target_lang : str.

Abbreviation translate_batch :=
  (_translate_batch tm py_hash translate_api).
Abbreviation key_of batch :=
  (cache_key py_hash (map snd batch) source_lang target_lang).

Lemma filter_enumerate_nil (p : str -> bool) k (l : list str) :
  Forall (fun text => p text = false) l ->
  List.filter (fun '(_, text) => p text) (Splitter.enumerate_from k l) = [].
Proof.
  intros H. revert k. induction H as [|x r Hx _ IH]; intros k; simpl; [done|].
  by rewrite Hx.
Qed.

(** X29: a request made of blank texts costs nothing. When every text
    is blank, the batch call answers each of them with an empty
    successful response, whatever the batch size, sends no request and
    leaves the cache and the statistics as they are: the texts are not
    even counted as translations. *)
Theorem blank_request_is_free (texts : list str) (batch_size : nat)
    (st : State) :
  Forall (fun text => nonblank text = false) texts ->
  let answer :=
    translate_batch_async tm py_hash translate_api max_concurrent schedule
      texts batch_size source_lang target_lang st in
  fst answer
  = Returned (map (fun _ => response [] source_lang true None) texts)
  /\ requests (snd answer) = requests st
  /\ translation_cache (snd answer) = translation_cache st
  /\ stats (snd answer) = stats st.
Proof.
  intros Hblank. cbn zeta.
  unfold translate_batch_async, bind at 1, time_time, zoom, now.
  cbn [fst snd].
  rewrite (filter_enumerate_nil (fun text => truthy (strip text)) 0 texts
             Hblank).
  done.
Qed.

Lemma call_api_requests texts st :
  requests (snd (_call_deepl_api tm translate_api texts source_lang
                   target_lang st)) = S (requests st).
Proof.
  destruct (_call_deepl_api tm translate_api texts source_lang target_lang st)
    as [r st'] eqn:E.
  unfold _call_deepl_api, bind at 1 2, get, put in E. cbn [fst snd] in E.
  destruct (translate_api (requests st) texts source_lang target_lang)
    as [items| | |].
  - unfold bind at 1 2, time_time, zoom, now in E. cbn [fst snd] in E.
    match type of E with
    | context [for_each items ?b ?s] =>
      pose proof (for_each_preserves
                    (fun st0 => requests st0 = S (requests st)) b items
                    (fun x st0 Hst => Hst) s eq_refl) as Hreq;
      destruct (for_each items b s) as [rs st1]
    end.
    unfold bind, modify, ret in E. by injection E as <- <-.
  - unfold bind, time_time, zoom, now, ret in E. by injection E as <- <-.
  - unfold bind, time_time, zoom, now, ret in E. by injection E as <- <-.
  - unfold ret in E. by injection E as <- <-.
Qed.

Lemma translate_batch_miss batch st :
  translation_cache st !! key_of batch = None ->
  requests (snd (translate_batch batch source_lang target_lang st))
  = S (requests st).
Proof.
  intros Hmiss.
  destruct (translate_batch batch source_lang target_lang st)
    as [rs st'] eqn:E.
  unfold _translate_batch, bind at 1, get in E. rewrite Hmiss in E.
  unfold bind at 1 in E.
  pose proof (call_api_requests (map snd batch) st) as Hreq.
  destruct (_call_deepl_api _ _ _ _ _ _) as [[results|e] st1].
  - unfold bind, modify, ret in E. by injection E as <- <-.
  - unfold ret in E. by injection E as <- <-.
Qed.

Lemma translate_batch_hit batch st cached :
  translation_cache st !! key_of batch = Some cached ->
  translate_batch batch source_lang target_lang st
  = (cached, set_stats (bump_cache_hits (stats st)) st).
Proof.
  intros Hhit. unfold _translate_batch, bind at 1, get. by rewrite Hhit.
Qed.

(** X30: an error answer is cached, an exception is not. When the
    request for a batch that is not in the cache fails, every text of
    the batch gets an error-marked response. If the service answered
    with an error status, or the connection broke, these responses are
    stored in the cache: the same batch asked again gets them back
    without a request, as a cache hit. If the failure came before the
    request was sent, nothing is stored and the batch asked again is
    requested again. *)
Theorem error_answers_are_cached (batch : list (nat * str)) (st : State) :
  translation_cache st !! key_of batch = None ->
  failed (translate_api (requests st) (map snd batch) source_lang
            target_lang) ->
  let first := translate_batch batch source_lang target_lang st in
  let second := translate_batch batch source_lang target_lang (snd first) in
  length (fst first) = length batch
  /\ Forall error_marked (fst first)
  /\ requests (snd first) = S (requests st)
  /\ match translate_api (requests st) (map snd batch) source_lang
             target_lang with
     | SessionFailure _ =>
       translation_cache (snd first) = translation_cache st
       /\ requests (snd second) = S (S (requests st))
     | _ =>
       fst second = fst first
       /\ requests (snd second) = S (requests st)
       /\ cache_hits (stats (snd second)) = S (cache_hits (stats st))
     end.
Proof.
  intros Hmiss Hfail. cbn zeta.
  destruct (translate_batch_failed tm py_hash translate_api source_lang
              target_lang batch st Hmiss Hfail) as [Hlen Herr].
  pose proof (translate_batch_miss batch st Hmiss) as Hreq.
  split; [done|]. split; [done|]. split; [done|].
  destruct (translate_batch batch source_lang target_lang st)
    as [rs st1] eqn:E.
  cbn [fst snd] in *.
  unfold _translate_batch, bind at 1, get in E. rewrite Hmiss in E.
  unfold _call_deepl_api, bind at 1 2 3, get, put in E. cbn [fst snd] in E.
  destruct (translate_api (requests st) (map snd batch) source_lang
              target_lang) as [items|status error_text|e|e];
    [done| | |].
  - unfold bind, time_time, zoom, now, ret, modify in E. cbn [fst snd] in E.
    injection E as <- <-.
    erewrite translate_batch_hit; [|apply lookup_insert_eq].
    by cbn [fst snd].
  - unfold bind, time_time, zoom, now, ret, modify in E. cbn [fst snd] in E.
    injection E as <- <-.
    erewrite translate_batch_hit; [|apply lookup_insert_eq].
    by cbn [fst snd].
  - unfold bind, ret in E. injection E as <- <-.
    split; [done|].
    rewrite translate_batch_miss by done. done.
Qed.

End AsyncFacts.

Lemma blank_request_is_free_witness :
  fst (AsyncDeepL.translate_batch_async Sample.time Sample.hash_of
         Sample.flaky_api Sample.permits Sample.in_turn [u "  "; []] 0
         (u "EN") (u "RU") Sample.async_state)
  = AsyncDeepL.Returned
      [AsyncDeepL.response [] (u "EN") true None;
       AsyncDeepL.response [] (u "EN") true None].
Proof.
  destruct (blank_request_is_free Sample.time Sample.hash_of Sample.flaky_api
              Sample.permits Sample.in_turn (u "EN") (u "RU") [u "  "; []] 0
              Sample.async_state)
    as [H _].
  - by repeat constructor.
  - exact H.
Defined.

Lemma error_answers_are_cached_witness :
  let st := AsyncDeepL.set_requests 1 Sample.async_state in
  let first :=
    AsyncDeepL._translate_batch Sample.time Sample.hash_of Sample.flaky_api
      [(0, u "Hello")] (u "EN") (u "RU") st in
  let second :=
    AsyncDeepL._translate_batch Sample.time Sample.hash_of Sample.flaky_api
      [(0, u "Hello")] (u "EN") (u "RU") (snd first) in
  Forall error_marked (fst first) /\ fst second = fst first.
Proof.
  destruct (error_answers_are_cached Sample.time Sample.hash_of
              Sample.flaky_api (u "EN") (u "RU") [(0, u "Hello")]
              (AsyncDeepL.set_requests 1 Sample.async_state))
    as (_ & H1 & _ & H2).
  - by vm_compute.
  - by vm_compute.
  - cbn zeta. split; [exact H1|].
    change (Sample.flaky_api
              (AsyncDeepL.requests
                 (AsyncDeepL.set_requests 1 Sample.async_state))
              (map snd [(0, u "Hello")]) (u "EN") (u "RU"))
      with (AsyncDeepL.HttpError 429 (u "Too many requests")) in H2.
    by destruct H2.
Defined.

(** * The batch client: the batches of a request run together *)

Section GatherFacts.

Import AsyncDeepL.

Variable tm : Time.
Variable py_hash : list str -> Z.
Variable translate_api : nat -> list str -> str -> str -> ApiOutcome.
Variable max_concurrent : positive.
Variable schedule : nat -> nat.
Variable source_lang target_lang : str.

(** A task that nothing interleaves with: its start followed at once by
    its end is [_translate_batch]. *)
Lemma translate_batch_alone i batch st :
  _translate_batch tm py_hash translate_api batch source_lang target_lang st
  = (do started <- start_batch tm py_hash translate_api i batch
                     source_lang target_lang;
     match started with
     | inl results => ret results
     | inr f => finish_batch tm py_hash translate_api f
                  source_lang target_lang
     end) st.
Proof.
  unfold _translate_batch, start_batch, finish_batch, receive,
    _call_deepl_api, bind, get, put, ret, modify, time_time, zoom, now.
  cbn [fst snd].
  destruct (translation_cache st !! _); [done|].
  cbn [requests set_requests].
  destruct (translate_api (requests st) (map snd batch) source_lang
              target_lang) eqn:E;
    cbn [request flight_batch sent_at fst snd]; rewrite ?E; try done.
Qed.

Lemma lookup_In {A} (l : list A) i x : l !! i = Some x -> In x l.
Proof. intros H. by apply list_elem_of_In, list_elem_of_lookup_2 with i. Qed.

Section EventLoop.

Variable batches : list (list (nat * str)).
(** What the steps keep of the state, and what they give a batch. *)
Variable I : State -> Prop.
Variable F : InFlight -> Prop.
Variable R : list (nat * str) -> list TranslationResponse -> Prop.

Hypothesis start_ok : forall i b st started st',
  I st -> In b batches ->
  start_batch tm py_hash translate_api i b source_lang target_lang st
    = (started, st') ->
  I st'
  /\ match started with
     | inl rs => R b rs
     | inr f => task f = i /\ flight_batch f = b /\ F f
     end.

Hypothesis finish_ok : forall f st rs st',
  I st -> In (flight_batch f) batches -> F f ->
  finish_batch tm py_hash translate_api f source_lang target_lang st
    = (rs, st') ->
  I st' /\ R (flight_batch f) rs.

Lemma start_next_ok run st run' st' :
  I st -> tasks_ok batches F R run -> waiting run <> [] ->
  start_next tm py_hash translate_api source_lang target_lang run st
    = (run', st') ->
  I st' /\ tasks_ok batches F R run' /\ pending run' < pending run.
Proof.
  intros HI (Hlen & Hw & Hf & Hnone & Hsome) Hne.
  destruct run as [w fl fin]. cbn [waiting in_flight finished] in *.
  destruct w as [|[i b] rest]; [done|].
  unfold start_next, bind. cbn [waiting in_flight finished].
  destruct (start_batch tm py_hash translate_api i b source_lang target_lang
              st) as [started st1] eqn:Es.
  inversion Hw as [|? ? Hib Hrest]; subst.
  destruct (start_ok i b st started st1 HI (lookup_In _ _ _ Hib) Es)
    as [HI1 Hstarted].
  destruct started as [rs|f]; unfold ret; intros [= <- <-];
    (split; [exact HI1|]); unfold tasks_ok, pending;
    cbn [waiting in_flight finished].
  - split; [|simpl; lia]. split; [by rewrite length_insert|].
    split; [done|]. split; [done|]. split.
    + intros j Hj.
      destruct (decide (j = i)) as [->|Hji].
      * destruct (decide (i < length fin)) as [Hlt|Hge].
        -- rewrite list_lookup_insert_eq in Hj by done. discriminate.
        -- rewrite list_insert_ge in Hj by lia.
           apply lookup_lt_Some in Hj. lia.
      * rewrite list_lookup_insert_ne in Hj by done.
        destruct (Hnone j Hj) as [[Heq|Hin]|Hin]; simpl in *;
          [congruence|by left|by right].
    + intros j rs' Hj.
      destruct (decide (j = i)) as [->|Hji].
      * destruct (decide (i < length fin)) as [Hlt|Hge].
        -- rewrite list_lookup_insert_eq in Hj by done.
           injection Hj as <-. by exists b.
        -- rewrite list_insert_ge in Hj by lia.
           apply lookup_lt_Some in Hj. lia.
      * rewrite list_lookup_insert_ne in Hj by done. by apply Hsome.
  - destruct Hstarted as (Htask & Hbatch & HF).
    split; [|rewrite length_app; simpl; lia]. split; [done|].
    split; [done|]. split.
    { apply Forall_app. split; [done|]. constructor; [|done].
      by rewrite Htask, Hbatch. }
    split; [|done].
    intros j Hj. rewrite map_app, in_app_iff.
    destruct (Hnone j Hj) as [[Heq|Hin]|Hin]; simpl in *.
    + right. right. left. congruence.
    + by left.
    + right. by left.
Qed.

Lemma finish_nth_ok k run st run' st' :
  I st -> tasks_ok batches F R run -> k < length (in_flight run) ->
  finish_nth tm py_hash translate_api k source_lang target_lang run st
    = (run', st') ->
  I st' /\ tasks_ok batches F R run' /\ pending run' < pending run.
Proof.
  intros HI (Hlen & Hw & Hf & Hnone & Hsome) Hk.
  destruct run as [w fl fin]. cbn [waiting in_flight finished] in *.
  unfold finish_nth, bind. cbn [waiting in_flight finished].
  destruct (lookup_lt_is_Some_2 fl k Hk) as [f Hfk]. rewrite Hfk.
  destruct (finish_batch tm py_hash translate_api f source_lang target_lang
              st) as [rs st1] eqn:Ef.
  assert (batches !! task f = Some (flight_batch f) /\ F f) as [Hfb HF].
  { rewrite List.Forall_forall in Hf. apply Hf. by apply lookup_In with k. }
  destruct (finish_ok f st rs st1 HI (lookup_In _ _ _ Hfb) HF Ef)
    as [HI1 HR].
  unfold ret. intros [= <- <-]. split; [exact HI1|].
  unfold tasks_ok, pending. cbn [waiting in_flight finished].
  assert (length (delete k fl) = length fl - 1) as Hdel.
  { apply length_delete. by exists f. }
  split; [|rewrite Hdel; lia].
  split; [by rewrite length_insert|]. split; [done|].
  split; [by apply Forall_delete|]. split.
  - intros j Hj.
    destruct (decide (j = task f)) as [->|Hjf].
    + destruct (decide (task f < length fin)) as [Hlt|Hge].
      * rewrite list_lookup_insert_eq in Hj by done. discriminate.
      * rewrite list_insert_ge in Hj by lia.
        apply lookup_lt_Some in Hj. lia.
    + rewrite list_lookup_insert_ne in Hj by done.
      destruct (Hnone j Hj) as [Hin|Hin]; [by left|right].
      rewrite delete_take_drop, map_app, in_app_iff.
      rewrite <- (take_drop_middle fl k f Hfk), map_app, in_app_iff in Hin.
      destruct Hin as [Hin|[Heq|Hin]]; [by left|congruence|by right].
  - intros j rs' Hj.
    destruct (decide (j = task f)) as [->|Hjf].
    + destruct (decide (task f < length fin)) as [Hlt|Hge].
      * rewrite list_lookup_insert_eq in Hj by done.
        injection Hj as <-. by exists (flight_batch f).
      * rewrite list_insert_ge in Hj by lia.
        apply lookup_lt_Some in Hj. lia.
    + rewrite list_lookup_insert_ne in Hj by done. by apply Hsome.
Qed.

Lemma can_start_waiting run : can_start max_concurrent run = true ->
  waiting run <> [].
Proof.
  unfold can_start. intros [_ H]%andb_prop. by destruct (waiting run).
Qed.

Lemma start_ready_ok fuel run st run' st' :
  I st -> tasks_ok batches F R run ->
  start_ready tm py_hash translate_api max_concurrent fuel
    source_lang target_lang run st = (run', st') ->
  I st' /\ tasks_ok batches F R run' /\ pending run' <= pending run.
Proof.
  revert run st. induction fuel as [|fuel IH]; intros run st HI Hok; simpl.
  - unfold ret. intros [= <- <-]. split; [done|]. split; [done|lia].
  - destruct (can_start max_concurrent run) eqn:Ec.
    + unfold bind.
      destruct (start_next tm py_hash translate_api source_lang target_lang
                  run st) as [run1 st1] eqn:Es.
      destruct (start_next_ok run st run1 st1 HI Hok
                  (can_start_waiting run Ec) Es) as (HI1 & Hok1 & Hlt).
      intros E. destruct (IH run1 st1 HI1 Hok1 E) as (HI' & Hok' & Hle).
      split; [done|]. split; [done|lia].
    + unfold ret. intros [= <- <-]. split; [done|]. split; [done|lia].
Qed.

Lemma run_events_ok fuel step run st run' st' :
  I st -> tasks_ok batches F R run -> pending run <= fuel ->
  run_events tm py_hash translate_api max_concurrent schedule fuel step
    source_lang target_lang run st = (run', st') ->
  I st' /\ tasks_ok batches F R run'
  /\ waiting run' = [] /\ in_flight run' = [].
Proof.
  revert step run st.
  induction fuel as [|fuel IH]; intros step run st HI Hok Hfuel.
  - simpl. unfold ret. intros [= <- <-]. unfold pending in Hfuel.
    split; [done|]. split; [done|]. split.
    + destruct (waiting run); [done|simpl in Hfuel; lia].
    + destruct (in_flight run); [done|simpl in Hfuel; lia].
  - cbn [run_events].
    destruct (length (in_flight run)
              + (if can_start max_concurrent run then 1 else 0))
      as [|n] eqn:En.
    + unfold ret. intros [= <- <-].
      assert (in_flight run = []) as Hfl.
      { destruct (in_flight run); [done|simpl in En; lia]. }
      assert (can_start max_concurrent run = false) as Hc.
      { destruct (can_start max_concurrent run); [lia|done]. }
      split; [done|]. split; [done|]. split; [|done].
      unfold can_start in Hc. rewrite Hfl in Hc. simpl in Hc.
      destruct (waiting run); [done|].
      rewrite andb_true_r in Hc. apply Nat.ltb_ge in Hc.
      pose proof (Pos2Nat.is_pos max_concurrent). lia.
    + set (k := schedule step mod S n).
      assert (k < S n) as Hk by (apply Nat.mod_upper_bound; lia).
      unfold bind.
      destruct (k <? length (in_flight run))%nat eqn:Ek.
      * apply Nat.ltb_lt in Ek.
        destruct (finish_nth tm py_hash translate_api k source_lang
                    target_lang run st) as [run1 st1] eqn:Ef.
        destruct (finish_nth_ok k run st run1 st1 HI Hok Ek Ef)
          as (HI1 & Hok1 & Hlt).
        apply IH; try done. lia.
      * apply Nat.ltb_ge in Ek.
        assert (can_start max_concurrent run = true) as Hc.
        { destruct (can_start max_concurrent run); [done|lia]. }
        destruct (start_next tm py_hash translate_api source_lang
                    target_lang run st) as [run1 st1] eqn:Es.
        destruct (start_next_ok run st run1 st1 HI Hok
                    (can_start_waiting run Hc) Es) as (HI1 & Hok1 & Hlt).
        apply IH; try done. lia.
Qed.

Lemma enumerate_from_length {A} k (l : list A) :
  length (Splitter.enumerate_from k l) = length l.
Proof. by rewrite <- (length_map fst), enumerate_from_fst, length_seq. Qed.

Lemma enumerate_from_lookup {A} (pre l : list A) :
  Forall (fun '(i, x) => (pre ++ l) !! i = Some x)
    (Splitter.enumerate_from (length pre) l).
Proof.
  revert pre. induction l as [|x r IH]; intros pre; simpl; [constructor|].
  constructor.
  - by apply list_lookup_middle.
  - specialize (IH (pre ++ [x])).
    rewrite length_app, Nat.add_1_r, <- app_assoc in IH. exact IH.
Qed.

Lemma tasks_ok_init :
  tasks_ok batches F R
    {| waiting := Splitter.enumerate_from 0 batches; in_flight := [];
       finished :=
         replicate (length (Splitter.enumerate_from 0 batches)) None |}.
Proof.
  unfold tasks_ok. cbn [waiting in_flight finished].
  rewrite enumerate_from_length.
  split; [by rewrite length_replicate|].
  split; [apply (enumerate_from_lookup [] batches)|].
  split; [constructor|]. split.
  - intros i [_ Hi]%lookup_replicate. left.
    rewrite enumerate_from_fst. apply in_seq. lia.
  - intros i rs [Hi _]%lookup_replicate. discriminate.
Qed.

(** Results without a gap are the results of all the tasks. *)
Lemma all_done_ok (fin : list (option (list TranslationResponse)))
    (bs : list (list (nat * str))) :
  length fin = length bs ->
  (forall i, fin !! i <> Some None) ->
  (forall i rs, fin !! i = Some (Some rs) ->
     exists b, bs !! i = Some b /\ R b rs) ->
  exists rss, all_done fin = Some rss /\ Forall2 R bs rss.
Proof.
  revert bs. induction fin as [|[rs|] fin IH]; intros [|b bs] Hlen Hnone Hsome;
    try discriminate.
  - exists []. by split; [|constructor].
  - destruct (IH bs) as (rss & Hdone & Hall).
    + simpl in Hlen. lia.
    + intros i. apply (Hnone (S i)).
    + intros i rs'. apply (Hsome (S i)).
    + destruct (Hsome 0 rs eq_refl) as (b' & [= <-] & HR).
      exists (rs :: rss). simpl. rewrite Hdone.
      by split; [|constructor].
  - by destruct (Hnone 0).
Qed.

(** All the tasks get done, whatever the event loop chooses, and each
    hands back what its steps give its batch. *)
Lemma gather_ok st results st' :
  I st ->
  gather tm py_hash translate_api max_concurrent schedule batches
    source_lang target_lang st = (results, st') ->
  I st'
  /\ exists rss, all_done results = Some rss /\ Forall2 R batches rss.
Proof.
  intros HI. unfold gather, bind at 1.
  destruct (start_ready _ _ _ _ _ _ _ _ st) as [run1 st1] eqn:E1.
  destruct (start_ready_ok _ _ _ _ _ HI tasks_ok_init E1)
    as (HI1 & Hok1 & Hle1).
  assert (pending run1 <= 2 * length (Splitter.enumerate_from 0 batches))
    as Hfuel.
  { unfold pending in Hle1 at 2. cbn [waiting in_flight] in Hle1.
    change (length (@nil InFlight)) with 0 in Hle1. lia. }
  unfold bind.
  destruct (run_events _ _ _ _ _ _ _ _ _ run1 st1) as [run2 st2] eqn:E2.
  destruct (run_events_ok _ _ _ _ _ _ HI1 Hok1 Hfuel E2)
    as (HI2 & (Hlen & _ & _ & Hnone & Hsome) & Hw & Hf).
  unfold ret. intros [= <- <-]. split; [done|].
  apply all_done_ok; [done| |done].
  intros i Hi. destruct (Hnone i Hi) as [Hin|Hin].
  - by rewrite Hw in Hin.
  - by rewrite Hf in Hin.
Qed.

End EventLoop.

Section Served.

(** The state in which the request begins, and its batches. *)
Variable st0 : State.
Variable batches : list (list (nat * str)).

Abbreviation entry_from0 :=
  (entry_from py_hash translate_api source_lang target_lang st0 batches).
Abbreviation served0 :=
  (served py_hash translate_api source_lang target_lang st0 batches).
Abbreviation state_from0 :=
  (state_from py_hash translate_api source_lang target_lang st0 batches).

Lemma start_batch_served i b st started st' :
  state_from0 st -> In b batches ->
  start_batch tm py_hash translate_api i b source_lang target_lang st
    = (started, st') ->
  state_from0 st'
  /\ match started with
     | inl rs => served0 b rs
     | inr f =>
       task f = i /\ flight_batch f = b /\ requests st0 <= request f
     end.
Proof.
  intros [Hreq Hcache] Hb.
  unfold start_batch, bind at 1, get. cbn [fst snd].
  destruct (translation_cache st !! _) as [cached|] eqn:Ec.
  - unfold bind, modify, ret. intros [= <- <-].
    split; [by split|]. by apply Hcache.
  - unfold bind at 1 2, get, put. cbn [fst snd requests set_requests].
    destruct (translate_api (requests st) (map snd b) source_lang
                target_lang) as [items|status error_text|e|e] eqn:Ea;
      unfold bind, time_time, zoom, now, ret; cbn [fst snd];
      intros [= <- <-]; cbn [task flight_batch request];
      (split; [split; [cbn [requests set_ticks set_requests]; lia|done]|]);
      try (by repeat split).
    right. exists b, (requests st). rewrite Ea. cbn [answered].
    by rewrite map_map.
Qed.

Lemma receive_answered f st called st' :
  receive tm translate_api f source_lang target_lang st = (called, st') ->
  translation_cache st' = translation_cache st
  /\ requests st' = requests st
  /\ answered source_lang
       (translate_api (request f) (map snd (flight_batch f))
          source_lang target_lang)
       (map snd (flight_batch f))
       match called with
       | Returned results => results
       | Raised e =>
         map (fun _ => response [] source_lang false (Some e))
           (flight_batch f)
       end.
Proof.
  unfold receive.
  destruct (translate_api (request f) (map snd (flight_batch f))
              source_lang target_lang) as [items|status error_text|e|e];
    cbn [answered].
  - unfold bind at 1.
    match goal with
    | |- context [for_each items ?body st] =>
      pose proof (for_each_preserves
                    (fun s => translation_cache s = translation_cache st
                              /\ requests s = requests st)
                    body items
                    (fun x s Hs => Hs) st (conj eq_refl eq_refl)) as Hkeep;
      pose proof (for_each_Forall2
                    (fun item r =>
                       text r = default [] (item_text item)
                       /\ detected_source_language r
                          = default source_lang
                              (item_detected_source_language item)
                       /\ success r = true /\ error_message r = None)
                    body items
                    (fun x s => conj eq_refl
                                  (conj eq_refl (conj eq_refl eq_refl)))
                    st) as Hall;
      destruct (for_each items body st) as [translations st1]
    end.
    cbn [fst snd] in *. unfold bind, modify, ret. intros [= <- <-].
    destruct Hkeep as [Hc Hr]. by repeat split.
  - unfold ret. by intros [= <- <-].
  - unfold ret. by intros [= <- <-].
  - unfold ret. intros [= <- <-]. by rewrite map_map.
Qed.

Lemma finish_batch_served f st rs st' :
  state_from0 st -> In (flight_batch f) batches ->
  requests st0 <= request f ->
  finish_batch tm py_hash translate_api f source_lang target_lang st
    = (rs, st') ->
  state_from0 st' /\ served0 (flight_batch f) rs.
Proof.
  intros [Hreq Hcache] Hb Hf. unfold finish_batch, bind at 1.
  destruct (receive tm translate_api f source_lang target_lang st)
    as [called st1] eqn:Er.
  destruct (receive_answered f st called st1 Er) as (Hc & Hr & Hans).
  assert (served0 (flight_batch f)
            match called with
            | Returned results => results
            | Raised e =>
              map (fun _ => response [] source_lang false (Some e))
                (flight_batch f)
            end) as Hserved.
  { right. by exists (flight_batch f), (request f). }
  destruct called as [results|e].
  - unfold bind, modify, ret. intros [= <- <-]. split; [|done].
    split; [cbn [requests set_translation_cache]; lia|].
    intros key rs'. cbn [translation_cache set_translation_cache].
    destruct (decide (cache_key py_hash (map snd (flight_batch f))
                        source_lang target_lang = key)) as [<-|Hne].
    + rewrite lookup_insert_eq. by intros [= <-].
    + rewrite lookup_insert_ne by done. rewrite Hc. apply Hcache.
  - unfold ret. intros [= <- <-]. split; [|done].
    split; [lia|]. intros key rs'. rewrite Hc. apply Hcache.
Qed.

(** The tasks of a request all get done, whatever the event loop
    chooses, and each batch is served from the cache or by a request
    made for a batch with its key. *)
Lemma gather_served st results st' :
  state_from0 st ->
  gather tm py_hash translate_api max_concurrent schedule batches
    source_lang target_lang st = (results, st') ->
  state_from0 st'
  /\ exists rss, all_done results = Some rss /\ Forall2 served0 batches rss.
Proof.
  apply (gather_ok batches state_from0
           (fun f => requests st0 <= request f) served0).
  - apply start_batch_served.
  - apply finish_batch_served.
Qed.

End Served.

(** A task that misses the cache sends a request, and only that. *)
Lemma start_batch_miss i b st started st' :
  translation_cache st !! cache_key py_hash (map snd b) source_lang target_lang
    = None ->
  start_batch tm py_hash translate_api i b source_lang target_lang st
    = (started, st') ->
  requests st' = S (requests st)
  /\ stats st' = stats st
  /\ translation_cache st' = translation_cache st.
Proof.
  intros Hmiss. unfold start_batch, bind at 1, get. cbn [fst snd].
  rewrite Hmiss. unfold bind at 1 2, get, put. cbn [fst snd requests].
  destruct (translate_api _ _ _ _);
    unfold bind, time_time, zoom, now, ret; cbn [fst snd];
    by intros [= <- <-].
Qed.

(** The end of a task sends no request and hits no cache. *)
Lemma finish_batch_keeps f st rs st' :
  finish_batch tm py_hash translate_api f source_lang target_lang st
    = (rs, st') ->
  requests st' = requests st
  /\ cache_hits (stats st') = cache_hits (stats st).
Proof.
  unfold finish_batch, receive, bind at 1.
  destruct (translate_api _ _ _ _) as [items| | |].
  - unfold bind at 1.
    match goal with
    | |- context [for_each items ?body st] =>
      pose proof (for_each_preserves
                    (fun s => requests s = requests st
                              /\ stats s = stats st)
                    body items
                    (fun x s Hs => Hs) st (conj eq_refl eq_refl)) as Hkeep;
      destruct (for_each items body st) as [translations st1]
    end.
    cbn [fst snd] in *. destruct Hkeep as [Hr Hs].
    unfold bind, modify, ret. cbn [fst snd]. intros [= <- <-].
    cbn [requests stats set_translation_cache set_stats cache_hits
           bump_api_calls]. by rewrite Hr, Hs.
  - unfold bind, modify, ret. cbn [fst snd]. by intros [= <- <-].
  - unfold bind, modify, ret. cbn [fst snd]. by intros [= <- <-].
  - unfold bind, ret. cbn [fst snd]. by intros [= <- <-].
Qed.

Lemma start_ready_all_miss fuel run st run' st' :
  Forall
    (fun '(_, b) =>
       translation_cache st
         !! cache_key py_hash (map snd b) source_lang target_lang = None)
    (waiting run) ->
  length (in_flight run) + length (waiting run)
    <= Pos.to_nat max_concurrent ->
  length (waiting run) <= fuel ->
  start_ready tm py_hash translate_api max_concurrent fuel
    source_lang target_lang run st = (run', st') ->
  waiting run' = []
  /\ requests st' = requests st + length (waiting run)
  /\ stats st' = stats st.
Proof.
  revert run st.
  induction fuel as [|fuel IH]; intros [w fl fin] st Hmiss Hroom Hfuel;
    cbn [waiting in_flight finished] in *.
  - destruct w; [|simpl in Hfuel; lia]. simpl. unfold ret.
    intros [= <- <-]. cbn [waiting]. split; [done|]. split; [simpl; lia|done].
  - cbn [start_ready]. unfold can_start. cbn [waiting in_flight].
    destruct w as [|[i b] rest].
    + rewrite andb_false_r. unfold ret. intros [= <- <-].
      cbn [waiting]. split; [done|]. split; [simpl; lia|done].
    + assert ((length fl <? Pos.to_nat max_concurrent)%nat = true) as ->.
      { apply Nat.ltb_lt. simpl in Hroom. lia. }
      cbn [andb]. unfold bind at 1, start_next at 1, bind at 1.
      cbn [waiting in_flight finished].
      inversion Hmiss as [|? ? Hb Hrest]; subst.
      destruct (start_batch tm py_hash translate_api i b source_lang
                  target_lang st) as [started st1] eqn:Es.
      destruct (start_batch_miss i b st started st1 Hb Es)
        as (Hr1 & Hs1 & Hc1).
      simpl in Hroom, Hfuel.
      destruct started as [rs|f]; unfold ret at 1; intros E;
        apply IH in E; cbn [waiting in_flight] in *;
        try (by rewrite Hc1); try (rewrite ?length_app; simpl; lia).
      * destruct E as (Hw & Hr & Hs). split; [done|].
        split; [simpl; lia|congruence].
      * destruct E as (Hw & Hr & Hs). split; [done|].
        split; [simpl; lia|congruence].
Qed.

Lemma run_events_no_waiting fuel step run st run' st' :
  waiting run = [] ->
  run_events tm py_hash translate_api max_concurrent schedule fuel step
    source_lang target_lang run st = (run', st') ->
  requests st' = requests st
  /\ cache_hits (stats st') = cache_hits (stats st).
Proof.
  revert step run st.
  induction fuel as [|fuel IH]; intros step [w fl fin] st Hw;
    cbn [waiting] in Hw; subst w.
  - simpl. unfold ret. by intros [= <- <-].
  - cbn [run_events]. unfold can_start. cbn [waiting in_flight].
    rewrite andb_false_r, Nat.add_0_r.
    destruct (length fl) as [|n] eqn:En.
    + unfold ret. by intros [= <- <-].
    + assert (schedule step mod S n < S n) as Hk
        by (apply Nat.mod_upper_bound; lia).
      apply Nat.ltb_lt in Hk. rewrite Hk.
      unfold bind at 1, finish_nth at 1. cbn [waiting in_flight finished].
      destruct (fl !! (schedule step mod S n)) as [f|].
      * unfold bind at 1.
        destruct (finish_batch tm py_hash translate_api f source_lang
                    target_lang st) as [rs st1] eqn:Ef.
        destruct (finish_batch_keeps f st rs st1 Ef) as [Hr Hs].
        unfold ret at 1. intros E. apply IH in E; [|done].
        destruct E as [Hr' Hs']. split; congruence.
      * unfold ret at 1. intros E. by apply IH in E.
Qed.

(** Batches that run together do not see one another's answers. When
    there is a permit for every batch of a request and none of them is
    in the cache when the request begins, every batch sends a request
    of its own and none hits the cache, also when the batches are
    equal. *)
Lemma gather_all_miss batches st results st' :
  length batches <= Pos.to_nat max_concurrent ->
  Forall
    (fun b =>
       translation_cache st
         !! cache_key py_hash (map snd b) source_lang target_lang = None)
    batches ->
  gather tm py_hash translate_api max_concurrent schedule batches
    source_lang target_lang st = (results, st') ->
  requests st' = requests st + length batches
  /\ cache_hits (stats st') = cache_hits (stats st).
Proof.
  intros Hroom Hmiss. unfold gather, bind at 1.
  destruct (start_ready _ _ _ _ _ _ _ _ st) as [run1 st1] eqn:E1.
  apply start_ready_all_miss in E1 as (Hw & Hr & Hs);
    cbn [waiting in_flight] in *;
    rewrite ?enumerate_from_length in *; try (simpl; lia).
  - unfold bind.
    destruct (run_events _ _ _ _ _ _ _ _ _ run1 st1) as [run2 st2] eqn:E2.
    apply run_events_no_waiting in E2 as [Hr2 Hs2]; [|done].
    unfold ret. intros [= <- <-]. split; congruence.
  - clear -Hmiss. generalize 0.
    induction Hmiss as [|b bs Hb _ IH]; intros k; simpl; constructor; auto.
Qed.

(** The batch call, whatever the service answers and whatever the event
    loop chooses: every batch is served, and the call returns what the
    loop that puts the blank texts back makes of the responses of the
    batches, laid end to end. *)
Lemma translate_batch_async_served texts batch_size st :
  List.filter nonblank texts <> [] -> 0 < batch_size ->
  exists rss,
    Forall2
      (served py_hash translate_api source_lang target_lang st
         (batches_of texts batch_size))
      (batches_of texts batch_size) rss
    /\ fst (translate_batch_async tm py_hash translate_api max_concurrent
              schedule texts batch_size source_lang target_lang st)
       = restore_order source_lang texts (concat rss).
Proof.
  intros Hsome Hsize.
  unfold translate_batch_async, bind at 1.
  unfold time_time at 1, zoom at 1, now at 1. cbn [fst snd].
  unfold batches_of.
  set (non_empty_texts :=
         List.filter (fun '(_, text) => truthy (strip text))
           (Splitter.enumerate_from 0 texts)).
  assert (non_empty_texts <> []) as Hne.
  { intros Hnil. apply Hsome.
    rewrite <- (filter_enumerate nonblank 0 texts).
    fold (nonblank). unfold non_empty_texts in Hnil.
    unfold nonblank at 1. by rewrite Hnil. }
  destruct non_empty_texts as [|p rest] eqn:Ene; [done|].
  rewrite <- Ene. clear Ene Hne p rest.
  destruct batch_size as [|n]; [lia|].
  set (batches := chunks (S n) non_empty_texts).
  set (st1 := set_ticks (S (ticks st)) st).
  unfold bind at 1.
  destruct (gather tm py_hash translate_api max_concurrent schedule batches
              source_lang target_lang st1) as [gathered st2] eqn:Eg.
  destruct (gather_served st1 batches st1 gathered st2) as (_ & rss & Hd & Hall);
    [split; [done|by left]|exact Eg|].
  exists rss. split; [exact Hall|].
  rewrite Hd. unfold bind at 1. rewrite merge_returned.
  destruct (restore_order source_lang texts (concat rss)); [|done].
  unfold bind, time_time, zoom, now, modify, ret. done.
Qed.

Lemma answered_length o texts rs :
  (forall items, o = Ok200 items -> length items = length texts) ->
  answered source_lang o texts rs -> length rs = length texts.
Proof.
  intros Hok. destruct o as [items| | |]; cbn [answered].
  - intros H%Forall2_length. rewrite <- H. by apply Hok.
  - intros ->. by rewrite length_map.
  - intros ->. by rewrite length_map.
  - intros ->. by rewrite length_map.
Qed.

(** A request that fails leaves an error-marked response for every text
    of its batch. *)
Lemma answered_failed o texts rs :
  failed o -> answered source_lang o texts rs ->
  length rs = length texts /\ Forall error_marked rs.
Proof.
  destruct o as [items| | |]; cbn [answered failed]; [done| | |];
    intros _ ->; rewrite length_map; (split; [done|]);
    apply Forall_map, Forall_true; intros x; by split; [|eexists].
Qed.

(** With a service that keeps its contract and a cache that is sound for
    the batches of the request, a served batch has one response per
    text. *)
Lemma served_length batches st b rs :
  api_ok translate_api source_lang target_lang ->
  keys_coherent py_hash source_lang target_lang batches = true ->
  cache_ok py_hash source_lang target_lang batches st ->
  In b batches ->
  served py_hash translate_api source_lang target_lang st batches b rs ->
  length rs = length b.
Proof.
  intros Hapi Hkeys Hcache Hb [Hhit|(b' & n & Hb' & Hkey & _ & Hans)].
  - by apply (Hcache b).
  - apply answered_length in Hans; [|intros items; apply Hapi].
    rewrite length_map in Hans. rewrite Hans.
    unfold keys_coherent in Hkeys.
    rewrite forallb_forall in Hkeys. specialize (Hkeys b' Hb').
    rewrite forallb_forall in Hkeys. specialize (Hkeys b Hb).
    unfold str_eqb in Hkeys. rewrite bool_decide_eq_true_2 in Hkeys by done.
    simpl in Hkeys. by apply Nat.eqb_eq in Hkeys.
Qed.

(** The batch call when the service keeps its contract (an answer with
    status 200 carries one translation per text) and the cache is sound
    for the batches of the request: whatever the order in which the
    requests are answered, the call returns one response per text; a
    blank text gets an empty successful response at its place, and the
    responses at the places of the other texts are, in order, those of
    the batches, each served from the cache or by a request. *)
Lemma translate_batch_async_positions texts batch_size st :
  0 < batch_size ->
  api_ok translate_api source_lang target_lang ->
  keys_coherent py_hash source_lang target_lang
    (batches_of texts batch_size) = true ->
  cache_ok py_hash source_lang target_lang (batches_of texts batch_size) st ->
  exists final rss,
    fst (translate_batch_async tm py_hash translate_api max_concurrent
           schedule texts batch_size source_lang target_lang st)
    = Returned final
    /\ length final = length texts
    /\ Forall2
         (fun text r =>
            nonblank text = false -> r = response [] source_lang true None)
         texts final
    /\ at_nonblank texts final = concat rss
    /\ Forall2
         (fun batch rs =>
            length rs = length batch
            /\ served py_hash translate_api source_lang target_lang st
                 (batches_of texts batch_size) batch rs)
         (batches_of texts batch_size) rss.
Proof.
  intros Hsize Hapi Hkeys Hcache.
  assert (length (concat (batches_of texts batch_size))
          = length (List.filter nonblank texts)) as Hcount.
  { unfold batches_of. rewrite chunks_concat by done.
    by rewrite <- (filter_enumerate nonblank 0 texts), length_map. }
  assert (exists rss,
            Forall2
              (fun batch rs =>
                 length rs = length batch
                 /\ served py_hash translate_api source_lang target_lang st
                      (batches_of texts batch_size) batch rs)
              (batches_of texts batch_size) rss
            /\ fst (translate_batch_async tm py_hash translate_api
                      max_concurrent schedule texts batch_size source_lang
                      target_lang st)
               = restore_order source_lang texts (concat rss))
    as (rss & Hall & Hres).
  { destruct (List.filter nonblank texts) as [|t r] eqn:Ef.
    - exists []. assert (batches_of texts batch_size = []) as ->.
      { destruct (batches_of texts batch_size) as [|[|x b] bs] eqn:Eb;
          [done| |simpl in Hcount; lia].
        unfold batches_of, chunks in Eb.
        destruct (List.filter _ _) as [|y l]; [done|].
        destruct batch_size; [lia|]. simpl in Eb. discriminate. }
      split; [constructor|].
      assert (Forall (fun text => nonblank text = false) texts) as Hblank.
      { apply List.Forall_forall. intros x Hx.
        destruct (nonblank x) eqn:E; [|done].
        assert (In x (List.filter nonblank texts)) as Hin
          by (by apply filter_In).
        by rewrite Ef in Hin. }
      unfold translate_batch_async, bind at 1, time_time, zoom, now.
      cbn [fst snd].
      rewrite (filter_enumerate_nil (fun text => truthy (strip text)) 0 texts
                 Hblank).
      unfold ret. cbn [fst concat]. clear -Hblank.
      induction Hblank as [|x l Hx _ IH]; [done|].
      simpl. unfold nonblank in Hx. rewrite Hx. by rewrite <- IH.
    - destruct (translate_batch_async_served texts batch_size st)
        as (rss & Hall & Hres); [by rewrite Ef|done|].
      exists rss. split; [|done].
      apply Forall2_same_length_lookup. split; [by eapply Forall2_length|].
      intros i b rs Hb Hrs.
      pose proof (Forall2_lookup_lr _ _ _ _ _ _ Hall Hb Hrs) as Hserved.
      split; [|done].
      eapply served_length; try done. by eapply lookup_In. }
  assert (length (concat rss) = length (List.filter nonblank texts)) as Hlen.
  { rewrite <- Hcount. apply concat_length_Forall2.
    eapply Forall2_impl; [exact Hall|]. by intros b rs [H _]. }
  destruct (restore_order_ok source_lang texts (concat rss) Hlen)
    as (final & Hrestore & Hfl & Hnb & Hblank).
  exists final, rss. rewrite Hres. by repeat split.
Qed.

End GatherFacts.

Lemma flaky_api_ok : api_ok Sample.flaky_api (u "EN") (u "RU").
Proof.
  intros n texts items. unfold Sample.flaky_api.
  destruct (n =? 1)%nat; [discriminate|].
  intros [= <-]. by rewrite length_map.
Qed.

Lemma empty_cache_ok py_hash source_lang target_lang batches :
  cache_ok py_hash source_lang target_lang batches Sample.async_state.
Proof. intros b rs _ H. simpl in H. by rewrite lookup_empty in H. Qed.

(** A batch served by a service that sends no translations, with
    nothing in the cache, gets no response at all. *)
Lemma served_short py_hash source_lang target_lang batches b rs :
  served py_hash Sample.short_api source_lang target_lang Sample.async_state
    batches b rs ->
  rs = [].
Proof.
  intros [Hhit|(b' & n & _ & _ & _ & Hans)].
  - simpl in Hhit. by rewrite lookup_empty in Hhit.
  - unfold Sample.short_api in Hans. cbn [answered] in Hans.
    by inversion Hans.
Qed.

(** C7: the batch call does not answer every request with one response
    per text. A request whose batches are answered by the service with
    status 200 and a body that holds no translation raises [IndexError],
    whatever the number of permits and the order in which the answers
    come: the caller gets no list at all, where one response per text,
    error-marked at the places of the failed batch, is due. This is so
    even when only the second batch is answered short: the translation
    of the first batch is lost with it. The paths for a failed request
    do what this one misses: a request refused with status 429 leaves
    an error-marked response at the place of its text, and the blank
    text and the other texts keep their places. *)
Theorem short_answer_raises (max_concurrent : positive)
    (schedule : nat -> nat) :
  fst (AsyncDeepL.translate_batch_async Sample.time Sample.hash_of
         Sample.short_api max_concurrent schedule
         [u "Hello"; u " "; u "World"] 1 (u "EN") (u "RU")
         Sample.async_state)
  = AsyncDeepL.Raised (u "IndexError")
  /\ fst (AsyncDeepL.translate_batch_async Sample.time Sample.hash_of
            Sample.tiring_api Sample.permits Sample.in_turn
            [u "Hello"; u " "; u "World"] 1 (u "EN") (u "RU")
            Sample.async_state)
     = AsyncDeepL.Raised (u "IndexError")
  /\ match
       fst (AsyncDeepL.translate_batch_async Sample.time Sample.hash_of
              Sample.flaky_api Sample.permits Sample.in_turn
              [u "Hello"; u " "; u "World"; u "How"] 1 (u "EN") (u "RU")
              Sample.async_state)
     with
     | AsyncDeepL.Returned final =>
       map (fun r => (AsyncDeepL.text r, AsyncDeepL.success r,
                      AsyncDeepL.error_message r)) final
       = [ (u "[RU] Hello", true, None);
           ([], true, None);
           ([], false, Some (u "API Error 429: Too many requests"));
           (u "[RU] How", true, None) ]
     | AsyncDeepL.Raised _ => False
     end.
Proof.
  split; [|split].
  - destruct (translate_batch_async_served Sample.time Sample.hash_of
                Sample.short_api max_concurrent schedule (u "EN") (u "RU")
                [u "Hello"; u " "; u "World"] 1 Sample.async_state)
      as (rss & Hall & ->); [by vm_compute|lia|].
    assert (concat rss = []) as ->.
    { induction Hall as [|b rs bs rss' Hb _ IH]; [done|].
      simpl. by rewrite (served_short _ _ _ _ _ _ Hb), IH. }
    vm_compute. reflexivity.
  - vm_compute. reflexivity.
  - vm_compute. reflexivity.
Qed.

(** Three batches with the same text. With permits for all, the three
    requests are sent before any answer is cached: no batch hits the
    cache, in whatever order the answers come. With one permit the
    batches run in a row, and the second and the third are served from
    the cache. *)
Example equal_batches_together :
  let run schedule :=
    snd (AsyncDeepL.translate_batch_async Sample.time Sample.hash_of
           Sample.flaky_api Sample.permits schedule
           [u "Hello"; u "Hello"; u "Hello"] 1 (u "EN") (u "RU")
           Sample.async_state) in
  let counts st :=
    (AsyncDeepL.requests st, AsyncDeepL.cache_hits (AsyncDeepL.stats st)) in
  counts (run Sample.in_turn) = (3, 0)
  /\ counts (run Sample.out_of_turn) = (3, 0).
Proof. vm_compute. by split. Qed.

Example equal_batches_in_a_row :
  let st :=
    snd (AsyncDeepL.translate_batch_async Sample.time Sample.hash_of
           Sample.flaky_api 1%positive Sample.in_turn
           [u "Hello"; u "Hello"; u "Hello"] 1 (u "EN") (u "RU")
           Sample.async_state) in
  (AsyncDeepL.requests st, AsyncDeepL.cache_hits (AsyncDeepL.stats st))
  = (1, 2).
Proof. vm_compute. reflexivity. Qed.
